(** * The job scheduler of [foundation/scheduler]

    A shallow embedding of [scheduler.go] (package [scheduler]) together
    with the parts of its two collaborators that decide its behaviour:
    Go's [time] and [strings] packages, and [github.com/robfig/cron/v3],
    the library the scheduler delegates to.

    Layout: Go values first ([gostrings], [gotime]), then the cron library
    ([cron]), then the scheduler itself with the names of the source
    ([New], [Every], [Cron], [Remove], [Jobs], [Start], [Stop], [Running],
    [baseContext], [jobContext]), then the goroutines that run job bodies,
    then the vocabulary of the properties (invariants of the system and a
    few schedulers at hand), and last the theorems.

    Conventions.
    - A Go [string] is a sequence of bytes: Rocq's [string].
    - [int], [int64] and [uint64] are [Z] with the wrap-around written out
      where the code can reach it.
    - A nil-able interface or pointer ([context.Context], [CancelFunc]) is
      an [option].
    - [*slog.Logger] and [*time.Location] values are taken to be non-nil:
      [WithLogger(nil)] and [WithLocation(nil)] are outside the model.
    - Effects (the clock, log output, context cancellation, goroutines and
      channels) live in an explicit [Runtime] that every operation threads. *)

From stdpp Require Import gmap strings list fin_maps sorting.
From Stdlib Require Import ZArith Ascii String Lia.
From Corelib Require Import SpecFloat.

Open Scope Z_scope.

(** ** Go strings *)

Module gostrings.

Definition byte (n : nat) : ascii := ascii_of_nat n.
Definition code (c : ascii) : Z := Z.of_nat (nat_of_ascii c).

Definition isDigit (c : ascii) : bool := (48 <=? code c) && (code c <=? 57).

Fixpoint HasPrefix (s prefix : string) : bool :=
  match prefix, s with
  | EmptyString, _ => true
  | String p prefix', String c s' => if Ascii.eqb p c then HasPrefix s' prefix' else false
  | String _ _, EmptyString => false
  end.

Fixpoint drop (n : nat) (s : string) : string :=
  match n, s with
  | O, _ => s
  | S n', String _ s' => drop n' s'
  | S _, EmptyString => EmptyString
  end.

Fixpoint take (n : nat) (s : string) : string :=
  match n, s with
  | O, _ => EmptyString
  | S n', String c s' => String c (take n' s')
  | S _, EmptyString => EmptyString
  end.

(** [strings.Index(s, sep)] for a one-byte separator: the offset of its
    first occurrence, or -1. *)
Fixpoint IndexByte (s : string) (c : ascii) : Z :=
  match s with
  | EmptyString => -1
  | String d s' =>
      if Ascii.eqb c d then 0
      else let i := IndexByte s' c in if i <? 0 then -1 else i + 1
  end.

(** [strings.Split(s, sep)] for a one-byte separator: always at least one
    piece, empty pieces kept. *)
Fixpoint splitByte (sep : ascii) (s : string) (cur : string) : list string :=
  match s with
  | EmptyString => [cur]
  | String c s' =>
      if Ascii.eqb c sep then cur :: splitByte sep s' EmptyString
      else splitByte sep s' (cur +:+ String c EmptyString)
  end.

Definition Split (s : string) (sep : ascii) : list string := splitByte sep s EmptyString.

(** [strings.FieldsFunc(s, func(r) bool { return r == sep })]: maximal runs
    of non-separator bytes, empty pieces dropped. *)
Definition FieldsByte (s : string) (sep : ascii) : list string :=
  List.filter (fun p => negb (String.eqb p EmptyString)) (Split s sep).

(** The width in bytes of the white-space rune that starts [s], or 0 when
    [s] does not start with one. [unicode.IsSpace]: the ASCII ones are
    tab, LF, VT, FF, CR and space; the others are U+0085, U+00A0, U+1680,
    U+2000..U+200A, U+2028, U+2029, U+202F, U+205F and U+3000, matched
    here by their UTF-8 encodings. *)
Definition spaceWidth (s : string) : nat :=
  match s with
  | EmptyString => 0%nat
  | String c0 r0 =>
      let b0 := code c0 in
      if (b0 =? 32) || ((9 <=? b0) && (b0 <=? 13)) then 1%nat
      else match r0 with
      | EmptyString => 0%nat
      | String c1 r1 =>
          let b1 := code c1 in
          if (b0 =? 194) && ((b1 =? 133) || (b1 =? 160)) then 2%nat
          else match r1 with
          | EmptyString => 0%nat
          | String c2 _ =>
              let b2 := code c2 in
              if (b0 =? 225) && (b1 =? 154) && (b2 =? 128) then 3%nat
              else if (b0 =? 226) && (b1 =? 128)
                      && (((128 <=? b2) && (b2 <=? 138)) || (b2 =? 168) || (b2 =? 169) || (b2 =? 175))
              then 3%nat
              else if (b0 =? 226) && (b1 =? 129) && (b2 =? 159) then 3%nat
              else if (b0 =? 227) && (b1 =? 128) && (b2 =? 128) then 3%nat
              else 0%nat
          end
      end
  end.

(** [strings.Fields]: split around runs of white space. [skip] counts the
    bytes of a multi-byte space still to be dropped. *)
Fixpoint fieldsFrom (s : string) (skip : nat) (cur : string) : list string :=
  match s with
  | EmptyString => if String.eqb cur EmptyString then [] else [cur]
  | String c s' =>
      match skip with
      | S k => fieldsFrom s' k cur
      | O =>
          match spaceWidth s with
          | O => fieldsFrom s' 0 (cur +:+ String c EmptyString)
          | S k =>
              if String.eqb cur EmptyString then fieldsFrom s' k EmptyString
              else cur :: fieldsFrom s' k EmptyString
          end
      end
  end.

Definition Fields (s : string) : list string := fieldsFrom s 0 EmptyString.

(** [strings.TrimSpace], leading side. *)
Fixpoint trimLeft (fuel : nat) (s : string) : string :=
  match fuel with
  | O => s
  | S fuel' =>
      match spaceWidth s with
      | O => s
      | S k => trimLeft fuel' (drop (S k) s)
      end
  end.

Definition rev (s : string) : string :=
  string_of_list_ascii (List.rev (list_ascii_of_string s)).

(** The width of the white-space rune that ends the byte sequence whose
    reverse is [r]. *)
Definition spaceWidthEnd (r : string) : nat :=
  if (0 <? Z.of_nat (spaceWidth (rev (take 1 r)))) then 1%nat
  else if Nat.eqb (spaceWidth (rev (take 2 r))) 2 then 2%nat
  else if Nat.eqb (spaceWidth (rev (take 3 r))) 3 then 3%nat
  else 0%nat.

Fixpoint trimRightRev (fuel : nat) (r : string) : string :=
  match fuel with
  | O => r
  | S fuel' =>
      match spaceWidthEnd r with
      | O => r
      | S k => trimRightRev fuel' (drop (S k) r)
      end
  end.

Definition TrimSpace (s : string) : string :=
  let l := trimLeft (String.length s) s in
  rev (trimRightRev (String.length l) (rev l)).

(** [strings.ToLower], as far as a comparison of the result with an ASCII
    word can tell: ASCII capitals, and the two runes outside ASCII whose
    lower case is an ASCII letter (U+0130 to [i], U+212A to [k]). Any other
    rune outside ASCII lowers to a rune outside ASCII and is left as is. *)
Fixpoint ToLower (s : string) : string :=
  match s with
  | EmptyString => EmptyString
  | String c0 r0 =>
      let b0 := code c0 in
      if (65 <=? b0) && (b0 <=? 90) then String (byte (Z.to_nat (b0 + 32))) (ToLower r0)
      else match r0 with
      | String c1 r1 =>
          if (b0 =? 196) && (code c1 =? 176) then String "i" (ToLower r1)
          else match r1 with
          | String c2 r2 =>
              if (b0 =? 226) && (code c1 =? 132) && (code c2 =? 170)
              then String "k" (ToLower r2)
              else String c0 (ToLower r0)
          | EmptyString => String c0 (ToLower r0)
          end
      | EmptyString => String c0 EmptyString
      end
  end.

End gostrings.

(** ** Go's [time] package: durations and instants *)

Module gotime.
Import gostrings.

(** [time.Duration] is an [int64] count of nanoseconds. *)
Definition Duration := Z.

Definition Nanosecond : Duration := 1.
Definition Microsecond : Duration := 1000.
Definition Millisecond : Duration := 1000000.
Definition Second : Duration := 1000000000.
Definition Minute : Duration := 60 * Second.
Definition Hour : Duration := 60 * Minute.

Definition two63 : Z := 2 ^ 63.
Definition two64 : Z := 2 ^ 64.
Definition uint64 (z : Z) : Z := z mod two64.
Definition int64 (z : Z) : Z := (z + two63) mod two64 - two63.
Definition isInt64 (z : Z) : Prop := - two63 <= z < two63.

(** An instant, in nanoseconds since the zero [time.Time] (January 1 of
    year 1, 00:00 UTC). The location attached to a Go [Time] does not
    change the instant and is not kept. *)
Definition Time := Z.
Definition IsZero (t : Time) : bool := t =? 0.
Definition After (t u : Time) : bool := u <? t.
Definition Before (t u : Time) : bool := t <? u.
(** [t.Nanosecond()]: the offset within the second. *)
Definition NanosecondOf (t : Time) : Z := t mod Second.

Definition digit (v : Z) : ascii := byte (Z.to_nat (v mod 10 + 48)).

(** [fmtInt]: the decimal digits of [v] written in front of [buf]. *)
Fixpoint fmtIntLoop (fuel : nat) (v : Z) (buf : string) : string :=
  match fuel with
  | O => buf
  | S fuel' => if 0 <? v then fmtIntLoop fuel' (v / 10) (String (digit v) buf) else buf
  end.

Definition fmtInt (buf : string) (v : Z) : string :=
  if v =? 0 then String "0" buf else fmtIntLoop 20 v buf.

(** [fmtFrac]: the fraction of [v / 10^prec] written in front of [buf]
    without trailing zeros (and without the point when it is zero);
    returns the new buffer and [v / 10^prec]. *)
Fixpoint fmtFracLoop (prec : nat) (v : Z) (print : bool) (buf : string) : string * Z * bool :=
  match prec with
  | O => (buf, v, print)
  | S prec' =>
      let d := v mod 10 in
      let print' := print || negb (d =? 0) in
      fmtFracLoop prec' (v / 10) print' (if print' then String (digit v) buf else buf)
  end.

Definition fmtFrac (buf : string) (v : Z) (prec : nat) : string * Z :=
  let '(buf', v', print) := fmtFracLoop prec v false buf in
  (if print then String "." buf' else buf', v').

(** The two bytes of the micro sign U+00B5. *)
Definition micro : string := String (byte 194) (String (byte 181) EmptyString).
(** The two bytes of the Greek letter mu U+03BC. *)
Definition mu : string := String (byte 206) (String (byte 188) EmptyString).

(** [Duration.String] (through [Duration.format]), for an [int64] [d]. *)
Definition Duration_String (d : Duration) : string :=
  let neg := d <? 0 in
  let u := if neg then uint64 (- uint64 d) else uint64 d in
  let body :=
    if u <? Second then
      if u =? 0 then "0s"%string
      else if u <? Microsecond then
        let '(b, u') := fmtFrac "ns" u 0 in fmtInt b u'
      else if u <? Millisecond then
        let '(b, u') := fmtFrac (micro +:+ "s") u 3 in fmtInt b u'
      else
        let '(b, u') := fmtFrac "ms" u 6 in fmtInt b u'
    else
      let '(b, u1) := fmtFrac "s" u 9 in
      let b1 := fmtInt b (u1 mod 60) in
      let u2 := u1 / 60 in
      if 0 <? u2 then
        let b2 := fmtInt (String "m" b1) (u2 mod 60) in
        let u3 := u2 / 60 in
        if 0 <? u3 then fmtInt (String "h" b2) u3 else b2
      else b1
  in
  if neg then String "-" body else body.

(** [leadingInt]: the leading run of digits as a [uint64]; [None] on
    overflow past [1<<63]. *)
Fixpoint leadingInt (s : string) (x : Z) : option (Z * string) :=
  match s with
  | String c s' =>
      if isDigit c then
        if two63 / 10 <? x then None
        else
          let x' := uint64 (x * 10 + code c - 48) in
          if two63 <? x' then None else leadingInt s' x'
      else Some (x, s)
  | EmptyString => Some (x, s)
  end.

Definition F64 := spec_float.
Definition f64 (z : Z) : F64 := binary_normalize 53 1024 z 0 false.
Definition f64mul : F64 -> F64 -> F64 := SFmul 53 1024.
Definition f64div : F64 -> F64 -> F64 := SFdiv 53 1024.
(** Conversion of a non-negative finite [float64] to an integer, towards
    zero. *)
Definition f64trunc (x : F64) : Z :=
  match x with
  | S754_finite false m e =>
      if 0 <=? e then Z.pos m * 2 ^ e else Z.pos m / 2 ^ (- e)
  | _ => 0
  end.

(** [leadingFraction]: the digits after the point as an integer [x] and
    the power of ten [scale] they are to be divided by; digits past the
    capacity of [x] are read and dropped. *)
Fixpoint leadingFraction (s : string) (x : Z) (scale : F64) (overflow : bool)
  : Z * F64 * string :=
  match s with
  | String c s' =>
      if isDigit c then
        if overflow then leadingFraction s' x scale true
        else if (two63 - 1) / 10 <? x then leadingFraction s' x scale true
        else
          let y := uint64 (x * 10 + code c - 48) in
          if two63 <? y then leadingFraction s' x scale true
          else leadingFraction s' y (f64mul scale (f64 10)) false
      else (x, scale, s)
  | EmptyString => (x, scale, s)
  end.

(** The unit of a duration: everything up to the next digit or point. *)
Fixpoint unitLen (s : string) : nat :=
  match s with
  | String c s' => if Ascii.eqb c "." || isDigit c then 0%nat else S (unitLen s')
  | EmptyString => 0%nat
  end.

Definition unitMap (u : string) : option Z :=
  if String.eqb u "ns" then Some Nanosecond
  else if String.eqb u "us" then Some Microsecond
  else if String.eqb u (micro +:+ "s") then Some Microsecond
  else if String.eqb u (mu +:+ "s") then Some Microsecond
  else if String.eqb u "ms" then Some Millisecond
  else if String.eqb u "s" then Some Second
  else if String.eqb u "m" then Some Minute
  else if String.eqb u "h" then Some Hour
  else None.

Variant durationError := InvalidDuration | MissingUnit | UnknownUnit (u : string).

(** One [number unit] group of [ParseDuration]'s loop: the rest of the
    input and the nanoseconds to add. *)
Definition parseGroup (s : string) : durationError + (Z * string) :=
  match s with
  | EmptyString => inl InvalidDuration
  | String c0 _ =>
      if negb (Ascii.eqb c0 "." || isDigit c0) then inl InvalidDuration
      else
        match leadingInt s 0 with
        | None => inl InvalidDuration
        | Some (v, s1) =>
            let pre := negb (Nat.eqb (String.length s) (String.length s1)) in
            let '(f, scale, s2, post) :=
              match s1 with
              | String "." s1' =>
                  let '(f, scale, s2) := leadingFraction s1' 0 (f64 1) false in
                  (f, scale, s2, negb (Nat.eqb (String.length s1') (String.length s2)))
              | _ => (0, f64 1, s1, false)
              end in
            if negb pre && negb post then inl InvalidDuration
            else
              let i := unitLen s2 in
              if Nat.eqb i 0 then inl MissingUnit
              else
                let u := take i s2 in
                match unitMap u with
                | None => inl (UnknownUnit u)
                | Some unit =>
                    if two63 / unit <? v then inl InvalidDuration
                    else
                      let v1 := v * unit in
                      let v2 :=
                        if 0 <? f
                        then uint64 (v1 + f64trunc (f64mul (f64 f) (f64div (f64 unit) scale)))
                        else v1 in
                      if two63 <? v2 then inl InvalidDuration
                      else inr (v2, drop i s2)
                end
        end
  end.

Fixpoint parseGroups (fuel : nat) (s : string) (d : Z) : durationError + Z :=
  match fuel with
  | O => inl InvalidDuration
  | S fuel' =>
      match s with
      | EmptyString => inr d
      | _ =>
          match parseGroup s with
          | inl e => inl e
          | inr (v, s') =>
              let d' := uint64 (d + v) in
              if two63 <? d' then inl InvalidDuration else parseGroups fuel' s' d'
          end
      end
  end.

(** [time.ParseDuration]. Every group consumes at least one byte, so the
    length of the input bounds the number of groups. *)
Definition ParseDuration (s : string) : durationError + Duration :=
  let neg := HasPrefix s "-" in
  let s1 := if HasPrefix s "-" || HasPrefix s "+" then drop 1 s else s in
  if String.eqb s1 "0" then inr 0
  else if String.eqb s1 "" then inl InvalidDuration
  else
    match parseGroups (S (String.length s1)) s1 0 with
    | inl e => inl e
    | inr d =>
        if neg then inr (int64 (- int64 d))
        else if two63 - 1 <? d then inl InvalidDuration
        else inr d
    end.

End gotime.

(** ** The host: what the code reads from its environment *)

(** [time.Location]: UTC, the process's local zone, or a zone loaded by
    name from the host's time-zone database. *)
Variant Location := UTC | Local | Zone (name : string).

(** Two things the cron library takes from the host rather than from its
    arguments: which zone names the time-zone database knows, and the
    calendar (the civil date of an instant in a zone), through which a
    five-field schedule finds its next activation. Everything below holds
    for every host. *)
Class Host := {
  zoneinfo : string -> bool;
  calendarNext : Z * Z * Z * Z * Z * Z -> Location -> gotime.Time -> gotime.Time
}.

(** A host without a time-zone database, on which no five-field schedule
    ever matches (the library then answers the zero time). *)
#[global] Instance bareHost : Host :=
  {| zoneinfo := fun _ => false; calendarNext := fun _ _ _ => 0 |}.

Fixpoint containsDotDot (s : string) : bool :=
  match s with
  | String "." (String "." _) => true
  | String _ s' => containsDotDot s'
  | EmptyString => false
  end.

(** [time.LoadLocation]: the three built-in names, then the database.
    Names with [..] or a leading slash or backslash are refused unread. *)
Definition LoadLocation `{Host} (name : string) : option Location :=
  if String.eqb name "" || String.eqb name "UTC" then Some UTC
  else if String.eqb name "Local" then Some Local
  else if containsDotDot name || gostrings.HasPrefix name "/"
          || gostrings.HasPrefix name (String (gostrings.byte 92) EmptyString)
  then None
  else if zoneinfo name then Some (Zone name) else None.

(** ** The Go run time: contexts, loggers, channels *)

Module runtime.
Import gotime.

(** [context.Context] values: the background context, a context made by
    the caller of the scheduler, and the child that [context.WithCancel]
    makes of a parent. *)
Inductive Context :=
| Background
| External (id : nat)
| cancelCtx (id : nat) (parent : Context).

(** A [context.CancelFunc] is the one of the [cancelCtx] with that id. *)
Definition CancelFunc := nat.

(** [*slog.Logger]: the process default or one made by the caller. *)
Variant SlogLogger := slogDefault | slogCustom (id : nat).

Variant Level := LevelDebug | LevelInfo | LevelError.

(** An argument of a logging call. [VError v] is the [error] made from a
    recovered panic value; [VStack] stands for a stack dump. *)
Variant Value :=
| VString (s : string)
| VInt (z : Z)
| VTime (t : Time)
| VError (v : string)
| VStack.

Record LogCall := {
  via : SlogLogger; level : Level; msg : string; args : list (string * Value)
}.

(** How a function call ends. *)
Variant Outcome := Returns | Panics (v : string).

(** A function value handed in by the caller of the scheduler. The model
    knows it by name only; what it does shows in how its calls end. *)
Definition UserFunc := nat.

Record Runtime := {
  clock : Time;                 (* what [time.Now] answers *)
  output : list LogCall;        (* the calls loggers have received, oldest first *)
  nextCtx : nat;                (* the id of the next [cancelCtx] *)
  cancelled : gset nat;         (* the [cancelCtx]s whose cancel function was called *)
  expired : gset nat;           (* the caller's contexts that are done *)
  chans : gmap nat bool;        (* one-slot channels: whether the slot is full *)
  nextChan : nat;
  crashed : bool                (* a goroutine ended in a panic nobody recovered *)
}.

Definition boot (now : Time) : Runtime :=
  {| clock := now; output := []; nextCtx := 0; cancelled := ∅; expired := ∅;
     chans := ∅; nextChan := 0; crashed := false |}.

Definition emit (r : LogCall) (rt : Runtime) : Runtime :=
  {| clock := clock rt; output := output rt ++ [r]; nextCtx := nextCtx rt;
     cancelled := cancelled rt; expired := expired rt; chans := chans rt;
     nextChan := nextChan rt; crashed := crashed rt |}.

(** The three [slog.Logger] methods the code calls. *)
Definition Debug (l : SlogLogger) (msg : string) (args : list (string * Value)) : Runtime -> Runtime :=
  emit {| via := l; level := LevelDebug; msg := msg; args := args |}.
Definition Info (l : SlogLogger) (msg : string) (args : list (string * Value)) : Runtime -> Runtime :=
  emit {| via := l; level := LevelInfo; msg := msg; args := args |}.
Definition Error (l : SlogLogger) (msg : string) (args : list (string * Value)) : Runtime -> Runtime :=
  emit {| via := l; level := LevelError; msg := msg; args := args |}.

(** [context.WithCancel(parent)]: a fresh child and its cancel function. *)
Definition WithCancel (parent : Context) (rt : Runtime) : Context * CancelFunc * Runtime :=
  (cancelCtx (nextCtx rt) parent, nextCtx rt,
   {| clock := clock rt; output := output rt; nextCtx := S (nextCtx rt);
      cancelled := cancelled rt; expired := expired rt; chans := chans rt;
      nextChan := nextChan rt; crashed := crashed rt |}).

(** Calling a cancel function. *)
Definition cancel (c : CancelFunc) (rt : Runtime) : Runtime :=
  {| clock := clock rt; output := output rt; nextCtx := nextCtx rt;
     cancelled := {[ c ]} ∪ cancelled rt; expired := expired rt; chans := chans rt;
     nextChan := nextChan rt; crashed := crashed rt |}.

(** [ctx.Done()] is closed: the context, or one it descends from, has been
    cancelled. *)
Fixpoint Done (rt : Runtime) (ctx : Context) : bool :=
  match ctx with
  | Background => false
  | External id => bool_decide (id ∈ expired rt)
  | cancelCtx id parent => bool_decide (id ∈ cancelled rt) || Done rt parent
  end.

(** [make(chan struct{}, 1)] followed by a send: a full one-slot channel. *)
Definition makeFull (rt : Runtime) : nat * Runtime :=
  (nextChan rt,
   {| clock := clock rt; output := output rt; nextCtx := nextCtx rt;
      cancelled := cancelled rt; expired := expired rt;
      chans := <[nextChan rt := true]> (chans rt);
      nextChan := S (nextChan rt); crashed := crashed rt |}).

Definition setChan (ch : nat) (full : bool) (rt : Runtime) : Runtime :=
  {| clock := clock rt; output := output rt; nextCtx := nextCtx rt;
     cancelled := cancelled rt; expired := expired rt;
     chans := <[ch := full]> (chans rt);
     nextChan := nextChan rt; crashed := crashed rt |}.

Definition isFull (ch : nat) (rt : Runtime) : bool :=
  match chans rt !! ch with Some b => b | None => false end.

(** The process dies of a panic that reached the top of a goroutine. *)
Definition crash (rt : Runtime) : Runtime :=
  {| clock := clock rt; output := output rt; nextCtx := nextCtx rt;
     cancelled := cancelled rt; expired := expired rt; chans := chans rt;
     nextChan := nextChan rt; crashed := true |}.

(** Time passes. *)
Definition advance (d : Duration) (rt : Runtime) : Runtime :=
  {| clock := clock rt + Z.max 0 d; output := output rt; nextCtx := nextCtx rt;
     cancelled := cancelled rt; expired := expired rt; chans := chans rt;
     nextChan := nextChan rt; crashed := crashed rt |}.

(** The caller's context [id] is done (cancelled or past its deadline). *)
Definition expire (id : nat) (rt : Runtime) : Runtime :=
  {| clock := clock rt; output := output rt; nextCtx := nextCtx rt;
     cancelled := cancelled rt; expired := {[ id ]} ∪ expired rt; chans := chans rt;
     nextChan := nextChan rt; crashed := crashed rt |}.

End runtime.

(** ** The cron library, [github.com/robfig/cron/v3] *)

Module cron.
Import gostrings gotime runtime.

(** *** Schedules ([spec.go], [constantdelay.go]) *)

Record SpecSchedule := {
  Second : Z; Minute : Z; Hour : Z; Dom : Z; Month : Z; Dow : Z;
  Loc : Location
}.

(** The two implementations of the [Schedule] interface. *)
Variant Schedule :=
| ConstantDelaySchedule (Delay : Duration)
| Spec (s : SpecSchedule).

(** [cron.Every]: delays under a second are rounded up to a second, and
    fractions of a second are dropped. *)
Definition Every (duration : Duration) : Schedule :=
  let duration := if duration <? gotime.Second then gotime.Second else duration in
  ConstantDelaySchedule (duration - Z.rem duration gotime.Second).

(** [Schedule.Next]. For a constant delay the next activation falls on a
    whole second. *)
Definition Schedule_Next `{Host} (s : Schedule) (t : Time) : Time :=
  match s with
  | ConstantDelaySchedule Delay => t + (Delay - NanosecondOf t)
  | Spec s => calendarNext (Second s, Minute s, Hour s, Dom s, Month s, Dow s) (Loc s) t
  end.

(** *** The parser ([parser.go]) *)

Variant error :=
| EmptySpec
| BadLocation (name : string)
| NoDescriptors (spec : string)
| UnrecognizedDescriptor (descriptor : string)
| BadDuration (descriptor : string) (e : durationError)
| MultipleOptionals
| FieldCount (min max count : Z)
| UnknownOptional
| TooManyHyphens (expr : string)
| TooManySlashes (expr : string)
| BadInt (expr : string)
| NegativeNumber (expr : string)
| BelowMinimum (expr : string)
| AboveMaximum (expr : string)
| BeyondEnd (expr : string)
| ZeroStep (expr : string).

(** What a call of [Parse] comes to: a schedule, an error, or a run-time
    panic. *)
Variant parsed :=
| Parsed (s : Schedule)
| Rejected (e : error)
| ParsePanic (v : string).

(** [ParseOption] bits. *)
Definition optSecond : Z := 1.
Definition optSecondOptional : Z := 2.
Definition optMinute : Z := 4.
Definition optHour : Z := 8.
Definition optDom : Z := 16.
Definition optMonth : Z := 32.
Definition optDow : Z := 64.
Definition optDowOptional : Z := 128.
Definition optDescriptor : Z := 256.

Definition has (options bit : Z) : bool := 0 <? Z.land options bit.

Definition places : list Z := [optSecond; optMinute; optHour; optDom; optMonth; optDow].
Definition defaults : list string := ["0"; "0"; "0"; "*"; "*"; "*"]%string.

Record bounds := { min : Z; max : Z; names : option (list (string * Z)) }.

Definition seconds : bounds := {| min := 0; max := 59; names := None |}.
Definition minutes : bounds := {| min := 0; max := 59; names := None |}.
Definition hours : bounds := {| min := 0; max := 23; names := None |}.
Definition dom : bounds := {| min := 1; max := 31; names := None |}.
Definition months : bounds :=
  {| min := 1; max := 12;
     names := Some [("jan", 1); ("feb", 2); ("mar", 3); ("apr", 4); ("may", 5); ("jun", 6);
                    ("jul", 7); ("aug", 8); ("sep", 9); ("oct", 10); ("nov", 11); ("dec", 12)]%string |}.
Definition dow : bounds :=
  {| min := 0; max := 6;
     names := Some [("sun", 0); ("mon", 1); ("tue", 2); ("wed", 3); ("thu", 4); ("fri", 5);
                    ("sat", 6)]%string |}.

Definition starBit : Z := 2 ^ 63.
Definition MaxUint64 : Z := two64 - 1.

(** [getBits]: the bits [min], [min+step], ... up to [max]. *)
Fixpoint getBitsLoop (fuel : nat) (i max step bits : Z) : Z :=
  match fuel with
  | O => bits
  | S fuel' =>
      if i <=? max then getBitsLoop fuel' (uint64 (i + step)) max step (Z.lor bits (uint64 (Z.shiftl 1 i)))
      else bits
  end.

Definition getBits (min max step : Z) : Z :=
  if step =? 1 then
    Z.land (Z.lxor MaxUint64 (uint64 (Z.shiftl MaxUint64 (max + 1)))) (uint64 (Z.shiftl MaxUint64 min))
  else getBitsLoop 64 min max step 0.

Definition all (r : bounds) : Z := Z.lor (getBits (min r) (max r) 1) starBit.

Fixpoint digits (s : string) (n : Z) : option Z :=
  match s with
  | EmptyString => Some n
  | String c s' => if isDigit c then digits s' (n * 10 + code c - 48) else None
  end.

(** [strconv.Atoi] on a 64-bit platform: an optional sign and at least one
    decimal digit, the value within [int64]. *)
Definition Atoi (s : string) : option Z :=
  let neg := HasPrefix s "-" in
  let body := if HasPrefix s "-" || HasPrefix s "+" then drop 1 s else s in
  if String.eqb body "" then None
  else
    match digits body 0 with
    | None => None
    | Some n =>
        let v := if neg then - n else n in
        if (- two63 <=? v) && (v <? two63) then Some v else None
    end.

Definition mustParseInt (expr : string) : error + Z :=
  match Atoi expr with
  | None => inl (BadInt expr)
  | Some num => if num <? 0 then inl (NegativeNumber expr) else inr num
  end.

Fixpoint lookupName (key : string) (m : list (string * Z)) : option Z :=
  match m with
  | [] => None
  | (k, v) :: m' => if String.eqb k key then Some v else lookupName key m'
  end.

Definition parseIntOrName (expr : string) (names : option (list (string * Z))) : error + Z :=
  match names with
  | Some m =>
      match lookupName (ToLower expr) m with
      | Some namedInt => inr namedInt
      | None => mustParseInt expr
      end
  | None => mustParseInt expr
  end.

(** [getRange]: the bits of [number], [low-high], [*] or [?], each with an
    optional [/step]. *)
Definition getRange (expr : string) (r : bounds) : error + Z :=
  let rangeAndStep := Split expr "/" in
  let lowAndHigh := Split (List.hd ""%string rangeAndStep) "-" in
  let singleDigit := Nat.eqb (List.length lowAndHigh) 1 in
  let low := List.hd ""%string lowAndHigh in
  let bound :=
    if String.eqb low "*" || String.eqb low "?" then inr (min r, max r, starBit)
    else
      match parseIntOrName low (names r) with
      | inl e => inl e
      | inr start =>
          match lowAndHigh with
          | [_] => inr (start, start, 0)
          | [_; high] =>
              match parseIntOrName high (names r) with
              | inl e => inl e
              | inr end_ => inr (start, end_, 0)
              end
          | _ => inl (TooManyHyphens expr)
          end
      end in
  match bound with
  | inl e => inl e
  | inr (start, end_, extra) =>
      let stepped :=
        match rangeAndStep with
        | [_] => inr (1, end_, extra)
        | [_; st] =>
            match mustParseInt st with
            | inl e => inl e
            | inr step =>
                inr (step, if singleDigit then max r else end_, if 1 <? step then 0 else extra)
            end
        | _ => inl (TooManySlashes expr)
        end in
      match stepped with
      | inl e => inl e
      | inr (step, end_, extra) =>
          if start <? min r then inl (BelowMinimum expr)
          else if max r <? end_ then inl (AboveMaximum expr)
          else if end_ <? start then inl (BeyondEnd expr)
          else if step =? 0 then inl (ZeroStep expr)
          else inr (Z.lor (getBits start end_ step) extra)
      end
  end.

Fixpoint getRanges (ranges : list string) (r : bounds) (bits : Z) : error + Z :=
  match ranges with
  | [] => inr bits
  | expr :: ranges' =>
      match getRange expr r with
      | inl e => inl e
      | inr bit => getRanges ranges' r (Z.lor bits bit)
      end
  end.

(** [getField]: a comma-separated list of ranges. *)
Definition getField (field : string) (r : bounds) : error + Z :=
  getRanges (FieldsByte field ",") r 0.

(** [normalizeFields]: checks the number of fields against the parser's
    options and fills the places the options leave out with defaults. *)
Fixpoint expandFields (places : list Z) (defaults fields : list string) (options : Z)
  : list string :=
  match places, defaults with
  | place :: places', d :: defaults' =>
      if has options place then
        match fields with
        | f :: fields' => f :: expandFields places' defaults' fields' options
        | [] => d :: expandFields places' defaults' [] options
        end
      else d :: expandFields places' defaults' fields options
  | _, _ => []
  end.

Definition normalizeFields (fields : list string) (options : Z) : error + list string :=
  let secOpt := has options optSecondOptional in
  let options1 := if secOpt then Z.lor options optSecond else options in
  let dowOpt := has options1 optDowOptional in
  let options2 := if dowOpt then Z.lor options1 optDow else options1 in
  let optionals := (if secOpt then 1 else 0) + (if dowOpt then 1 else 0) in
  if 1 <? optionals then inl MultipleOptionals
  else
    let max := Z.of_nat (List.length (List.filter (has options2) places)) in
    let min := max - optionals in
    let count := Z.of_nat (List.length fields) in
    if (count <? min) || (max <? count) then inl (FieldCount min max count)
    else
      let filled :=
        if (min <? max) && (count =? min) then
          if has options2 optDowOptional then inr (fields ++ ["*"%string])
          else if has options2 optSecondOptional then inr ("0"%string :: fields)
          else inl UnknownOptional
        else inr fields in
      match filled with
      | inl e => inl e
      | inr fields' => inr (expandFields places defaults fields' options2)
      end.

(** [parseDescriptor]: the named schedules and [@every <duration>]. *)
Definition parseDescriptor (descriptor : string) (loc : Location) : parsed :=
  let spec sec mi ho dm mo dw :=
    Parsed (Spec {| Second := sec; Minute := mi; Hour := ho; Dom := dm; Month := mo;
                    Dow := dw; Loc := loc |}) in
  let first (r : bounds) := Z.shiftl 1 (min r) in
  if String.eqb descriptor "@yearly" || String.eqb descriptor "@annually" then
    spec (first seconds) (first minutes) (first hours) (first dom) (first months) (all dow)
  else if String.eqb descriptor "@monthly" then
    spec (first seconds) (first minutes) (first hours) (first dom) (all months) (all dow)
  else if String.eqb descriptor "@weekly" then
    spec (first seconds) (first minutes) (first hours) (all dom) (all months) (first dow)
  else if String.eqb descriptor "@daily" || String.eqb descriptor "@midnight" then
    spec (first seconds) (first minutes) (first hours) (all dom) (all months) (all dow)
  else if String.eqb descriptor "@hourly" then
    spec (first seconds) (first minutes) (all hours) (all dom) (all months) (all dow)
  else if HasPrefix descriptor "@every " then
    match ParseDuration (drop 7 descriptor) with
    | inl e => Rejected (BadDuration descriptor e)
    | inr duration => Parsed (Every duration)
    end
  else Rejected (UnrecognizedDescriptor descriptor).

(** The six fields in order; the first error wins. *)
Definition parseFields (fields : list string) (loc : Location) : parsed :=
  match fields with
  | [f0; f1; f2; f3; f4; f5] =>
      match getField f0 seconds with inl e => Rejected e | inr second =>
      match getField f1 minutes with inl e => Rejected e | inr minute =>
      match getField f2 hours with inl e => Rejected e | inr hour =>
      match getField f3 dom with inl e => Rejected e | inr dayofmonth =>
      match getField f4 months with inl e => Rejected e | inr month =>
      match getField f5 dow with inl e => Rejected e | inr dayofweek =>
        Parsed (Spec {| Second := second; Minute := minute; Hour := hour;
                        Dom := dayofmonth; Month := month; Dow := dayofweek; Loc := loc |})
      end end end end end end
  | _ => ParsePanic "index out of range"
  end.

(** [Parser.Parse]. The zone prefix is cut at the first space: without
    one, [strings.Index] answers -1 and the slice expression panics. *)
Definition Parse `{Host} (options : Z) (spec : string) : parsed :=
  if String.eqb spec "" then Rejected EmptySpec
  else
    let zoned :=
      if HasPrefix spec "TZ=" || HasPrefix spec "CRON_TZ=" then
        let i := IndexByte spec " " in
        let eq := IndexByte spec "=" in
        if i <? eq + 1 then inl (ParsePanic "slice bounds out of range")
        else
          let name := take (Z.to_nat (i - (eq + 1))) (drop (Z.to_nat (eq + 1)) spec) in
          match LoadLocation name with
          | None => inl (Rejected (BadLocation name))
          | Some loc => inr (loc, TrimSpace (drop (Z.to_nat i) spec))
          end
      else inr (Local, spec) in
    match zoned with
    | inl r => r
    | inr (loc, spec) =>
        if HasPrefix spec "@" then
          if has options optDescriptor then parseDescriptor spec loc
          else Rejected (NoDescriptors spec)
        else
          match normalizeFields (Fields spec) options with
          | inl e => Rejected e
          | inr fields => parseFields fields loc
          end
    end.

(** [standardParser]: five fields (minute to day of week) and descriptors. *)
Definition standardOptions : Z :=
  Z.lor optMinute (Z.lor optHour (Z.lor optDom (Z.lor optMonth (Z.lor optDow optDescriptor)))).

Definition standardParser `{Host} : string -> parsed := Parse standardOptions.

(** *** Loggers, jobs and wrappers ([logger.go], [chain.go]) *)

(** The [cron.Logger] interface. *)
Record Logger := {
  Info : string -> list (string * Value) -> Runtime -> Runtime;
  Error : Value -> string -> list (string * Value) -> Runtime -> Runtime
}.

(** The library's default logger drops what it is told at Info level and
    prints errors to standard output, which the model does not keep. *)
Definition DefaultLogger : Logger :=
  {| Info := fun _ _ rt => rt; Error := fun _ _ _ rt => rt |}.

(** The [cron.Job] interface, by the three kinds of value the scheduler
    makes of it: [FuncJob] of a function, and what the wrappers [Recover]
    and [SkipIfStillRunning] return for a job. [ch] is the one-slot
    channel the skipping wrapper made for this job. *)
Inductive Job :=
| FuncJob (f : UserFunc)
| recovered (logger : Logger) (j : Job)
| skipping (logger : Logger) (ch : nat) (j : Job).

Variant JobWrapper :=
| Recover (logger : Logger)
| SkipIfStillRunning (logger : Logger).

Definition wrap (w : JobWrapper) (j : Job) (rt : Runtime) : Job * Runtime :=
  match w with
  | Recover logger => (recovered logger j, rt)
  | SkipIfStillRunning logger => let '(ch, rt') := makeFull rt in (skipping logger ch j, rt')
  end.

(** [Chain.Then]: the last wrapper is applied first, so the first one of
    the chain ends up outermost. *)
Fixpoint Then (wrappers : list JobWrapper) (j : Job) (rt : Runtime) : Job * Runtime :=
  match wrappers with
  | [] => (j, rt)
  | w :: wrappers' => let '(j', rt') := Then wrappers' j rt in wrap w j' rt'
  end.

(** Running a job, first half: through the wrappers down to the call of
    the function. [Some f]: [f] is to be called now. [None]: a wrapper
    returned without calling it. The skipping wrapper takes the token of
    its channel if there is one and otherwise logs and returns. *)
Fixpoint enter (j : Job) (rt : Runtime) : option UserFunc * Runtime :=
  match j with
  | FuncJob f => (Some f, rt)
  | recovered _ j' => enter j' rt
  | skipping logger ch j' =>
      if isFull ch rt then
        match enter j' (setChan ch false rt) with
        | (None, rt') => (None, setChan ch true rt')
        | r => r
        end
      else (None, Info logger "skip" [] rt)
  end.

(** Running a job, second half: the function has ended with [o] and the
    wrappers go on, innermost first. The skipping wrapper puts the token
    back after the call of the job ([j.Run(); ch <- v], without a defer):
    when the job panics the send is not reached and the channel stays
    empty. The recovering wrapper turns a panic into an error logged with
    its stack, in a deferred call, and returns normally. *)
Fixpoint leave (j : Job) (o : Outcome) (rt : Runtime) : Outcome * Runtime :=
  match j with
  | FuncJob _ => (o, rt)
  | recovered logger j' =>
      match leave j' o rt with
      | (Panics v, rt') => (Returns, Error logger (VError v) "panic" [("stack"%string, VStack)] rt')
      | (Returns, rt') => (Returns, rt')
      end
  | skipping _ ch j' =>
      match leave j' o rt with
      | (Returns, rt') => (Returns, setChan ch true rt')
      | (Panics v, rt') => (Panics v, rt')
      end
  end.

(** *** The scheduler of the library ([cron.go]) *)

Definition EntryID := Z.

Record Entry := {
  ID : EntryID;
  EntrySchedule : Schedule;     (* the field [Schedule] *)
  Next : Time;
  Prev : Time;
  WrappedJob : Job;
  EntryJob : Job                (* the field [Job] *)
}.

(** A goroutine made by [startJob]: not yet in its job, or in the function
    of its job, which was handed [ctx]. *)
Variant Phase := Spawned | InBody (f : UserFunc) (ctx : option Context).

Record JobRun := { run : nat; job : Job; phase : Phase }.

(** A goroutine made by [Stop]: blocked in [jobWaiter.Wait()], or past it
    and about to call its cancel function. *)
Record StopWait := { token : CancelFunc; released : bool }.

(** The [Cron] struct. Its four channels carry requests to the goroutine
    of [run], which exists while [running] holds; a request is modelled by
    what that goroutine does on receiving it. [jobWaiter] is held as the
    goroutines it counts, [waiters] are the goroutines blocked on it, and
    [nextRun] names the goroutines. [nextID] is an [int] that 2^63
    registrations would wrap: the model lets it grow. *)
Record Cron := {
  entries : list Entry;
  chain : list JobWrapper;
  running : bool;
  logger : Logger;
  location : Location;
  parser : string -> parsed;
  nextID : EntryID;
  jobWaiter : list JobRun;
  waiters : list StopWait;
  nextRun : nat
}.

Variant Option :=
| WithLocation (loc : Location)
| WithLogger (logger : Logger)
| WithChain (wrappers : list JobWrapper).

Definition applyOption (c : Cron) (opt : Option) : Cron :=
  match opt with
  | WithLocation loc =>
      {| entries := entries c; chain := chain c; running := running c; logger := logger c;
         location := loc; parser := parser c; nextID := nextID c;
         jobWaiter := jobWaiter c; waiters := waiters c; nextRun := nextRun c |}
  | WithLogger l =>
      {| entries := entries c; chain := chain c; running := running c; logger := l;
         location := location c; parser := parser c; nextID := nextID c;
         jobWaiter := jobWaiter c; waiters := waiters c; nextRun := nextRun c |}
  | WithChain wrappers =>
      {| entries := entries c; chain := wrappers; running := running c; logger := logger c;
         location := location c; parser := parser c; nextID := nextID c;
         jobWaiter := jobWaiter c; waiters := waiters c; nextRun := nextRun c |}
  end.

Definition New `{Host} (opts : list Option) : Cron :=
  List.fold_left applyOption opts
    {| entries := []; chain := []; running := false; logger := DefaultLogger;
       location := Local; parser := standardParser; nextID := 0;
       jobWaiter := []; waiters := []; nextRun := 0 |}.

Definition withEntries (es : list Entry) (c : Cron) : Cron :=
  {| entries := es; chain := chain c; running := running c; logger := logger c;
     location := location c; parser := parser c; nextID := nextID c;
     jobWaiter := jobWaiter c; waiters := waiters c; nextRun := nextRun c |}.

Definition withRunning (b : bool) (c : Cron) : Cron :=
  {| entries := entries c; chain := chain c; running := b; logger := logger c;
     location := location c; parser := parser c; nextID := nextID c;
     jobWaiter := jobWaiter c; waiters := waiters c; nextRun := nextRun c |}.

Definition withJobWaiter (runs : list JobRun) (c : Cron) : Cron :=
  {| entries := entries c; chain := chain c; running := running c; logger := logger c;
     location := location c; parser := parser c; nextID := nextID c;
     jobWaiter := runs; waiters := waiters c; nextRun := nextRun c |}.

Definition withWaiters (ws : list StopWait) (c : Cron) : Cron :=
  {| entries := entries c; chain := chain c; running := running c; logger := logger c;
     location := location c; parser := parser c; nextID := nextID c;
     jobWaiter := jobWaiter c; waiters := ws; nextRun := nextRun c |}.

Definition withSchedule (next prev : Time) (e : Entry) : Entry :=
  {| ID := ID e; EntrySchedule := EntrySchedule e; Next := next; Prev := prev;
     WrappedJob := WrappedJob e; EntryJob := EntryJob e |}.

(** [removeEntry]. *)
Definition removeEntry (id : EntryID) (c : Cron) : Cron :=
  withEntries (List.filter (fun e => negb (ID e =? id)) (entries c)) c.

(** [Schedule]: a new entry under the next id. A stopped cron appends it
    itself; a running one hands it to the goroutine of [run], which reads
    the clock, sets the entry's next activation and appends it. *)
Definition Schedule_ `{Host} (schedule : Schedule) (cmd : Job) (c : Cron) (rt : Runtime)
  : EntryID * Cron * Runtime :=
  let id := nextID c + 1 in
  let '(wrapped, rt1) := Then (chain c) cmd rt in
  let entry := {| ID := id; EntrySchedule := schedule; Next := 0; Prev := 0;
                  WrappedJob := wrapped; EntryJob := cmd |} in
  let c1 := {| entries := entries c; chain := chain c; running := running c;
               logger := logger c; location := location c; parser := parser c;
               nextID := id; jobWaiter := jobWaiter c; waiters := waiters c;
               nextRun := nextRun c |} in
  if running c then
    let now := clock rt1 in
    let next := Schedule_Next schedule now in
    (id, withEntries (entries c1 ++ [withSchedule next 0 entry]) c1,
     Info (logger c) "added" [("now"%string, VTime now); ("entry"%string, VInt id);
                              ("next"%string, VTime next)] rt1)
  else (id, withEntries (entries c1 ++ [entry]) c1, rt1).

(** What [AddJob] and [AddFunc] come to. *)
Variant added :=
| Added (id : EntryID)
| AddError (err : error)
| AddPanic (v : string).

Definition AddJob `{Host} (spec : string) (cmd : Job) (c : Cron) (rt : Runtime)
  : added * Cron * Runtime :=
  match parser c spec with
  | Rejected err => (AddError err, c, rt)
  | ParsePanic v => (AddPanic v, c, rt)
  | Parsed schedule =>
      let '(id, c', rt') := Schedule_ schedule cmd c rt in (Added id, c', rt')
  end.

Definition AddFunc `{Host} (spec : string) (cmd : UserFunc) (c : Cron) (rt : Runtime)
  : added * Cron * Runtime :=
  AddJob spec (FuncJob cmd) c rt.

(** [Remove]: directly when stopped, through the goroutine of [run] (which
    also logs it) when running. *)
Definition Remove (id : EntryID) (c : Cron) (rt : Runtime) : Cron * Runtime :=
  if running c then (removeEntry id c, Info (logger c) "removed" [("entry"%string, VInt id)] rt)
  else (removeEntry id c, rt).

(** The first lines of [run]: every entry gets its next activation. *)
Fixpoint activate `{Host} (l : Logger) (now : Time) (es : list Entry) (rt : Runtime)
  : list Entry * Runtime :=
  match es with
  | [] => ([], rt)
  | e :: es' =>
      let next := Schedule_Next (EntrySchedule e) now in
      let rt1 := Info l "schedule" [("now"%string, VTime now); ("entry"%string, VInt (ID e));
                                    ("next"%string, VTime next)] rt in
      let '(es'', rt2) := activate l now es' rt1 in
      (withSchedule next (Prev e) e :: es'', rt2)
  end.

(** [Start]: nothing when running; otherwise the goroutine of [run] is
    started. Its first lines are folded into the call: every later request
    to that goroutine waits for them. *)
Definition Start `{Host} (c : Cron) (rt : Runtime) : Cron * Runtime :=
  if running c then (c, rt)
  else
    let rt1 := Info (logger c) "start" [] rt in
    let '(es, rt2) := activate (logger c) (clock rt1) (entries c) rt1 in
    (withEntries es (withRunning true c), rt2).

(** [byTime.Less]: by next activation, the zero time last. *)
Definition less (a b : Entry) : bool :=
  if IsZero (Next a) then false
  else if IsZero (Next b) then true
  else Before (Next a) (Next b).

Fixpoint insertByTime (e : Entry) (es : list Entry) : list Entry :=
  match es with
  | [] => [e]
  | e' :: es' => if less e' e then e' :: insertByTime e es' else e :: e' :: es'
  end.

(** [sort.Sort(byTime(entries))]: one of the orders the sort may produce. *)
Definition sortByTime (es : list Entry) : list Entry :=
  List.fold_right insertByTime [] es.

(** [startJob]: the wait group counts one more and a goroutine is made. *)
Definition startJob (j : Job) (c : Cron) : Cron :=
  {| entries := entries c; chain := chain c; running := running c; logger := logger c;
     location := location c; parser := parser c; nextID := nextID c;
     jobWaiter := jobWaiter c ++ [{| run := nextRun c; job := j; phase := Spawned |}];
     waiters := waiters c; nextRun := S (nextRun c) |}.

(** The timer case of [run]: the entries, sorted, are walked up to the
    first that is not due; each due one is started and rescheduled.
    Returns the entries and the jobs to start. *)
Fixpoint runDue `{Host} (l : Logger) (now : Time) (es : list Entry) (rt : Runtime)
  : list Entry * list Job * Runtime :=
  match es with
  | [] => ([], [], rt)
  | e :: es' =>
      if After (Next e) now || IsZero (Next e) then (es, [], rt)
      else
        let next := Schedule_Next (EntrySchedule e) now in
        let rt1 := Info l "run" [("now"%string, VTime now); ("entry"%string, VInt (ID e));
                                 ("next"%string, VTime next)] rt in
        let '(es'', js, rt2) := runDue l now es' rt1 in
        (withSchedule next (Next e) e :: es'', WrappedJob e :: js, rt2)
  end.

(** The goroutine of [run] wakes on its timer. *)
Definition wake `{Host} (c : Cron) (rt : Runtime) : Cron * Runtime :=
  let now := clock rt in
  let rt1 := Info (logger c) "wake" [("now"%string, VTime now)] rt in
  let '(es, js, rt2) := runDue (logger c) now (sortByTime (entries c)) rt1 in
  (List.fold_left (fun c j => startJob j c) js (withEntries es c), rt2).

(** [Stop]: a running cron tells the goroutine of [run] to return. In
    every case a context is made that a new goroutine cancels once the
    wait group has let it through. *)
Definition Stop (c : Cron) (rt : Runtime) : Context * Cron * Runtime :=
  let '(c1, rt1) :=
    if running c then (withRunning false c, Info (logger c) "stop" [] rt) else (c, rt) in
  let '(ctx, cancel, rt2) := WithCancel Background rt1 in
  (ctx, withWaiters (waiters c1 ++ [{| token := cancel; released := false |}]) c1, rt2).

End cron.

(** ** The scheduler ([scheduler.go]) *)

Import gotime runtime.

(** [Job]: a scheduled job with its metadata. *)
Record Job := {
  Name : string;
  Schedule : string;
  EntryID : cron.EntryID
}.

(** The [Scheduler] struct. The mutex [mu] is not a field of the model:
    what a method does while it holds the lock is one step. [cronOf] is
    the field [cron]. *)
Record Scheduler := {
  cronOf : cron.Cron;
  logger : SlogLogger;
  location : Location;
  skipIfRunning : bool;
  jobs : gmap string Job;
  started : bool;
  baseCtx : option Context;
  runCtx : option Context;
  runCancel : option CancelFunc
}.

Definition withCron (c : cron.Cron) (s : Scheduler) : Scheduler :=
  {| cronOf := c; logger := logger s; location := location s;
     skipIfRunning := skipIfRunning s; jobs := jobs s; started := started s;
     baseCtx := baseCtx s; runCtx := runCtx s; runCancel := runCancel s |}.

Definition withJobs (m : gmap string Job) (s : Scheduler) : Scheduler :=
  {| cronOf := cronOf s; logger := logger s; location := location s;
     skipIfRunning := skipIfRunning s; jobs := m; started := started s;
     baseCtx := baseCtx s; runCtx := runCtx s; runCancel := runCancel s |}.

Definition withRun (b : bool) (ctx : option Context) (cancel : option CancelFunc) (s : Scheduler)
  : Scheduler :=
  {| cronOf := cronOf s; logger := logger s; location := location s;
     skipIfRunning := skipIfRunning s; jobs := jobs s; started := b;
     baseCtx := baseCtx s; runCtx := ctx; runCancel := cancel |}.

(** [Option]: the four configuration options, as what they were built
    from. [applyOption] is the call [opt(s)]. *)
Variant Option :=
| WithBaseContext (ctx : option Context)
| WithLogger (logger : SlogLogger)
| WithLocation (loc : Location)
| WithSkipIfRunning.

Definition applyOption (s : Scheduler) (opt : Option) : Scheduler :=
  match opt with
  | WithBaseContext ctx =>
      match ctx with
      | None => s
      | Some _ =>
          {| cronOf := cronOf s; logger := logger s; location := location s;
             skipIfRunning := skipIfRunning s; jobs := jobs s; started := started s;
             baseCtx := ctx; runCtx := runCtx s; runCancel := runCancel s |}
      end
  | WithLogger logger =>
      {| cronOf := cronOf s; logger := logger; location := location s;
         skipIfRunning := skipIfRunning s; jobs := jobs s; started := started s;
         baseCtx := baseCtx s; runCtx := runCtx s; runCancel := runCancel s |}
  | WithLocation loc =>
      {| cronOf := cronOf s; logger := logger s; location := loc;
         skipIfRunning := skipIfRunning s; jobs := jobs s; started := started s;
         baseCtx := baseCtx s; runCtx := runCtx s; runCancel := runCancel s |}
  | WithSkipIfRunning =>
      {| cronOf := cronOf s; logger := logger s; location := location s;
         skipIfRunning := true; jobs := jobs s; started := started s;
         baseCtx := baseCtx s; runCtx := runCtx s; runCancel := runCancel s |}
  end.

(** [cronLogAdapter]: a [cron.Logger] on top of a [slog.Logger]. *)
Definition cronLogAdapter (logger : SlogLogger) : cron.Logger :=
  {| cron.Info := fun msg keysAndValues => Info logger msg keysAndValues;
     cron.Error := fun err msg keysAndValues =>
                     Error logger msg (("err"%string, err) :: keysAndValues) |}.

(** How a method that returns an [error] ends: with nil, with an error, or
    in a panic of the library that passes through it. *)
Variant result :=
| Nil
| Err (err : cron.error)
| Panic (v : string).

Section Scheduler.
Context `{Host}.

(** [New]. The field [cron] is nil while the options run (none reads it)
    and is set last; the literal below holds an empty cron in its place. *)
Definition New (opts : list Option) : Scheduler :=
  let s := List.fold_left applyOption opts
    {| cronOf := cron.New []; logger := slogDefault; location := UTC;
       skipIfRunning := false; jobs := ∅; started := false;
       baseCtx := Some Background; runCtx := None; runCancel := None |} in
  let cronOpts := [cron.WithLocation (location s);
                   cron.WithLogger (cronLogAdapter (logger s))] in
  let chain := [cron.Recover (cronLogAdapter (logger s))] in
  let chain :=
    if skipIfRunning s
    then chain ++ [cron.SkipIfStillRunning (cronLogAdapter (logger s))]
    else chain in
  let cronOpts := cronOpts ++ [cron.WithChain chain] in
  withCron (cron.New cronOpts) s.

(** The closure [wrappedFn] of [Every] and [Cron]: it calls [jobContext]
    and then [fn] with the answer. It is known by the [fn] it closes over;
    [begin] below is its call. *)
Definition wrappedFn (fn : UserFunc) : UserFunc := fn.

(** [Every]. *)
Definition Every (name : string) (interval : Duration) (fn : UserFunc)
    (s : Scheduler) (rt : Runtime) : result * Scheduler * Runtime :=
  let spec := ("@every " +:+ Duration_String interval)%string in
  match cron.AddFunc spec (wrappedFn fn) (cronOf s) rt with
  | (cron.AddError err, c, rt1) => (Err err, withCron c s, rt1)
  | (cron.AddPanic v, c, rt1) => (Panic v, withCron c s, rt1)
  | (cron.Added entryID, c, rt1) =>
      let job := {| Name := name; Schedule := spec; EntryID := entryID |} in
      (Nil, withJobs (<[name := job]> (jobs s)) (withCron c s),
       Debug (logger s) "job scheduled"
         [("name"%string, VString name); ("schedule"%string, VString spec)] rt1)
  end.

(** [Cron]. *)
Definition Cron (name : string) (expr : string) (fn : UserFunc)
    (s : Scheduler) (rt : Runtime) : result * Scheduler * Runtime :=
  match cron.AddFunc expr (wrappedFn fn) (cronOf s) rt with
  | (cron.AddError err, c, rt1) => (Err err, withCron c s, rt1)
  | (cron.AddPanic v, c, rt1) => (Panic v, withCron c s, rt1)
  | (cron.Added entryID, c, rt1) =>
      let job := {| Name := name; Schedule := expr; EntryID := entryID |} in
      (Nil, withJobs (<[name := job]> (jobs s)) (withCron c s),
       Debug (logger s) "job scheduled"
         [("name"%string, VString name); ("schedule"%string, VString expr)] rt1)
  end.

(** [Remove]. *)
Definition Remove (name : string) (s : Scheduler) (rt : Runtime)
  : bool * Scheduler * Runtime :=
  match jobs s !! name with
  | None => (false, s, rt)
  | Some job =>
      let '(c, rt1) := cron.Remove (EntryID job) (cronOf s) rt in
      (true, withJobs (delete name (jobs s)) (withCron c s),
       Debug (logger s) "job removed" [("name"%string, VString name)] rt1)
  end.

(** [Jobs]. Go walks a map in an order of its choosing: [Jobs] is the
    listing in one order, and [listing s l] says that [l] is one of the
    slices the method may return. *)
Definition Jobs (s : Scheduler) : list Job := (map_to_list (jobs s)).*2.

Definition listing (s : Scheduler) (l : list Job) : Prop := l ≡ₚ Jobs s.

(** [baseContext]. *)
Definition baseContext (s : Scheduler) : option Context :=
  match baseCtx s with
  | Some ctx => Some ctx
  | None => Some Background
  end.

(** [jobContext]. *)
Definition jobContext (s : Scheduler) : option Context :=
  let ctx := runCtx s in
  let ctx := match ctx with None => baseCtx s | Some _ => ctx end in
  match ctx with
  | Some _ => ctx
  | None => Some Background
  end.

(** [Start]. [context.WithCancel] panics on a nil parent. *)
Definition Start (s : Scheduler) (rt : Runtime) : Outcome * Scheduler * Runtime :=
  if started s then (Returns, s, rt)
  else
    match baseContext s with
    | None => (Panics "cannot create context from nil parent", s, rt)
    | Some parent =>
        let '(ctx, cancel, rt1) := WithCancel parent rt in
        let s1 := withRun (started s) (Some ctx) (Some cancel) s in
        let '(c, rt2) := cron.Start (cronOf s1) rt1 in
        let s2 := withRun true (runCtx s1) (runCancel s1) (withCron c s1) in
        (Returns, s2,
         Info (logger s2) "scheduler started"
           [("jobs"%string, VInt (Z.of_nat (size (jobs s2))))] rt2)
    end.

(** [Stop] on a scheduler that is not started: a context cancelled on the
    spot. *)
Definition stopped (rt : Runtime) : Context * Runtime :=
  let '(ctx, cancel, rt1) := WithCancel Background rt in
  (ctx, runtime.cancel cancel rt1).

(** [Stop] on a started scheduler, under the lock: the flag and the
    cancel function are cleared, the cancel function is kept in a local. *)
Definition stopLocked (s : Scheduler) : option CancelFunc * Scheduler :=
  (runCancel s, withRun false (runCtx s) None s).

(** [Stop], after the lock is released: the run context is cancelled and
    the library is stopped; its context is the answer. *)
Definition stopUnlocked (cancel : option CancelFunc) (s : Scheduler) (rt : Runtime)
  : Context * Scheduler * Runtime :=
  let rt1 := Info (logger s) "scheduler stopping" [] rt in
  let rt2 := match cancel with Some c => runtime.cancel c rt1 | None => rt1 end in
  let '(ctx, c, rt3) := cron.Stop (cronOf s) rt2 in
  (ctx, withCron c s, rt3).

(** [Stop], run without interruption. *)
Definition Stop (s : Scheduler) (rt : Runtime) : Context * Scheduler * Runtime :=
  if negb (started s) then let '(ctx, rt1) := stopped rt in (ctx, s, rt1)
  else let '(cancel, s1) := stopLocked s in stopUnlocked cancel s1 rt.

(** [Running]. *)
Definition Running (s : Scheduler) : bool := started s.

End Scheduler.

(** ** The running system: callers, the goroutine of [run], job goroutines *)

(** The scheduler, the run time, and the callers of [Stop] that have
    released the lock and not yet gone on: each holds the cancel function
    it read in its local variable. *)
Record System := {
  sched : Scheduler;
  rt : Runtime;
  stopping : list (option CancelFunc)
}.

(** What can happen next. The first group are calls of the scheduler's
    methods ([Stop] in its two halves: [CallStopUnlocked i] is the [i]-th
    of the callers that have released the lock going on, in any order),
    the second the passing of time and the caller's own contexts, the
    third the goroutines of the library. *)
Variant Event :=
| CallEvery (name : string) (interval : Duration) (fn : UserFunc)
| CallCron (name : string) (expr : string) (fn : UserFunc)
| CallRemove (name : string)
| CallStart
| CallStopLocked
| CallStopUnlocked (i : nat)
| Advance (d : Duration)
| Expire (id : nat)
| Wake
| Begin (x : nat)
| Finish (x : nat) (o : Outcome)
| ReleaseWaiter (t : CancelFunc)
| CancelToken (t : CancelFunc).

Section System.
Context `{Host}.

Definition init (now : Time) (opts : list Option) : System :=
  {| sched := New opts; rt := boot now; stopping := [] |}.

Definition findRun (x : nat) (c : cron.Cron) : option cron.JobRun :=
  List.find (fun r => Nat.eqb (cron.run r) x) (cron.jobWaiter c).

Definition dropRun (x : nat) (c : cron.Cron) : cron.Cron :=
  cron.withJobWaiter (List.filter (fun r => negb (Nat.eqb (cron.run r) x)) (cron.jobWaiter c)) c.

Definition setPhase (x : nat) (p : cron.Phase) (c : cron.Cron) : cron.Cron :=
  cron.withJobWaiter
    (List.map (fun r => if Nat.eqb (cron.run r) x
                        then {| cron.run := x; cron.job := cron.job r; cron.phase := p |}
                        else r) (cron.jobWaiter c)) c.

(** The goroutine [x] of [startJob] runs its job up to the call of the
    function. If a wrapper returns without calling it the goroutine is
    over ([jobWaiter.Done()]). Otherwise the function is the closure
    [wrappedFn]: it asks [jobContext] and calls [fn] with the answer. *)
Definition begin (x : nat) (s : Scheduler) (rt : Runtime) : option (Scheduler * Runtime) :=
  match findRun x (cronOf s) with
  | Some r =>
      match cron.phase r with
      | cron.Spawned =>
          match cron.enter (cron.job r) rt with
          | (None, rt1) => Some (withCron (dropRun x (cronOf s)) s, rt1)
          | (Some fn, rt1) =>
              Some (withCron (setPhase x (cron.InBody fn (jobContext s)) (cronOf s)) s, rt1)
          end
      | cron.InBody _ _ => None
      end
  | None => None
  end.

(** The function called by goroutine [x] ends with [o]: the wrappers'
    deferred calls run, then [jobWaiter.Done()]. A panic that is still
    there at the top of the goroutine ends the process. *)
Definition finish (x : nat) (o : Outcome) (s : Scheduler) (rt : Runtime)
  : option (Scheduler * Runtime) :=
  match findRun x (cronOf s) with
  | Some r =>
      match cron.phase r with
      | cron.InBody _ _ =>
          match cron.leave (cron.job r) o rt with
          | (Returns, rt1) => Some (withCron (dropRun x (cronOf s)) s, rt1)
          | (Panics _, rt1) => Some (withCron (dropRun x (cronOf s)) s, crash rt1)
          end
      | cron.Spawned => None
      end
  | None => None
  end.

(** The goroutine of the library's [Stop] that holds [t] gets through
    [jobWaiter.Wait()]: the wait group counts nothing. *)
Definition release (t : CancelFunc) (c : cron.Cron) : option cron.Cron :=
  match cron.jobWaiter c with
  | [] =>
      if List.existsb (fun w => Nat.eqb (cron.token w) t && negb (cron.released w)) (cron.waiters c)
      then Some (cron.withWaiters
                   (List.map (fun w => if Nat.eqb (cron.token w) t
                                       then {| cron.token := t; cron.released := true |}
                                       else w) (cron.waiters c)) c)
      else None
  | _ :: _ => None
  end.

(** That goroutine calls its cancel function and is over. *)
Definition cancelToken (t : CancelFunc) (c : cron.Cron) (rt : Runtime)
  : option (cron.Cron * Runtime) :=
  if List.existsb (fun w => Nat.eqb (cron.token w) t && cron.released w) (cron.waiters c)
  then Some (cron.withWaiters
               (List.filter (fun w => negb (Nat.eqb (cron.token w) t)) (cron.waiters c)) c,
             cancel t rt)
  else None.

(** One step of the system; [None] when the event cannot happen in this
    state. A dead process does nothing. *)
Definition step (σ : System) (e : Event) : option System :=
  if crashed (rt σ) then None
  else
    let s := sched σ in
    match e with
    | CallEvery name interval fn =>
        let '(_, s', rt') := Every name interval fn s (rt σ) in
        Some {| sched := s'; rt := rt'; stopping := stopping σ |}
    | CallCron name expr fn =>
        let '(_, s', rt') := Cron name expr fn s (rt σ) in
        Some {| sched := s'; rt := rt'; stopping := stopping σ |}
    | CallRemove name =>
        let '(_, s', rt') := Remove name s (rt σ) in
        Some {| sched := s'; rt := rt'; stopping := stopping σ |}
    | CallStart =>
        let '(_, s', rt') := Start s (rt σ) in
        Some {| sched := s'; rt := rt'; stopping := stopping σ |}
    | CallStopLocked =>
        if started s then
          let '(cancel, s') := stopLocked s in
          Some {| sched := s'; rt := rt σ; stopping := stopping σ ++ [cancel] |}
        else
          let '(_, rt') := stopped (rt σ) in
          Some {| sched := s; rt := rt'; stopping := stopping σ |}
    | CallStopUnlocked i =>
        match stopping σ !! i with
        | Some cancel =>
            let '(_, s', rt') := stopUnlocked cancel s (rt σ) in
            Some {| sched := s'; rt := rt'; stopping := delete i (stopping σ) |}
        | None => None
        end
    | Advance d => Some {| sched := s; rt := advance d (rt σ); stopping := stopping σ |}
    | Expire id => Some {| sched := s; rt := expire id (rt σ); stopping := stopping σ |}
    | Wake =>
        if cron.running (cronOf s) then
          let '(c, rt') := cron.wake (cronOf s) (rt σ) in
          Some {| sched := withCron c s; rt := rt'; stopping := stopping σ |}
        else None
    | Begin x =>
        match begin x s (rt σ) with
        | Some (s', rt') => Some {| sched := s'; rt := rt'; stopping := stopping σ |}
        | None => None
        end
    | Finish x o =>
        match finish x o s (rt σ) with
        | Some (s', rt') => Some {| sched := s'; rt := rt'; stopping := stopping σ |}
        | None => None
        end
    | ReleaseWaiter t =>
        match release t (cronOf s) with
        | Some c => Some {| sched := withCron c s; rt := rt σ; stopping := stopping σ |}
        | None => None
        end
    | CancelToken t =>
        match cancelToken t (cronOf s) (rt σ) with
        | Some (c, rt') => Some {| sched := withCron c s; rt := rt'; stopping := stopping σ |}
        | None => None
        end
    end.

(** A run of the system. *)
Fixpoint steps (σ : System) (es : list Event) : option System :=
  match es with
  | [] => Some σ
  | e :: es' =>
      match step σ e with
      | Some σ' => steps σ' es'
      | None => None
      end
  end.

(** The states a scheduler made by [New] can be in. *)
Definition reachable (σ : System) : Prop :=
  ∃ now opts es, steps (init now opts) es = Some σ.

End System.

(** * The vocabulary of the properties *)

Section Vocabulary.
Context `{Host}.

(** ** Runs *)

(** The state after a run that is known to be possible. *)
Definition after (now : Time) (opts : list Option) (es : list Event) : System :=
  default (init now opts) (steps (init now opts) es).

(** Whether a run can happen, from a scheduler fresh from [New]. *)
Definition possible (now : Time) (opts : list Option) (es : list Event) : bool :=
  match steps (init now opts) es with Some _ => true | None => false end.

(** ** Loggers, jobs and wrappers *)

(** Two run times that differ at most in what was logged and in the
    channels: the clock, the contexts and the life of the process are the
    same. *)
Definition quiet (rt rt' : Runtime) : Prop :=
  clock rt' = clock rt ∧ nextCtx rt' = nextCtx rt ∧ cancelled rt' = cancelled rt
  ∧ expired rt' = expired rt ∧ crashed rt' = crashed rt.

(** A [cron.Logger] that is a [cronLogAdapter]. *)
Definition isAdapter (l : cron.Logger) : Prop := ∃ logger, l = cronLogAdapter logger.

(** Jobs all of whose loggers are adapters. *)
Fixpoint adapted (j : cron.Job) : Prop :=
  match j with
  | cron.FuncJob _ => True
  | cron.recovered l j' => isAdapter l ∧ adapted j'
  | cron.skipping l _ j' => isAdapter l ∧ adapted j'
  end.

(** Wrappers whose logger is an adapter. *)
Definition adaptedWrapper (w : cron.JobWrapper) : Prop :=
  match w with
  | cron.Recover l => isAdapter l
  | cron.SkipIfStillRunning l => isAdapter l
  end.

(** Jobs without a recovering wrapper inside. *)
Fixpoint silent (j : cron.Job) : Prop :=
  match j with
  | cron.FuncJob _ => True
  | cron.recovered _ _ => False
  | cron.skipping _ _ j' => silent j'
  end.

(** The wrappers that keep a job so: they put no recovering wrapper
    around it. *)
Definition skips (w : cron.JobWrapper) : Prop := ∃ l, w = cron.SkipIfStillRunning l.

(** ** Invariants of the system *)

(** What [New] sets up and every step keeps: the parser, the logger and
    the chain of the cron are those [New] gave it, every wrapped job has
    the recovering wrapper outermost, and the process is alive. *)
Record configured (σ : System) : Prop := {
  cfg_parser : cron.parser (cronOf (sched σ)) = cron.standardParser;
  cfg_logger : isAdapter (cron.logger (cronOf (sched σ)));
  cfg_chain : ∃ l ws, cron.chain (cronOf (sched σ)) = cron.Recover l :: ws ∧ Forall skips ws;
  cfg_wrappers : Forall adaptedWrapper (cron.chain (cronOf (sched σ)));
  cfg_entries : ∀ e, e ∈ cron.entries (cronOf (sched σ)) →
      adapted (cron.WrappedJob e) ∧ ∃ l j, cron.WrappedJob e = cron.recovered l j ∧ silent j;
  cfg_runs : ∀ r, r ∈ cron.jobWaiter (cronOf (sched σ)) →
      adapted (cron.job r) ∧ ∃ l j, cron.job r = cron.recovered l j ∧ silent j;
  cfg_alive : crashed (rt σ) = false
}.

(** The entries of a cron by what identifies them: id and schedule. *)
Definition entryIndex (es : list cron.Entry) : list (cron.EntryID * cron.Schedule) :=
  (λ e, (cron.ID e, cron.EntrySchedule e)) <$> es.

(** The registry against the entries of the cron: every job is stored
    under its own name and stands for the entry with its id, whose
    schedule is what the parser made of the job's schedule string; no two
    jobs share an entry. *)
Record registered (σ : System) : Prop := {
  reg_names : ∀ name job, jobs (sched σ) !! name = Some job → Name job = name;
  reg_entry : ∀ name job, jobs (sched σ) !! name = Some job →
      ∃ sch, cron.parser (cronOf (sched σ)) (Schedule job) = cron.Parsed sch
             ∧ (EntryID job, sch) ∈ entryIndex (cron.entries (cronOf (sched σ)));
  reg_ids : ∀ id sch, (id, sch) ∈ entryIndex (cron.entries (cronOf (sched σ))) →
      id ≤ cron.nextID (cronOf (sched σ));
  reg_inj : ∀ n1 n2 j1 j2, jobs (sched σ) !! n1 = Some j1 → jobs (sched σ) !! n2 = Some j2 →
      EntryID j1 = EntryID j2 → n1 = n2
}.

(** Run contexts and cancel functions: while the scheduler is started its
    run context is the child the last [Start] made of the base context,
    not cancelled; cancel functions are made once and are held by their
    owners only; every function that is running was handed a run
    context. *)
Record contexts (σ : System) : Prop := {
  ctx_stopped : started (sched σ) = false → runCancel (sched σ) = None;
  ctx_started : started (sched σ) = true →
      ∃ id p, runCancel (sched σ) = Some id ∧ runCtx (sched σ) = Some (cancelCtx id p)
              ∧ id ∉ cancelled (rt σ);
  ctx_run : ∀ ctx, runCtx (sched σ) = Some ctx →
      ∃ id p, ctx = cancelCtx id p ∧ baseContext (sched σ) = Some p
              ∧ (id < nextCtx (rt σ))%nat
              ∧ (id ∈ cancelled (rt σ) ∨ runCancel (sched σ) = Some id ∨ Some id ∈ stopping σ);
  ctx_fresh_stopping : ∀ id, Some id ∈ stopping σ → (id < nextCtx (rt σ))%nat;
  ctx_fresh_waiters : ∀ w, w ∈ cron.waiters (cronOf (sched σ)) →
      (cron.token w < nextCtx (rt σ))%nat;
  ctx_fresh_cancelled : ∀ id, id ∈ cancelled (rt σ) → (id < nextCtx (rt σ))%nat;
  ctx_distinct : ∀ id, runCancel (sched σ) = Some id →
      (Some id ∉ stopping σ) ∧ ∀ w, w ∈ cron.waiters (cronOf (sched σ)) → cron.token w ≠ id;
  ctx_live : cron.running (cronOf (sched σ)) = true ∨ cron.jobWaiter (cronOf (sched σ)) ≠ [] →
      is_Some (runCtx (sched σ));
  ctx_body : ∀ r f ctx, r ∈ cron.jobWaiter (cronOf (sched σ)) → cron.phase r = cron.InBody f ctx →
      ∃ id p, ctx = Some (cancelCtx id p) ∧ baseContext (sched σ) = Some p
              ∧ (id ∈ cancelled (rt σ) ∨ runCancel (sched σ) = Some id ∨ Some id ∈ stopping σ);
  ctx_base : is_Some (baseCtx (sched σ))
}.

(** What that invariant reads of a state. *)
Definition control (σ : System) :=
  (started (sched σ), runCtx (sched σ), runCancel (sched σ), baseCtx (sched σ),
   cron.running (cronOf (sched σ)), cron.jobWaiter (cronOf (sched σ)),
   cron.waiters (cronOf (sched σ)), stopping σ, nextCtx (rt σ), cancelled (rt σ)).



(** ** Listings, entries and runs *)

(** The jobs of a listing that carry a given name. *)
Definition named (name : string) (l : list Job) : list Job :=
  filter (λ j, Name j = name) l.

(** The next activation the library holds for the entry of a job. *)
Definition nextActivation (σ : System) (j : Job) : option Time :=
  cron.Next <$> List.find (λ e, cron.ID e =? EntryID j) (cron.entries (cronOf (sched σ))).


(** ** The bookkeeping of entries *)

(** The ids of the entries of the cron. *)
Definition entryIDs (σ : System) : list cron.EntryID :=
  (entryIndex (cron.entries (cronOf (sched σ)))).*1.

(** The events that register a job: its name and its schedule string. *)
Definition registers (e : Event) (name spec : string) : Prop :=
  match e with
  | CallCron n expr _ => n = name ∧ expr = spec
  | CallEvery n d _ => n = name ∧ ("@every " +:+ Duration_String d)%string = spec
  | _ => False
  end.

(** What a step does to the registry and to the entries of the cron:
    nothing but reorder and reschedule them, add one job with its entry, or
    take one job out with its entry. *)
Variant bookkeeping (σ : System) (e : Event) (σ' : System) : Prop :=
| Kept :
    (∀ name spec sch, registers e name spec →
       cron.parser (cronOf (sched σ)) spec ≠ cron.Parsed sch) →
    entryIndex (cron.entries (cronOf (sched σ'))) ≡ₚ entryIndex (cron.entries (cronOf (sched σ))) →
    cron.nextID (cronOf (sched σ')) = cron.nextID (cronOf (sched σ)) →
    jobs (sched σ') = jobs (sched σ) →
    bookkeeping σ e σ'
| AddedJob name spec sch entry :
    registers e name spec →
    cron.parser (cronOf (sched σ)) spec = cron.Parsed sch →
    cron.entries (cronOf (sched σ')) = cron.entries (cronOf (sched σ)) ++ [entry] →
    cron.ID entry = cron.nextID (cronOf (sched σ)) + 1 →
    cron.EntrySchedule entry = sch →
    cron.nextID (cronOf (sched σ')) = cron.nextID (cronOf (sched σ)) + 1 →
    jobs (sched σ') = <[name := {| Name := name; Schedule := spec;
                                   EntryID := cron.nextID (cronOf (sched σ)) + 1 |}]>
                        (jobs (sched σ)) →
    bookkeeping σ e σ'
| RemovedJob name job :
    e = CallRemove name →
    jobs (sched σ) !! name = Some job →
    cron.entries (cronOf (sched σ'))
    = List.filter (λ e, negb (cron.ID e =? EntryID job)) (cron.entries (cronOf (sched σ))) →
    cron.nextID (cronOf (sched σ')) = cron.nextID (cronOf (sched σ)) →
    jobs (sched σ') = delete name (jobs (sched σ)) →
    bookkeeping σ e σ'.

(** The ids of the entries are in use once each, and all of them have been
    handed out: they lie between 1 and [nextID]. *)
Definition numbered (σ : System) : Prop :=
  NoDup (entryIDs σ)
  ∧ (∀ id, id ∈ entryIDs σ → 1 ≤ id ≤ cron.nextID (cronOf (sched σ)))
  ∧ 0 ≤ cron.nextID (cronOf (sched σ)).

(** An entry the registry has lost: the cron holds it under [id] with
    schedule [sch], and no job of the registry holds that id. *)
Definition orphaned (id : cron.EntryID) (sch : cron.Schedule) (σ : System) : Prop :=
  (id, sch) ∈ entryIndex (cron.entries (cronOf (sched σ)))
  ∧ id ≤ cron.nextID (cronOf (sched σ))
  ∧ ∀ name job, jobs (sched σ) !! name = Some job → EntryID job ≠ id.

(** An id that is out of use: handed out once, and now neither in the cron
    nor in the registry. *)
Definition retired (id : cron.EntryID) (σ : System) : Prop :=
  (id ∉ entryIDs σ)
  ∧ id ≤ cron.nextID (cronOf (sched σ))
  ∧ ∀ name job, jobs (sched σ) !! name = Some job → EntryID job ≠ id.

(** ** Log lines *)

(** Jobs and wrappers all of whose loggers are the adapter of [lg]. *)
Fixpoint adaptedTo (lg : SlogLogger) (j : cron.Job) : Prop :=
  match j with
  | cron.FuncJob _ => True
  | cron.recovered l j' => l = cronLogAdapter lg ∧ adaptedTo lg j'
  | cron.skipping l _ j' => l = cronLogAdapter lg ∧ adaptedTo lg j'
  end.

Definition wrapperTo (lg : SlogLogger) (w : cron.JobWrapper) : Prop :=
  match w with
  | cron.Recover l => l = cronLogAdapter lg
  | cron.SkipIfStillRunning l => l = cronLogAdapter lg
  end.

(** The run time [rt'] has logged what [rt] had and, after it, calls that
    [lg] received. *)
Definition says (lg : SlogLogger) (rt rt' : Runtime) : Prop :=
  ∃ calls, output rt' = output rt ++ calls ∧ Forall (λ c, via c = lg) calls.

(** Every logger in the system is [lg] or its adapter, and [lg] has
    received everything that was logged. *)
Record routed (lg : SlogLogger) (σ : System) : Prop := {
  rt_sched : logger (sched σ) = lg;
  rt_logger : cron.logger (cronOf (sched σ)) = cronLogAdapter lg;
  rt_chain : Forall (wrapperTo lg) (cron.chain (cronOf (sched σ)));
  rt_entries : ∀ e, e ∈ cron.entries (cronOf (sched σ)) → adaptedTo lg (cron.WrappedJob e);
  rt_runs : ∀ r, r ∈ cron.jobWaiter (cronOf (sched σ)) → adaptedTo lg (cron.job r);
  rt_output : Forall (λ c, via c = lg) (output (rt σ))
}.

(** ** The channels of the skipping wrappers *)

(** The one-slot channels of the skipping wrappers around a job,
    outermost first. *)
Fixpoint channels (j : cron.Job) : list nat :=
  match j with
  | cron.FuncJob _ => []
  | cron.recovered _ j' => channels j'
  | cron.skipping _ ch j' => ch :: channels j'
  end.

(** The wrapped jobs the cron holds: those of its entries and those of
    the runs in flight. *)
Definition held (σ : System) (j : cron.Job) : Prop :=
  (∃ e, e ∈ cron.entries (cronOf (sched σ)) ∧ cron.WrappedJob e = j)
  ∨ (∃ r, r ∈ cron.jobWaiter (cronOf (sched σ)) ∧ cron.job r = j).

(** Two run times with the same channels. *)
Definition unsignalled (rt rt' : Runtime) : Prop :=
  chans rt' = chans rt ∧ nextChan rt' = nextChan rt.

(** The tokens of the skipping wrappers. A goroutine that is in the
    function of its job holds the token of each of its channels, and no
    other such goroutine has a channel in common with it; no two entries
    share a channel; the goroutines are numbered apart; when the
    scheduler was made with [WithSkipIfRunning] every job has a channel;
    and a channel belongs to one wrapped job. *)
Record exclusive (σ : System) : Prop := {
  ex_holding : ∀ r f ctx ch, r ∈ cron.jobWaiter (cronOf (sched σ)) →
      cron.phase r = cron.InBody f ctx → ch ∈ channels (cron.job r) →
      chans (rt σ) !! ch = Some false;
  ex_apart : ∀ r1 r2 f1 c1 f2 c2 ch,
      r1 ∈ cron.jobWaiter (cronOf (sched σ)) → r2 ∈ cron.jobWaiter (cronOf (sched σ)) →
      cron.run r1 ≠ cron.run r2 →
      cron.phase r1 = cron.InBody f1 c1 → cron.phase r2 = cron.InBody f2 c2 →
      ch ∈ channels (cron.job r1) → ch ∉ channels (cron.job r2);
  ex_fresh_runs : ∀ r ch, r ∈ cron.jobWaiter (cronOf (sched σ)) →
      ch ∈ channels (cron.job r) → (ch < nextChan (rt σ))%nat;
  ex_fresh_entries : ∀ e ch, e ∈ cron.entries (cronOf (sched σ)) →
      ch ∈ channels (cron.WrappedJob e) → (ch < nextChan (rt σ))%nat;
  ex_runs : NoDup (cron.run <$> cron.jobWaiter (cronOf (sched σ)));
  ex_counted : ∀ r, r ∈ cron.jobWaiter (cronOf (sched σ)) →
      (cron.run r < cron.nextRun (cronOf (sched σ)))%nat;
  ex_entries : ∀ e1 e2 ch,
      e1 ∈ cron.entries (cronOf (sched σ)) → e2 ∈ cron.entries (cronOf (sched σ)) →
      cron.ID e1 ≠ cron.ID e2 →
      ch ∈ channels (cron.WrappedJob e1) → ch ∉ channels (cron.WrappedJob e2);
  ex_ids : ∀ e, e ∈ cron.entries (cronOf (sched σ)) →
      cron.ID e ≤ cron.nextID (cronOf (sched σ));
  ex_chain : skipIfRunning (sched σ) = true →
      ∃ l, cron.SkipIfStillRunning l ∈ cron.chain (cronOf (sched σ));
  ex_skip_entries : skipIfRunning (sched σ) = true →
      ∀ e, e ∈ cron.entries (cronOf (sched σ)) → channels (cron.WrappedJob e) ≠ [];
  ex_skip_runs : skipIfRunning (sched σ) = true →
      ∀ r, r ∈ cron.jobWaiter (cronOf (sched σ)) → channels (cron.job r) ≠ [];
  ex_owner : ∀ j1 j2 ch, held σ j1 → held σ j2 →
      ch ∈ channels j1 → ch ∈ channels j2 → j1 = j2
}.

(** ** Decimal numerals *)

(** The number a run of decimal digits stands for, read after [x]. *)
Fixpoint value (ds : string) (x : Z) : Z :=
  match ds with
  | EmptyString => x
  | String c ds' => value ds' (x * 10 + gostrings.code c - 48)
  end.

Fixpoint allDigits (ds : string) : bool :=
  match ds with
  | EmptyString => true
  | String c ds' => gostrings.isDigit c && allDigits ds'
  end.

(** [ds] is a decimal numeral of [v]. *)
Definition numeral (v : Z) (ds : string) : Prop :=
  allDigits ds = true ∧ ds ≠ EmptyString ∧ value ds 0 = v.

(** What follows a unit in a duration string: the end or the next
    number. *)
Definition numberAhead (s : string) : Prop :=
  match s with
  | EmptyString => True
  | String c _ => gostrings.isDigit c = true
  end.

(** ** Cron expressions *)

(** The descriptors of the library that name a schedule. *)
Definition descriptors : list string :=
  ["@yearly"; "@annually"; "@monthly"; "@weekly"; "@daily"; "@midnight"; "@hourly"]%string.

(** The bounds of the five fields of the standard format, in their
    order. *)
Definition fieldBounds : list cron.bounds :=
  [cron.minutes; cron.hours; cron.dom; cron.months; cron.dow].

(** One of the fields is refused by the library's reader of fields,
    [getField], under the bounds of its place. *)
Definition refusedField (fields : list string) : Prop :=
  ∃ i f b e, fields !! i = Some f ∧ fieldBounds !! i = Some b ∧ cron.getField f b = inl e.

(** ** The flags of the scheduler and of its cron *)

(** A run in which [Start] is never called between the two halves of a
    call of [Stop]. *)
Fixpoint orderly (σ : System) (es : list Event) : Prop :=
  match es with
  | [] => True
  | e :: es' =>
      (e = CallStart → stopping σ = [])
      ∧ match step σ e with
        | Some σ' => orderly σ' es'
        | None => True
        end
  end.

(** The flag of the scheduler against the flag of its cron: they agree
    while no call of [Stop] is between its halves, and during such a call
    the scheduler's flag is down. *)
Definition agreed (σ : System) : Prop :=
  (stopping σ = [] → cron.running (cronOf (sched σ)) = started (sched σ))
  ∧ (stopping σ ≠ [] → started (sched σ) = false).

End Vocabulary.

(** ** Schedulers to try the theorems on *)

(** One job registered on a fresh scheduler. *)
Definition oneJob : System :=
  after 0 [] [CallCron "job1" "@every 1s" 1%nat].

(** The same scheduler, started. *)
Definition oneJobStarted : System :=
  after 0 [] [CallCron "job1" "@every 1s" 1%nat; CallStart].

(** A started scheduler whose one job has been dispatched and is in its
    function. *)
Definition oneJobInBody : System :=
  after 0 [WithSkipIfRunning]
    [CallCron "job1" "@every 1s" 1%nat; CallStart; Advance Second; Wake; Begin 0].


(** A second job beside the first. *)
Definition twoJobs : System :=
  after 0 [] [CallCron "job1" "@every 1s" 1%nat; CallCron "job2" "@every 2s" 2%nat].

(** The one job registered once more under its name. *)
Definition jobReplaced : System :=
  after 0 [] [CallCron "job1" "@every 1s" 1%nat; CallCron "job1" "@every 2s" 2%nat].

(** The one job removed. *)
Definition jobRemoved : System :=
  after 0 [] [CallCron "job1" "@every 1s" 1%nat; CallRemove "job1"].

(** A started scheduler stopped while no job is running. *)
Definition idleStopped : System :=
  after 0 [] [CallCron "job1" "@every 1s" 1%nat; CallStart; CallStopLocked; CallStopUnlocked 0%nat].

(** A started scheduler under a base context of the caller's that is
    done. *)
Definition baseExpired : System :=
  after 0 [WithBaseContext (Some (External 0))]
    [CallCron "job1" "@every 1s" 1%nat; CallStart; Expire 0%nat].


(** * Properties *)

(** ** Runs of the system *)

Section Runs.
Context `{Host}.

Lemma steps_app σ es1 es2 :
  steps σ (es1 ++ es2) = match steps σ es1 with Some σ' => steps σ' es2 | None => None end.
Proof.
  revert σ. induction es1 as [|e es1 IH]; intros σ; simpl; [done|].
  destruct (step σ e); [apply IH | done].
Qed.

Lemma reachable_init now opts : reachable (init now opts).
Proof. by exists now, opts, []. Qed.

Lemma reachable_step σ e σ' : reachable σ → step σ e = Some σ' → reachable σ'.
Proof.
  intros (now & opts & es & Hes) Hstep. exists now, opts, (es ++ [e]).
  rewrite steps_app, Hes. simpl. by rewrite Hstep.
Qed.


(** Induction over the states a scheduler can be in. *)
Lemma reachable_induction (P : System → Prop) :
  (∀ now opts, P (init now opts)) →
  (∀ σ e σ', reachable σ → P σ → step σ e = Some σ' → P σ') →
  ∀ σ, reachable σ → P σ.
Proof.
  intros Hinit Hstep σ (now & opts & es & Hes). revert σ Hes.
  induction es as [|e es IH] using rev_ind; intros σ Hes.
  - simpl in Hes. simplify_eq. apply Hinit.
  - rewrite steps_app in Hes. destruct (steps (init now opts) es) as [σ1|] eqn:E; [|done].
    simpl in Hes. destruct (step σ1 e) as [σ2|] eqn:E2; [|done]. simplify_eq.
    eapply Hstep; [|by apply IH|done]. by exists now, opts, es.
Qed.

Lemma after_steps now opts es1 es2 :
  possible now opts (es1 ++ es2) = true →
  steps (after now opts es1) es2 = Some (after now opts (es1 ++ es2)).
Proof.
  unfold possible, after. rewrite steps_app.
  destruct (steps (init now opts) es1) as [σ1|]; [|done]. simpl.
  by destruct (steps σ1 es2).
Qed.

Lemma reachable_after now opts es : possible now opts es = true → reachable (after now opts es).
Proof.
  unfold possible, after. intros Hp. exists now, opts, es.
  by destruct (steps (init now opts) es).
Qed.

(** The callers between the halves of [Stop] once one of them has gone
    on. *)
Lemma elem_of_delete_sub {A} (l : list A) i x : x ∈ delete i l → x ∈ l.
Proof.
  revert i. induction l as [|y l IH]; intros [|i]; simpl; [done|done|by right|].
  intros [->|Hx]%elem_of_cons; [left|right; eauto].
Qed.

Lemma elem_of_delete_other {A} (l : list A) i x y :
  l !! i = Some y → x ∈ l → x = y ∨ x ∈ delete i l.
Proof.
  revert i. induction l as [|z l IH]; intros [|i] Hi Hx; simplify_eq/=.
  - apply elem_of_cons in Hx as [->|Hx]; eauto.
  - apply elem_of_cons in Hx as [->|Hx]; [right; left|].
    destruct (IH i Hi Hx) as [?|?]; [by left|right; by right].
Qed.

End Runs.

(** ** Loggers and the run time

    Most of what the scheduler does to the run time is to log and to move
    a token in or out of a channel: the clock, the contexts and the life
    of the process are left alone. *)

Section Quiet.
Context `{Host}.

Lemma quiet_refl rt : quiet rt rt.
Proof. by repeat split. Qed.

Lemma quiet_trans rt1 rt2 rt3 : quiet rt1 rt2 → quiet rt2 rt3 → quiet rt1 rt3.
Proof. unfold quiet. intros (?&?&?&?&?) (?&?&?&?&?). repeat split; congruence. Qed.

Lemma quiet_emit r rt : quiet rt (emit r rt).
Proof. by repeat split. Qed.

Lemma quiet_setChan ch b rt : quiet rt (setChan ch b rt).
Proof. by repeat split. Qed.

Lemma quiet_makeFull rt : quiet rt (makeFull rt).2.
Proof. by repeat split. Qed.

Lemma quiet_Info l msg kv rt : isAdapter l → quiet rt (cron.Info l msg kv rt).
Proof. intros [lg ->]. apply quiet_emit. Qed.

Lemma quiet_Error l err msg kv rt : isAdapter l → quiet rt (cron.Error l err msg kv rt).
Proof. intros [lg ->]. apply quiet_emit. Qed.

Lemma Then_adapted ws j rt :
  Forall adaptedWrapper ws → adapted j → adapted (cron.Then ws j rt).1 ∧ quiet rt (cron.Then ws j rt).2.
Proof.
  intros Hws Hj. induction Hws as [|w ws Hw Hws IH]; simpl.
  - split; [done | apply quiet_refl].
  - destruct (cron.Then ws j rt) as [j' rt'] eqn:E. simpl in IH. destruct IH as [IHj IHq].
    destruct w as [l|l]; simpl in *; [done|]. split; [done|].
    eapply quiet_trans; [exact IHq | apply quiet_makeFull].
Qed.

(** The first wrapper of the chain is the outermost layer of the job. *)
Lemma Then_recovered l ws j rt : ∃ j', (cron.Then (cron.Recover l :: ws) j rt).1 = cron.recovered l j'.
Proof. simpl. destruct (cron.Then ws j rt) as [j' rt']. by exists j'. Qed.

Lemma enter_quiet j rt : adapted j → quiet rt (cron.enter j rt).2.
Proof.
  revert rt. induction j as [f | l j IH | l ch j IH]; intros rt Hj; simpl in *.
  - apply quiet_refl.
  - apply IH, Hj.
  - destruct Hj as [Hl Hj]. destruct (isFull ch rt).
    + specialize (IH (setChan ch false rt) Hj).
      destruct (cron.enter j (setChan ch false rt)) as [[f|] rt'] eqn:E; simpl in *.
      * eapply quiet_trans; [apply quiet_setChan | exact IH].
      * eapply quiet_trans; [apply quiet_setChan|].
        eapply quiet_trans; [exact IH | apply quiet_setChan].
    + by apply quiet_Info.
Qed.

Lemma leave_quiet j o rt : adapted j → quiet rt (cron.leave j o rt).2.
Proof.
  revert rt. induction j as [f | l j IH | l ch j IH]; intros rt Hj; simpl in *.
  - apply quiet_refl.
  - destruct Hj as [Hl Hj]. specialize (IH rt Hj).
    destruct (cron.leave j o rt) as [[|v] rt'] eqn:E; simpl in *; [done|].
    eapply quiet_trans; [exact IH | by apply quiet_Error].
  - destruct Hj as [Hl Hj]. specialize (IH rt Hj).
    destruct (cron.leave j o rt) as [[|v] rt'] eqn:E; simpl in *; [|done].
    eapply quiet_trans; [exact IH | apply quiet_setChan].
Qed.

Lemma Then_silent ws j rt : Forall skips ws → silent j → silent (cron.Then ws j rt).1.
Proof.
  intros Hws Hj. induction Hws as [|w ws [l ->] Hws IH]; simpl; [done|].
  by destruct (cron.Then ws j rt) as [j' rt'].
Qed.

(** Such a job passes the outcome of its function on and logs nothing. *)
Lemma leave_silent j o rt :
  silent j → (cron.leave j o rt).1 = o ∧ output (cron.leave j o rt).2 = output rt.
Proof.
  induction j as [f | l j IH | l ch j IH]; simpl; [done|done|].
  intros Hj. destruct (IH Hj) as [IH1 IH2].
  destruct (cron.leave j o rt) as [[|v] rt']; simpl in *; by subst.
Qed.

(** A job under a recovering wrapper never ends in a panic: this is the
    whole of the fault isolation. *)
Lemma leave_recovered l j o rt : (cron.leave (cron.recovered l j) o rt).1 = Returns.
Proof. simpl. by destruct (cron.leave j o rt) as [[|v] rt']. Qed.

Lemma activate_quiet l now es rt :
  isAdapter l → quiet rt (cron.activate l now es rt).2.
Proof.
  intros Hl. revert rt. induction es as [|e es IH]; intros rt; simpl.
  - apply quiet_refl.
  - match goal with |- context [cron.activate l now es ?r] =>
      specialize (IH r); destruct (cron.activate l now es r) as [es' rt'] eqn:E end.
    simpl in *. eapply quiet_trans; [by apply quiet_Info | exact IH].
Qed.

Lemma runDue_quiet l now es rt :
  isAdapter l → quiet rt (cron.runDue l now es rt).2.
Proof.
  intros Hl. revert rt. induction es as [|e es IH]; intros rt; simpl.
  - apply quiet_refl.
  - destruct (After (cron.Next e) now || IsZero (cron.Next e)); simpl; [apply quiet_refl|].
    match goal with |- context [cron.runDue l now es ?r] =>
      specialize (IH r); destruct (cron.runDue l now es r) as [[es' js] rt'] eqn:E end.
    simpl in *. eapply quiet_trans; [by apply quiet_Info | exact IH].
Qed.

End Quiet.

(** ** What [New] sets up stays as it is

    The parser, the logger and the chain of the cron are those [New] gave
    it; every wrapped job has the recovering wrapper outermost; and the
    process is alive. *)

Section Configured.
Context `{Host}.

Lemma fold_applyOption_cron opts c :
  cron.parser (fold_left cron.applyOption opts c) = cron.parser c
  ∧ cron.entries (fold_left cron.applyOption opts c) = cron.entries c
  ∧ cron.jobWaiter (fold_left cron.applyOption opts c) = cron.jobWaiter c.
Proof.
  revert c. induction opts as [|o opts IH]; intros c; simpl; [done|].
  destruct (IH (cron.applyOption c o)) as (-> & -> & ->). by destruct o.
Qed.

Lemma configured_init now opts : configured (init now opts).
Proof.
  unfold init, New. simpl.
  set (s := fold_left applyOption opts _).
  split; simpl.
  - done.
  - by eexists.
  - destruct (skipIfRunning s); simpl; do 2 eexists; (split; [done|]); repeat constructor.
    by eexists.
  - destruct (skipIfRunning s); simpl; repeat constructor; by eexists.
  - intros e He. destruct (skipIfRunning s); simpl in He; by apply elem_of_nil in He.
  - intros e He. destruct (skipIfRunning s); simpl in He; by apply elem_of_nil in He.
  - done.
Qed.

Lemma elem_of_activate l now es rt e :
  e ∈ (cron.activate l now es rt).1 → ∃ e0, e0 ∈ es ∧ cron.ID e = cron.ID e0
    ∧ cron.EntrySchedule e = cron.EntrySchedule e0 ∧ cron.WrappedJob e = cron.WrappedJob e0.
Proof.
  revert rt. induction es as [|e0 es IH]; intros rt; simpl.
  - by intros ?%elem_of_nil.
  - match goal with |- context [cron.activate l now es ?r] =>
      specialize (IH r); destruct (cron.activate l now es r) as [es' rt'] eqn:E end.
    simpl in *. intros [->|He]%elem_of_cons.
    + exists e0. split; [left|done].
    + destruct (IH He) as (e1 & ? & ?). exists e1. split; [by right|done].
Qed.

Lemma insertByTime_perm e es : cron.insertByTime e es ≡ₚ e :: es.
Proof.
  induction es as [|e' es IH]; simpl; [done|].
  destruct (cron.less e' e); [|done]. rewrite IH. apply perm_swap.
Qed.

Lemma sortByTime_perm es : cron.sortByTime es ≡ₚ es.
Proof.
  induction es as [|e es IH]; simpl; [done|].
  unfold cron.sortByTime in *. simpl. by rewrite insertByTime_perm, IH.
Qed.

Lemma elem_of_runDue l now es rt e :
  e ∈ (cron.runDue l now es rt).1.1 → ∃ e0, e0 ∈ es ∧ cron.ID e = cron.ID e0
    ∧ cron.EntrySchedule e = cron.EntrySchedule e0 ∧ cron.WrappedJob e = cron.WrappedJob e0.
Proof.
  revert rt. induction es as [|e0 es IH]; intros rt; simpl.
  - by intros ?%elem_of_nil.
  - destruct (After (cron.Next e0) now || IsZero (cron.Next e0)); simpl.
    { intros He. by exists e. }
    match goal with |- context [cron.runDue l now es ?r] =>
      specialize (IH r); destruct (cron.runDue l now es r) as [[es' js] rt'] eqn:E end.
    simpl in *. intros [->|He]%elem_of_cons.
    + exists e0. split; [left|done].
    + destruct (IH He) as (e1 & ? & ?). exists e1. split; [by right|done].
Qed.

Lemma runDue_jobs l now es rt j :
  j ∈ (cron.runDue l now es rt).1.2 → ∃ e0, e0 ∈ es ∧ j = cron.WrappedJob e0.
Proof.
  revert rt. induction es as [|e0 es IH]; intros rt; simpl.
  - by intros ?%elem_of_nil.
  - destruct (After (cron.Next e0) now || IsZero (cron.Next e0)); simpl.
    { by intros ?%elem_of_nil. }
    match goal with |- context [cron.runDue l now es ?r] =>
      specialize (IH r); destruct (cron.runDue l now es r) as [[es' js] rt'] eqn:E end.
    simpl in *. intros [->|He]%elem_of_cons.
    + exists e0. split; [left|done].
    + destruct (IH He) as (e1 & ? & ?). exists e1. split; [by right|done].
Qed.

(** What [startJob] over a list of jobs does to a cron. *)
Lemma startJobs_spec js c :
  let c' := fold_left (fun c j => cron.startJob j c) js c in
  cron.entries c' = cron.entries c ∧ cron.chain c' = cron.chain c
  ∧ cron.running c' = cron.running c ∧ cron.logger c' = cron.logger c
  ∧ cron.location c' = cron.location c ∧ cron.parser c' = cron.parser c
  ∧ cron.nextID c' = cron.nextID c ∧ cron.waiters c' = cron.waiters c
  ∧ cron.nextRun c' = (cron.nextRun c + List.length js)%nat
  ∧ cron.jobWaiter c' = cron.jobWaiter c ++
      imap (fun i j => {| cron.run := (cron.nextRun c + i)%nat; cron.job := j; cron.phase := cron.Spawned |}) js.
Proof.
  revert c. induction js as [|j js IH]; intros c; simpl.
  - rewrite app_nil_r. repeat split; lia.
  - destruct (IH (cron.startJob j c)) as (-> & -> & -> & -> & -> & -> & -> & -> & -> & ->).
    simpl. repeat split; [lia|]. rewrite <- app_assoc. simpl. f_equal. f_equal.
    + f_equal. lia.
    + apply imap_ext. intros i x _. simpl. f_equal. lia.
Qed.

Lemma elem_of_filter_list {A} (P : A → bool) (l : list A) x :
  x ∈ List.filter P l → x ∈ l.
Proof. rewrite !list_elem_of_In. intros ?%filter_In. tauto. Qed.

Lemma configured_AddFunc spec fn s rt stp r c rt' :
  configured {| sched := s; rt := rt; stopping := stp |} →
  cron.AddFunc spec fn (cronOf s) rt = (r, c, rt') →
  configured {| sched := withCron c s; rt := rt'; stopping := stp |} ∧ quiet rt rt'.
Proof.
  intros [Hp Hl (l & ws & Hc & Hsk) Hw He Hr Ha] Hadd. simpl in *.
  unfold cron.AddFunc, cron.AddJob in Hadd.
  destruct (cron.parser (cronOf s) spec) as [sch|err|v]; simplify_eq; try (split; [by split; eauto|apply quiet_refl]).
  unfold cron.Schedule_ in Hadd.
  destruct (Then_adapted (cron.chain (cronOf s)) (cron.FuncJob fn) rt Hw I) as [Hj Hq].
  destruct (Then_recovered l ws (cron.FuncJob fn) rt) as [j' Hj'].
  assert (silent j') as Hsj.
  { pose proof (Then_silent ws (cron.FuncJob fn) rt Hsk I) as Hs. simpl in Hj'.
    destruct (cron.Then ws (cron.FuncJob fn) rt) as [j0 rt0]. simpl in *. by simplify_eq. }
  rewrite <- Hc in Hj'.
  destruct (cron.Then (cron.chain (cronOf s)) (cron.FuncJob fn) rt) as [wrapped rt1] eqn:ET.
  simpl in *.
  assert (∀ e n p, e ∈ cron.entries (cronOf s) ++ [{| cron.ID := cron.nextID (cronOf s) + 1;
             cron.EntrySchedule := sch; cron.Next := n; cron.Prev := p; cron.WrappedJob := wrapped;
             cron.EntryJob := cron.FuncJob fn |}] →
           adapted (cron.WrappedJob e) ∧ ∃ l j, cron.WrappedJob e = cron.recovered l j ∧ silent j)
    as Hnew.
  { intros e n p [?|Hx%list_elem_of_singleton]%elem_of_app; [by apply He|]. subst e. simpl. eauto. }
  destruct (cron.running (cronOf s)); simplify_eq; simpl.
  - match goal with |- context [cron.Info ?a ?b ?c ?d] =>
      pose proof (quiet_trans _ _ _ Hq (quiet_Info a b c d Hl)) as Hq' end.
    split; [split; simpl; eauto|exact Hq'].
    destruct Hq' as (?&?&?&?&?). congruence.
  - split; [split; simpl; eauto|done].
    destruct Hq as (?&?&?&?&?). congruence.
Qed.

Lemma findRun_Some x c r :
  findRun x c = Some r → r ∈ cron.jobWaiter c ∧ cron.run r = x.
Proof.
  unfold findRun. intros Hf. apply find_some in Hf as [Hin Heq].
  split; [by apply list_elem_of_In | by apply Nat.eqb_eq].
Qed.

Lemma elem_of_setPhase x p c r :
  r ∈ cron.jobWaiter (setPhase x p c) →
  ∃ r0, r0 ∈ cron.jobWaiter c ∧ cron.run r = cron.run r0 ∧ cron.job r = cron.job r0
        ∧ ((r = r0 ∧ cron.run r0 ≠ x) ∨ (cron.run r0 = x ∧ cron.phase r = p)).
Proof.
  unfold setPhase. simpl. rewrite list_elem_of_In, in_map_iff.
  intros (r0 & Hr & Hin). exists r0. rewrite list_elem_of_In. split; [done|].
  destruct (Nat.eqb (cron.run r0) x) eqn:E; subst r; simpl.
  - apply Nat.eqb_eq in E. eauto.
  - apply Nat.eqb_neq in E. eauto.
Qed.

Lemma elem_of_dropRun x c r :
  r ∈ cron.jobWaiter (dropRun x c) → r ∈ cron.jobWaiter c ∧ cron.run r ≠ x.
Proof.
  unfold dropRun. simpl. rewrite !list_elem_of_In, filter_In.
  intros [? Hne]. split; [done|]. apply negb_true_iff, Nat.eqb_neq in Hne. done.
Qed.

Lemma crashed_Info l msg kv rt : isAdapter l → crashed (cron.Info l msg kv rt) = crashed rt.
Proof. by intros [lg ->]. Qed.

Lemma configured_step σ e σ' : configured σ → step σ e = Some σ' → configured σ'.
Proof.
  intros Hcfg Hstep. destruct σ as [s rt stp]. unfold step in Hstep. simpl in Hstep.
  destruct (crashed rt) eqn:Hcr; [done|].
  destruct e as [name d fn|name expr fn|name| | |i|d|id| |x|x o|t|t].
  - unfold Every in Hstep.
    destruct (cron.AddFunc _ _ _ _) as [[r c] rt'] eqn:E.
    destruct (configured_AddFunc _ _ _ _ _ _ _ _ Hcfg E) as [Hc' Hq].
    destruct r; simplify_eq; try done.
    destruct Hc'. split; simpl in *; eauto.
  - unfold Cron in Hstep.
    destruct (cron.AddFunc _ _ _ _) as [[r c] rt'] eqn:E.
    destruct (configured_AddFunc _ _ _ _ _ _ _ _ Hcfg E) as [Hc' Hq].
    destruct r; simplify_eq; try done.
    destruct Hc'. split; simpl in *; eauto.
  - unfold Remove in Hstep. destruct (jobs s !! name) as [job|]; simplify_eq; [|done].
    destruct Hcfg as [Hp Hl Hc Hw He Hr Ha]. simpl in *.
    unfold cron.Remove in Hstep.
    destruct (cron.running (cronOf s)); simplify_eq; split; simpl; rewrite ?crashed_Info by done; eauto.
    all: intros e He'%elem_of_filter_list; by apply He.
  - unfold Start in Hstep. destruct (started s); simplify_eq; [done|].
    destruct Hcfg as [Hp Hl Hc Hw He Hr Ha]. simpl in *.
    unfold baseContext in Hstep. 
    assert (∃ p, match baseCtx s with Some ctx => Some ctx | None => Some Background end = Some p) as [p Hb].
    { destruct (baseCtx s); eauto. }
    rewrite Hb in Hstep. simpl in Hstep.
    unfold cron.Start in Hstep. simpl in Hstep.
    destruct (cron.running (cronOf s)); simplify_eq.
    + split; simpl; eauto.
    + match type of Hstep with context [cron.activate ?l ?n ?es ?r] =>
        pose proof (activate_quiet l n es r Hl) as Hq;
        pose proof (elem_of_activate l n es r) as Hin;
        destruct (cron.activate l n es r) as [es' rt'] eqn:E end.
      simplify_eq. simpl in *. split; simpl; eauto.
      * intros e [e0 (He0 & _ & _ & ->)]%Hin. eauto.
      * destruct Hq as (?&?&?&?&->). by rewrite crashed_Info.
  - destruct (started s); simplify_eq.
    + destruct Hcfg. split; simpl in *; eauto.
    + destruct Hcfg. split; simpl in *; eauto.
  - destruct (stp !! i) as [cancel|] eqn:Ei; [|done].
    destruct Hcfg as [Hp Hl Hc Hw He Hr Ha]. simpl in *.
    unfold stopUnlocked, cron.Stop in Hstep. simpl in Hstep.
    destruct (cron.running (cronOf s)); destruct cancel; simplify_eq; split; simpl; rewrite ?crashed_Info by done; eauto.
  - simplify_eq. destruct Hcfg. split; simpl in *; eauto.
  - simplify_eq. destruct Hcfg. split; simpl in *; eauto.
  - destruct (cron.running (cronOf s)) eqn:Hrun; [|done].
    destruct Hcfg as [Hp Hl Hc Hw He Hr Ha]. simpl in *.
    unfold cron.wake in Hstep.
    match type of Hstep with context [cron.runDue ?l ?n ?es ?r] =>
        pose proof (runDue_quiet l n es r Hl) as Hq;
        pose proof (elem_of_runDue l n es r) as Hin;
        pose proof (runDue_jobs l n es r) as Hjs;
        destruct (cron.runDue l n es r) as [[es' js] rt'] eqn:E end.
    simpl in *. simplify_eq.
    destruct (startJobs_spec js (cron.withEntries es' (cronOf s))) as (E1 & E2 & E3 & E4 & E5 & E6 & E7 & E8 & E9 & E10).
    simpl in *.
    split; simpl; rewrite ?E1, ?E2, ?E4, ?E6, ?E10; eauto.
    + intros e [e0 (He0 & _ & _ & ->)]%Hin. apply He. by rewrite <- sortByTime_perm.
    + intros r [?|Hr']%elem_of_app; [by apply Hr|].
      apply list_elem_of_lookup in Hr' as [i Hi]. rewrite list_lookup_imap in Hi.
      destruct (js !! i) as [j|] eqn:Ej; simplify_eq/=.
      apply list_elem_of_lookup_2 in Ej. apply Hjs in Ej as (e0 & He0 & ->).
      apply He. by rewrite <- sortByTime_perm.
    + destruct Hq as (?&?&?&?&->). by rewrite crashed_Info.
  - destruct (begin x s rt) as [[s' rt']|] eqn:Hb; [|done]. simplify_eq.
    destruct Hcfg as [Hp Hl Hc Hw He Hr Ha]. simpl in *.
    unfold begin in Hb. destruct (findRun x (cronOf s)) as [r|] eqn:Hf; [|done].
    apply findRun_Some in Hf as [Hin Hx]. destruct (Hr r Hin) as [Had Hrec].
    destruct (cron.phase r); [|done].
    pose proof (enter_quiet (cron.job r) rt Had) as Hq.
    destruct (cron.enter (cron.job r) rt) as [[fn|] rt1]; simplify_eq; simpl in *.
    + split; simpl; eauto.
      * intros r' (r0 & Hr0 & _ & -> & _)%elem_of_setPhase. eauto.
      * destruct Hq as (?&?&?&?&->). done.
    + split; simpl; eauto.
      * intros r' [Hr' _]%elem_of_dropRun. eauto.
      * destruct Hq as (?&?&?&?&->). done.
  - destruct (finish x o s rt) as [[s' rt']|] eqn:Hb; [|done]. simplify_eq.
    destruct Hcfg as [Hp Hl Hc Hw He Hr Ha]. simpl in *.
    unfold finish in Hb. destruct (findRun x (cronOf s)) as [r|] eqn:Hf; [|done].
    apply findRun_Some in Hf as [Hin Hx]. destruct (Hr r Hin) as [Had (l & j & Hrec & _)].
    destruct (cron.phase r); [done|].
    pose proof (leave_quiet (cron.job r) o rt Had) as Hq.
    pose proof (leave_recovered l j o rt) as Hret. rewrite <- Hrec in Hret.
    destruct (cron.leave (cron.job r) o rt) as [o' rt1]; simpl in *. subst o'. simplify_eq.
    split; simpl; eauto.
    + intros r' [Hr' _]%elem_of_dropRun. eauto.
    + destruct Hq as (?&?&?&?&->). done.
  - destruct (release t (cronOf s)) as [c|] eqn:Hb; [|done]. simplify_eq.
    unfold release in Hb. destruct (cron.jobWaiter (cronOf s)) eqn:Hj; [|done].
    destruct (existsb _ _); [|done]. simplify_eq.
    destruct Hcfg as [Hp Hl Hc Hw He Hr Ha]. simpl in *.
    split; simpl; eauto.
  - destruct (cancelToken t (cronOf s) rt) as [[c rt']|] eqn:Hb; [|done]. simplify_eq.
    unfold cancelToken in Hb. destruct (existsb _ _); [|done]. simplify_eq.
    destruct Hcfg as [Hp Hl Hc Hw He Hr Ha]. simpl in *.
    split; simpl; eauto.
Qed.

Lemma reachable_configured σ : reachable σ → configured σ.
Proof.
  apply reachable_induction.
  - apply configured_init.
  - intros. by eapply configured_step.
Qed.
End Configured.

(** ** The registry and the entries of the cron

    Every job of the registry is stored under its own name and stands for
    an entry of the cron: the one with its id, whose schedule is what the
    parser made of the job's schedule string. No two jobs share an entry. *)

Section Registered.
Context `{Host}.

Lemma activate_index l now es rt : entryIndex (cron.activate l now es rt).1 = entryIndex es.
Proof.
  revert rt. induction es as [|e es IH]; intros rt; simpl; [done|].
  match goal with |- context [cron.activate l now es ?r] =>
    specialize (IH r); destruct (cron.activate l now es r) as [es' rt'] eqn:E end.
  simpl in *. by rewrite IH.
Qed.

Lemma runDue_index l now es rt : entryIndex (cron.runDue l now es rt).1.1 = entryIndex es.
Proof.
  revert rt. induction es as [|e es IH]; intros rt; simpl; [done|].
  destruct (After (cron.Next e) now || IsZero (cron.Next e)); simpl; [done|].
  match goal with |- context [cron.runDue l now es ?r] =>
    specialize (IH r); destruct (cron.runDue l now es r) as [[es' js] rt'] eqn:E end.
  simpl in *. by rewrite IH.
Qed.

Lemma sortByTime_index es : entryIndex (cron.sortByTime es) ≡ₚ entryIndex es.
Proof. unfold entryIndex. by rewrite sortByTime_perm. Qed.

Lemma elem_of_index_filter id0 id sch es :
  (id, sch) ∈ entryIndex (List.filter (λ e, negb (cron.ID e =? id0)) es) ↔ (id, sch) ∈ entryIndex es ∧ id ≠ id0.
Proof.
  unfold entryIndex. rewrite !list_elem_of_fmap. split.
  - intros (e & Heq & Hin). apply list_elem_of_In, filter_In in Hin as [Hin Hne].
    simplify_eq. split; [exists e; by rewrite list_elem_of_In|].
    apply negb_true_iff, Z.eqb_neq in Hne. done.
  - intros [(e & Heq & Hin) Hne]. exists e. split; [done|].
    apply list_elem_of_In, filter_In. split; [by apply list_elem_of_In|].
    simplify_eq. by apply negb_true_iff, Z.eqb_neq.
Qed.

Lemma registered_init now opts : registered (init now opts).
Proof.
  assert (∀ s, jobs (fold_left applyOption opts s) = jobs s) as Hj.
  { induction opts as [|o opts IH]; intros s; simpl; [done|]. rewrite IH.
    destruct o as [[c|]| | |]; done. }
  unfold init, New. simpl. set (s := fold_left applyOption opts _).
  assert (jobs s = ∅) as Hs by apply Hj.
  split; simpl; rewrite ?Hs.
  - by intros ?? ?%lookup_empty_Some.
  - by intros ?? ?%lookup_empty_Some.
  - intros id sch. destruct (skipIfRunning s); simpl; by intros ?%elem_of_nil.
  - by intros ???? ?%lookup_empty_Some.
Qed.

(** What [AddFunc] does to a cron, by cases on what the parser says. *)
Lemma AddFunc_spec spec fn c rt :
  match cron.parser c spec with
  | cron.Rejected err => cron.AddFunc spec fn c rt = (cron.AddError err, c, rt)
  | cron.ParsePanic v => cron.AddFunc spec fn c rt = (cron.AddPanic v, c, rt)
  | cron.Parsed sch =>
      ∃ c' rt', cron.AddFunc spec fn c rt = (cron.Added (cron.nextID c + 1), c', rt')
        ∧ entryIndex (cron.entries c') = entryIndex (cron.entries c) ++ [(cron.nextID c + 1, sch)]
        ∧ cron.nextID c' = cron.nextID c + 1
        ∧ cron.parser c' = cron.parser c
        ∧ cron.running c' = cron.running c
        ∧ cron.jobWaiter c' = cron.jobWaiter c
        ∧ cron.waiters c' = cron.waiters c
        ∧ cron.nextRun c' = cron.nextRun c
  end.
Proof.
  unfold cron.AddFunc, cron.AddJob. destruct (cron.parser c spec) as [sch|err|v]; [|done|done].
  unfold cron.Schedule_.
  destruct (cron.Then (cron.chain c) (cron.FuncJob fn) rt) as [wrapped rt1].
  destruct (cron.running c) eqn:E; do 2 eexists; (split; [done|]); simpl;
    unfold entryIndex; rewrite fmap_app; simpl; by rewrite ?E.
Qed.

Lemma withCron_id s : withCron (cronOf s) s = s.
Proof. by destruct s. Qed.

Lemma registered_insert s rt stp name spec sch c' :
  registered {| sched := s; rt := rt; stopping := stp |} →
  cron.parser (cronOf s) spec = cron.Parsed sch →
  entryIndex (cron.entries c') = entryIndex (cron.entries (cronOf s)) ++ [(cron.nextID (cronOf s) + 1, sch)] →
  cron.nextID c' = cron.nextID (cronOf s) + 1 →
  cron.parser c' = cron.parser (cronOf s) →
  ∀ rt',
  registered {| sched := withJobs (<[name := {| Name := name; Schedule := spec;
                    EntryID := cron.nextID (cronOf s) + 1 |}]> (jobs s)) (withCron c' s);
                rt := rt'; stopping := stp |}.
Proof.
  intros [Hn He Hi Hj] Hp Hidx Hid Hpar rt'. simpl in *.
  assert (∀ n j, jobs s !! n = Some j → EntryID j ≤ cron.nextID (cronOf s)) as Hle.
  { intros n j Hnj. destruct (He n j Hnj) as (sch' & _ & Hin). eauto. }
  split; simpl.
  - intros n j [[-> <-]|[Hne Hl]]%lookup_insert_Some; [done|eauto].
  - intros n j [[-> <-]|[Hne Hl]]%lookup_insert_Some; simpl; rewrite Hpar, Hidx.
    + exists sch. split; [done|]. apply elem_of_app. right. by apply list_elem_of_singleton.
    + destruct (He n j Hl) as (sch' & ? & ?). exists sch'. split; [done|].
      apply elem_of_app. by left.
  - intros id sch'. rewrite Hidx, Hid. intros [Hin|Hin%list_elem_of_singleton]%elem_of_app.
    + apply Hi in Hin. lia.
    + simplify_eq. lia.
  - intros n1 n2 j1 j2 [[-> <-]|[Hne1 Hl1]]%lookup_insert_Some
      [[-> <-]|[Hne2 Hl2]]%lookup_insert_Some; simpl; intros Heq; try done.
    + apply Hle in Hl2. lia.
    + apply Hle in Hl1. lia.
    + eauto.
Qed.

Lemma registered_step σ e σ' : registered σ → step σ e = Some σ' → registered σ'.
Proof.
  intros Hreg Hstep. destruct σ as [s rt stp]. unfold step in Hstep. simpl in Hstep.
  destruct (crashed rt) eqn:Hcr; [done|].
  destruct e as [name d fn|name expr fn|name| | |i|d|id| |x|x o|t|t].
  - unfold Every in Hstep.
    match type of Hstep with context [cron.AddFunc ?spec ?f ?c ?r] =>
      pose proof (AddFunc_spec spec f c r) as Hadd;
      destruct (cron.parser c spec) as [sch|err|v] eqn:Hp end.
    + destruct Hadd as (c' & rt' & Hadd & Hidx & Hid & Hpar & _).
      rewrite Hadd in Hstep. simplify_eq. by eapply registered_insert.
    + rewrite Hadd in Hstep. simplify_eq. by rewrite withCron_id.
    + rewrite Hadd in Hstep. simplify_eq. by rewrite withCron_id.
  - unfold Cron in Hstep.
    match type of Hstep with context [cron.AddFunc ?spec ?f ?c ?r] =>
      pose proof (AddFunc_spec spec f c r) as Hadd;
      destruct (cron.parser c spec) as [sch|err|v] eqn:Hp end.
    + destruct Hadd as (c' & rt' & Hadd & Hidx & Hid & Hpar & _).
      rewrite Hadd in Hstep. simplify_eq. by eapply registered_insert.
    + rewrite Hadd in Hstep. simplify_eq. by rewrite withCron_id.
    + rewrite Hadd in Hstep. simplify_eq. by rewrite withCron_id.
  - unfold Remove in Hstep. destruct (jobs s !! name) as [job|] eqn:Hjob; simplify_eq; [|done].
    destruct Hreg as [Hn He Hi Hj]. simpl in *.
    assert (∃ c' rt', cron.Remove (EntryID job) (cronOf s) rt = (c', rt')
              ∧ cron.entries c' = List.filter (λ e, negb (cron.ID e =? EntryID job)) (cron.entries (cronOf s))
              ∧ cron.nextID c' = cron.nextID (cronOf s)
              ∧ cron.parser c' = cron.parser (cronOf s)) as (c' & rt' & Hrm & Hes & Hid & Hpar).
    { unfold cron.Remove. destruct (cron.running (cronOf s)); eauto 10. }
    rewrite Hrm in Hstep. simplify_eq.
    split; simpl; rewrite ?Hes, ?Hid, ?Hpar.
    + intros n j [Hne Hl]%lookup_delete_Some. eauto.
    + intros n j [Hne Hl]%lookup_delete_Some.
      destruct (He n j Hl) as (sch & ? & ?). exists sch. split; [done|].
      apply elem_of_index_filter. split; [done|]. intros Heq. apply Hne. eauto.
    + intros id sch [Hin _]%elem_of_index_filter. eauto.
    + intros n1 n2 j1 j2 [_ Hl1]%lookup_delete_Some [_ Hl2]%lookup_delete_Some. eauto.
  - unfold Start in Hstep. destruct (started s); simplify_eq; [done|].
    destruct Hreg as [Hn He Hi Hj]. simpl in *.
    unfold baseContext in Hstep.
    assert (∃ p, match baseCtx s with Some ctx => Some ctx | None => Some Background end = Some p) as [p Hb].
    { destruct (baseCtx s); eauto. }
    rewrite Hb in Hstep. simpl in Hstep.
    unfold cron.Start in Hstep. simpl in Hstep.
    destruct (cron.running (cronOf s)); simplify_eq.
    + split; simpl; eauto.
    + match type of Hstep with context [cron.activate ?l ?n ?es ?r] =>
        pose proof (activate_index l n es r) as Hidx;
        destruct (cron.activate l n es r) as [es' rt'] eqn:E end.
      simplify_eq. simpl in *. split; simpl; rewrite ?Hidx; eauto.
  - destruct (started s); simplify_eq; destruct Hreg; split; simpl in *; eauto.
  - destruct (stp !! i) as [cancel|] eqn:Ei; [|done].
    destruct Hreg as [Hn He Hi Hj]. simpl in *.
    unfold stopUnlocked, cron.Stop in Hstep. simpl in Hstep.
    destruct (cron.running (cronOf s)); destruct cancel; simplify_eq; split; simpl; eauto.
  - simplify_eq. destruct Hreg. split; simpl in *; eauto.
  - simplify_eq. destruct Hreg. split; simpl in *; eauto.
  - destruct (cron.running (cronOf s)) eqn:Hrun; [|done].
    destruct Hreg as [Hn He Hi Hj]. simpl in *.
    unfold cron.wake in Hstep.
    match type of Hstep with context [cron.runDue ?l ?n ?es ?r] =>
        pose proof (runDue_index l n es r) as Hidx;
        destruct (cron.runDue l n es r) as [[es' js] rt'] eqn:E end.
    simpl in *. simplify_eq.
    destruct (startJobs_spec js (cron.withEntries es' (cronOf s))) as (E1 & E2 & E3 & E4 & E5 & E6 & E7 & E8 & E9 & E10).
    simpl in *.
    split; simpl; rewrite ?E1, ?E6, ?E7, ?Hidx; eauto.
    + intros n j Hl. destruct (He n j Hl) as (sch & ? & ?). exists sch. split; [done|].
      by rewrite sortByTime_index.
    + intros id sch. rewrite sortByTime_index. eauto.
  - destruct (begin x s rt) as [[s' rt']|] eqn:Hb; [|done]. simplify_eq.
    unfold begin in Hb. destruct (findRun x (cronOf s)) as [r|] eqn:Hf; [|done].
    destruct (cron.phase r); [|done].
    destruct (cron.enter (cron.job r) rt) as [[fn|] rt1]; simplify_eq;
      destruct Hreg; split; simpl in *; eauto.
  - destruct (finish x o s rt) as [[s' rt']|] eqn:Hb; [|done]. simplify_eq.
    unfold finish in Hb. destruct (findRun x (cronOf s)) as [r|] eqn:Hf; [|done].
    destruct (cron.phase r); [done|].
    destruct (cron.leave (cron.job r) o rt) as [[|v] rt1]; simplify_eq;
      destruct Hreg; split; simpl in *; eauto.
  - destruct (release t (cronOf s)) as [c|] eqn:Hb; [|done]. simplify_eq.
    unfold release in Hb. destruct (cron.jobWaiter (cronOf s)) eqn:Hj; [|done].
    destruct (existsb _ _); [|done]. simplify_eq.
    destruct Hreg. split; simpl in *; eauto.
  - destruct (cancelToken t (cronOf s) rt) as [[c rt']|] eqn:Hb; [|done]. simplify_eq.
    unfold cancelToken in Hb. destruct (existsb _ _); [|done]. simplify_eq.
    destruct Hreg. split; simpl in *; eauto.
Qed.

Lemma reachable_registered σ : reachable σ → registered σ.
Proof.
  apply reachable_induction.
  - apply registered_init.
  - intros. by eapply registered_step.
Qed.

End Registered.

(** ** Run contexts and cancel functions

    While the scheduler is started its run context is the child that the
    last [Start] made of the base context, and nobody has cancelled it.
    Cancel functions are made once and called by their owners only: the
    halves of [Stop] for a run context, the goroutine of the library's
    [Stop] for its own. Every function that is running was handed a run
    context. *)

Section Contexts.
Context `{Host}.

Lemma contexts_control σ σ' : control σ' = control σ → contexts σ → contexts σ'.
Proof.
  unfold control. intros Heq [H1 H2 H3 H4 H5 H6 H7 H8 H9 H10].
  injection Heq as E1 E2 E3 E4 E5 E6 E7 E8 E9 E10.
  assert (baseContext (sched σ') = baseContext (sched σ)) as Eb.
  { unfold baseContext. by rewrite E4. }
  split; rewrite ?E1, ?E2, ?E3, ?E4, ?E5, ?E6, ?E7, ?E8, ?E9, ?E10, ?Eb; done.
Qed.

Lemma fold_applyOption_run opts s :
  started (fold_left applyOption opts s) = started s
  ∧ runCtx (fold_left applyOption opts s) = runCtx s
  ∧ runCancel (fold_left applyOption opts s) = runCancel s
  ∧ jobs (fold_left applyOption opts s) = jobs s
  ∧ (is_Some (baseCtx s) → is_Some (baseCtx (fold_left applyOption opts s))).
Proof.
  revert s. induction opts as [|o opts IH]; intros s; simpl; [done|].
  destruct (IH (applyOption s o)) as (-> & -> & -> & -> & Hb).
  repeat split; try by destruct o as [[c|]| | |].
  intros Hs. apply Hb. destruct o as [[c|]| | |]; simpl; eauto.
Qed.

Lemma contexts_init now opts : contexts (init now opts).
Proof.
  unfold init, New. simpl. set (s0 := {| cronOf := _ |}).
  destruct (fold_applyOption_run opts s0) as (E1 & E2 & E3 & _ & Hb).
  set (s := fold_left applyOption opts s0) in *.
  split; simpl; rewrite ?E1, ?E2, ?E3; simpl; try done.
  - intros id Hx. by apply elem_of_nil in Hx.
  - intros id Hx. by apply elem_of_nil in Hx.
  - intros [|]; done.
  - intros r f ctx Hx. by apply elem_of_nil in Hx.
  - apply Hb. by eexists.
Qed.

(** The calls that only log, register or remove leave the contexts alone. *)
Lemma cron_Remove_control id c rt :
  cron.running (cron.Remove id c rt).1 = cron.running c
  ∧ cron.jobWaiter (cron.Remove id c rt).1 = cron.jobWaiter c
  ∧ cron.waiters (cron.Remove id c rt).1 = cron.waiters c
  ∧ (isAdapter (cron.logger c) → quiet rt (cron.Remove id c rt).2).
Proof.
  unfold cron.Remove. destruct (cron.running c) eqn:E; simpl; rewrite ?E;
    (split; [done|]; split; [done|]; split; [done|]); intros Hl;
    [by apply quiet_Info | apply quiet_refl].
Qed.

Lemma AddFunc_quiet spec fn c rt :
  isAdapter (cron.logger c) → Forall adaptedWrapper (cron.chain c) →
  quiet rt (cron.AddFunc spec fn c rt).2.
Proof.
  intros Hl Hw. unfold cron.AddFunc, cron.AddJob.
  destruct (cron.parser c spec) as [sch|err|v]; simpl; try apply quiet_refl.
  unfold cron.Schedule_.
  destruct (Then_adapted (cron.chain c) (cron.FuncJob fn) rt Hw I) as [_ Hq].
  destruct (cron.Then (cron.chain c) (cron.FuncJob fn) rt) as [wrapped rt1]. simpl in *.
  destruct (cron.running c); simpl; [|done].
  eapply quiet_trans; [exact Hq | by apply quiet_Info].
Qed.

Lemma contexts_registration σ r s' rt' :
  configured σ → contexts σ →
  (∃ name spec fn,
      (match cron.AddFunc spec (wrappedFn fn) (cronOf (sched σ)) (rt σ) with
       | (cron.AddError err, c, rt1) => (Err err, withCron c (sched σ), rt1)
       | (cron.AddPanic v, c, rt1) => (Panic v, withCron c (sched σ), rt1)
       | (cron.Added entryID, c, rt1) =>
           (Nil, withJobs (<[name := {| Name := name; Schedule := spec; EntryID := entryID |}]>
                            (jobs (sched σ))) (withCron c (sched σ)),
            Debug (logger (sched σ)) "job scheduled"
              [("name"%string, VString name); ("schedule"%string, VString spec)] rt1)
       end) = (r, s', rt')) →
  contexts {| sched := s'; rt := rt'; stopping := stopping σ |}.
Proof.
  intros Hcfg Hctx (name & spec & fn & Heq).
  pose proof (AddFunc_quiet spec (wrappedFn fn) (cronOf (sched σ)) (rt σ)
                (cfg_logger _ Hcfg) (cfg_wrappers _ Hcfg)) as Hq.
  pose proof (AddFunc_spec spec (wrappedFn fn) (cronOf (sched σ)) (rt σ)) as Hspec.
  destruct (cron.parser (cronOf (sched σ)) spec) as [sch|err|v].
  - destruct Hspec as (c' & rt1 & Hadd & _ & _ & _ & E1 & E2 & E3 & _).
    rewrite Hadd in Heq, Hq. simplify_eq. simpl in Hq. destruct Hq as (_ & Q1 & Q2 & _).
    eapply contexts_control; [|exact Hctx]. unfold control. simpl.
    by rewrite E1, E2, E3, Q1, Q2.
  - rewrite Hspec in Heq. simplify_eq. by destruct σ as [[] ? ?].
  - rewrite Hspec in Heq. simplify_eq. by destruct σ as [[] ? ?].
Qed.

Lemma baseContext_Some s : ∃ p, baseContext s = Some p.
Proof. unfold baseContext. destruct (baseCtx s); eauto. Qed.

Lemma elem_of_waiters_map t (ws : list cron.StopWait) w :
  w ∈ List.map (fun w => if Nat.eqb (cron.token w) t
                         then {| cron.token := t; cron.released := true |} else w) ws →
  ∃ w0, w0 ∈ ws ∧ cron.token w = cron.token w0.
Proof.
  rewrite list_elem_of_In, in_map_iff. intros (w0 & Hw & Hin). exists w0.
  rewrite list_elem_of_In. split; [done|].
  destruct (Nat.eqb (cron.token w0) t) eqn:E; subst w; simpl; [|done].
  by apply Nat.eqb_eq in E.
Qed.

Lemma existsb_token t P (ws : list cron.StopWait) :
  existsb (fun w => Nat.eqb (cron.token w) t && P w) ws = true →
  ∃ w, w ∈ ws ∧ cron.token w = t ∧ P w = true.
Proof.
  intros (w & Hin & Hw)%existsb_exists. apply andb_true_iff in Hw as [Ht HP].
  exists w. rewrite list_elem_of_In. by apply Nat.eqb_eq in Ht.
Qed.

Lemma wake_spec c rt :
  isAdapter (cron.logger c) →
  ∃ js, cron.running (cron.wake c rt).1 = cron.running c
    ∧ cron.waiters (cron.wake c rt).1 = cron.waiters c
    ∧ cron.jobWaiter (cron.wake c rt).1 = cron.jobWaiter c ++
        imap (fun i j => {| cron.run := (cron.nextRun c + i)%nat; cron.job := j;
                            cron.phase := cron.Spawned |}) js
    ∧ cron.nextRun (cron.wake c rt).1 = (cron.nextRun c + List.length js)%nat
    ∧ quiet rt (cron.wake c rt).2.
Proof.
  intros Hl. unfold cron.wake.
  match goal with |- context [cron.runDue ?l ?n ?es ?r] =>
    pose proof (runDue_quiet l n es r Hl) as Hq;
    destruct (cron.runDue l n es r) as [[es' js] rt'] eqn:E end.
  exists js. simpl in *.
  destruct (startJobs_spec js (cron.withEntries es' c)) as (E1 & E2 & E3 & E4 & E5 & E6 & E7 & E8 & E9 & E10).
  simpl in *. rewrite E3, E8, E9, E10.
  split; [done|]. split; [done|]. split; [done|]. split; [done|].
  eapply quiet_trans; [|exact Hq]. by apply quiet_Info.
Qed.

Lemma contexts_step σ e σ' : configured σ → contexts σ → step σ e = Some σ' → contexts σ'.
Proof.
  intros Hcfg Hctx Hstep. unfold step in Hstep.
  destruct (crashed (rt σ)) eqn:Hcr; [done|].
  destruct e as [name d fn|name expr fn|name| | |i|d|id| |x|x o|t|t].
  - destruct (Every _ _ _ _ _) as [[r s'] rt'] eqn:E. simplify_eq.
    eapply contexts_registration; eauto.
  - destruct (Cron _ _ _ _ _) as [[r s'] rt'] eqn:E. simplify_eq.
    eapply contexts_registration; eauto.
  - destruct (Remove _ _ _) as [[r s'] rt'] eqn:E. simplify_eq.
    unfold Remove in E. destruct (jobs (sched σ) !! name) as [job|].
    + destruct (cron_Remove_control (EntryID job) (cronOf (sched σ)) (rt σ))
        as (E1 & E2 & E3 & Hq).
      destruct (Hq (cfg_logger _ Hcfg)) as (_ & Q1 & Q2 & _).
      destruct (cron.Remove _ _ _) as [c rt1]. simplify_eq. simpl in *.
      eapply contexts_control; [|exact Hctx]. unfold control. simpl.
      by rewrite E1, E2, E3, Q1, Q2.
    + simplify_eq. by destruct σ.
  - destruct (Start _ _) as [[r s'] rt'] eqn:E. simplify_eq.
    unfold Start in E. destruct (started (sched σ)) eqn:Hst.
    { simplify_eq. by destruct σ. }
    destruct (baseContext_Some (sched σ)) as [p Hp]. rewrite Hp in E. simpl in E.
    destruct Hctx as [H1 H2 H3 H4 H5 H6 H7 H8 H9 H10].
    specialize (H1 Hst).
    assert (∃ c rt1, cron.Start (cronOf (sched σ)) (WithCancel p (rt σ)).2 = (c, rt1)
              ∧ cron.running c = true ∧ cron.jobWaiter c = cron.jobWaiter (cronOf (sched σ))
              ∧ cron.waiters c = cron.waiters (cronOf (sched σ))
              ∧ quiet (WithCancel p (rt σ)).2 rt1) as (c & rt1 & Hs & E1 & E2 & E3 & Hq).
    { unfold cron.Start. destruct (cron.running (cronOf (sched σ))) eqn:Hrun.
      - do 2 eexists. split; [done|]. repeat split; done.
      - match goal with |- context [cron.activate ?l ?n ?es ?r] =>
          pose proof (activate_quiet l n es r (cfg_logger _ Hcfg)) as Hq;
          destruct (cron.activate l n es r) as [es' rt2] eqn:Ea end.
        do 2 eexists. split; [done|]. simpl. split; [done|]. split; [done|]. split; [done|].
        eapply quiet_trans; [|exact Hq]. by apply quiet_Info, cfg_logger. }
    simpl in Hs. rewrite Hs in E. simplify_eq. simpl in Hq.
    destruct Hq as (_ & Q1 & Q2 & _).
    split; [..|by simpl]; simpl; rewrite ?Q1, ?Q2, ?E1, ?E2, ?E3; simpl.
    + done.
    + intros _. exists (nextCtx (rt σ)), p. split; [done|]. split; [done|].
      intros Hin%H6. lia.
    + intros ctx [= <-]. exists (nextCtx (rt σ)), p. split; [done|]. split; [done|].
      split; [lia|]. right; by left.
    + intros id Hin%H4. lia.
    + intros w Hin%H5. lia.
    + intros id Hin%H6. lia.
    + intros id [= <-]. split.
      * intros Hin%H4. lia.
      * intros w Hin%H5. lia.
    + eauto.
    + intros r f ctx Hr Hph. destruct (H9 r f ctx Hr Hph) as (id & p' & -> & Hb & Hs').
      exists id, p'. split; [done|]. split; [done|].
      destruct Hs' as [?|[Hs'|?]]; [by left| |by right; right]. by rewrite H1 in Hs'.
  - destruct (started (sched σ)) eqn:Hst.
    + unfold stopLocked in Hstep. simpl in Hstep. simplify_eq.
      destruct Hctx as [H1 H2 H3 H4 H5 H6 H7 H8 H9 H10].
      destruct (H2 Hst) as (id & p & Hc & Hr & Hnc).
      split; [..|by simpl]; simpl; rewrite ?Hc.
      * done.
      * done.
      * intros ctx Hctx. destruct (H3 ctx Hctx) as (id' & p' & -> & Hb & Hlt & Hs').
        exists id', p'. split; [done|]. split; [done|]. split; [done|].
        destruct Hs' as [?|[Hs'|?]]; [by left| |].
        -- right; right. rewrite Hc in Hs'. simplify_eq. apply elem_of_app. right.
           by apply list_elem_of_singleton.
        -- right; right. apply elem_of_app. by left.
      * intros id' [Hin|Hin%list_elem_of_singleton]%elem_of_app; [eauto|]. simplify_eq.
        destruct (H3 _ Hr) as (id' & p' & ? & _ & Hlt & _). by simplify_eq.
      * done.
      * done.
      * done.
      * done.
      * intros r f ctx Hin Hph. destruct (H9 r f ctx Hin Hph) as (id' & p' & -> & Hb & Hs').
        exists id', p'. split; [done|]. split; [done|].
        destruct Hs' as [?|[Hs'|?]]; [by left| |].
        -- right; right. rewrite Hc in Hs'. simplify_eq. apply elem_of_app. right.
           by apply list_elem_of_singleton.
        -- right; right. apply elem_of_app. by left.
    + unfold stopped in Hstep. simpl in Hstep. simplify_eq.
      destruct Hctx as [H1 H2 H3 H4 H5 H6 H7 H8 H9 H10].
      split; [..|by simpl]; simpl; try done.
      * intros Hs. by rewrite Hs in Hst.
      * intros ctx Hctx. destruct (H3 ctx Hctx) as (id' & p' & -> & Hb & Hlt & Hs').
        exists id', p'. split; [done|]. split; [done|]. split; [lia|].
        destruct Hs' as [?|[Hs'|?]]; [left; apply elem_of_union; by right|by right; left|by right; right].
      * intros id Hin%H4. lia.
      * intros w Hin%H5. lia.
      * intros id [Hx%elem_of_singleton|Hin%H6]%elem_of_union; subst; lia.
      * intros r f ctx Hin Hph. destruct (H9 r f ctx Hin Hph) as (id' & p' & -> & Hb & Hs').
        exists id', p'. split; [done|]. split; [done|].
        destruct Hs' as [?|[Hs'|?]]; [left; apply elem_of_union; by right|by right; left|by right; right].
  - destruct (stopping σ !! i) as [cancel|] eqn:Ei; [|done].
    unfold stopUnlocked, cron.Stop in Hstep.
    destruct Hctx as [H1 H2 H3 H4 H5 H6 H7 H8 H9 H10].
    pose proof (list_elem_of_lookup_2 _ _ _ Ei) as Hown.
    set (rt1 := Info (logger (sched σ)) "scheduler stopping" [] (rt σ)) in *.
    set (rt2 := match cancel with Some c => runtime.cancel c rt1 | None => rt1 end) in *.
    assert (nextCtx rt2 = nextCtx (rt σ)) as N2 by (by destruct cancel).
    assert (∀ id, id ∈ cancelled rt2 ↔ id ∈ cancelled (rt σ) ∨ cancel = Some id) as C2.
    { intros id. destruct cancel as [c|]; simpl.
      - rewrite elem_of_union, elem_of_singleton. split; intros [?|?]; simplify_eq; eauto.
      - split; [eauto|]. by intros [?|?]. }
    assert (∃ c rt3, (if cron.running (cronOf (sched σ))
                      then (cron.withRunning false (cronOf (sched σ)),
                            cron.Info (cron.logger (cronOf (sched σ))) "stop" [] rt2)
                      else (cronOf (sched σ), rt2)) = (c, rt3)
              ∧ cron.running c = false ∧ cron.jobWaiter c = cron.jobWaiter (cronOf (sched σ))
              ∧ cron.waiters c = cron.waiters (cronOf (sched σ))
              ∧ nextCtx rt3 = nextCtx rt2 ∧ cancelled rt3 = cancelled rt2)
      as (c & rt3 & Hs & E1 & E2 & E3 & N3 & C3).
    { destruct (cron.running (cronOf (sched σ))) eqn:Hrun.
      - do 2 eexists. split; [done|]. simpl.
        destruct (quiet_Info _ "stop" [] rt2 (cfg_logger _ Hcfg)) as (_ & ? & ? & _). done.
      - do 2 eexists. split; [done|]. done. }
    rewrite Hs in Hstep. simpl in Hstep. simplify_eq.
    split; [..|by simpl]; simpl; rewrite ?E1, ?E2, ?E3, ?N3, ?C3, ?N2.
    + done.
    + intros Hst. destruct (H2 Hst) as (id & p & Hc & Hr & Hnc). exists id, p.
      split; [done|]. split; [done|]. rewrite C2. intros [?|Hx]; [done|]. subst cancel.
      destruct (H7 id Hc) as [Hns _]. by apply Hns.
    + intros ctx Hctx. destruct (H3 ctx Hctx) as (id' & p' & -> & Hb & Hlt & Hs').
      exists id', p'. split; [done|]. split; [done|]. split; [lia|]. rewrite C2.
      destruct Hs' as [?|[Hs'|[Hx|?]%(elem_of_delete_other _ _ _ _ Ei)]]; subst; eauto.
    + intros id Hin%elem_of_delete_sub. assert (id < nextCtx (rt σ))%nat; [|lia]. by apply H4.
    + intros w [Hin|Hin%list_elem_of_singleton]%elem_of_app.
      * apply H5 in Hin. lia.
      * subst w. simpl. lia.
    + intros id [Hin|Hx]%C2; [|subst cancel].
      * apply H6 in Hin. lia.
      * assert (id < nextCtx (rt σ))%nat; [|lia]. by apply H4.
    + intros id Hc. destruct (H7 id Hc) as [Hns Hnw]. split.
      * intros Hin%elem_of_delete_sub. by apply Hns.
      * intros w [Hin|Hin%list_elem_of_singleton]%elem_of_app; [eauto|].
        subst w. simpl. intros Heq.
        destruct (started (sched σ)); [|by rewrite H1 in Hc].
        destruct (H2 eq_refl) as (id' & p & Hc' & Hr & _). rewrite Hc in Hc'. simplify_eq.
        destruct (H3 _ Hr) as (id'' & p'' & ? & _ & Hlt & _). simplify_eq. lia.
    + intros [|Hne]; [done|]. apply H8. by right.
    + intros r f ctx Hin Hph. destruct (H9 r f ctx Hin Hph) as (id' & p' & -> & Hb & Hs').
      exists id', p'. split; [done|]. split; [done|]. rewrite C2.
      destruct Hs' as [?|[Hs'|[Hx|?]%(elem_of_delete_other _ _ _ _ Ei)]]; subst; eauto.
  - simplify_eq. eapply contexts_control; [|exact Hctx]. done.
  - simplify_eq. eapply contexts_control; [|exact Hctx]. done.
  - destruct (cron.running (cronOf (sched σ))) eqn:Hrun; [|done].
    destruct (wake_spec (cronOf (sched σ)) (rt σ) (cfg_logger _ Hcfg))
      as (js & E1 & E2 & E3 & _ & Hq).
    destruct (cron.wake _ _) as [c rt']. simpl in *. simplify_eq.
    destruct Hq as (_ & Q1 & Q2 & _).
    destruct Hctx as [H1 H2 H3 H4 H5 H6 H7 H8 H9 H10].
    split; [..|by simpl]; simpl; rewrite ?E1, ?E2, ?E3, ?Q1, ?Q2; try done.
    + intros _. apply H8. by left.
    + intros r f ctx [Hin|Hin]%elem_of_app Hph; [eauto|].
      apply list_elem_of_lookup in Hin as [i Hi]. rewrite list_lookup_imap in Hi.
      destruct (js !! i); simplify_eq/=.
  - destruct (begin x (sched σ) (rt σ)) as [[s' rt']|] eqn:Hb; [|done]. simplify_eq.
    unfold begin in Hb. destruct (findRun x (cronOf (sched σ))) as [r|] eqn:Hf; [|done].
    apply findRun_Some in Hf as [Hin Hx]. destruct (cfg_runs _ Hcfg r Hin) as [Had _].
    destruct (cron.phase r); [|done].
    pose proof (enter_quiet (cron.job r) (rt σ) Had) as Hq.
    destruct Hctx as [H1 H2 H3 H4 H5 H6 H7 H8 H9 H10].
    assert (cron.jobWaiter (cronOf (sched σ)) ≠ []) as Hne.
    { intros Hnil. rewrite Hnil in Hin. by apply elem_of_nil in Hin. }
    destruct (cron.enter (cron.job r) (rt σ)) as [[fn|] rt1]; simplify_eq; simpl in *;
      destruct Hq as (_ & Q1 & Q2 & _).
    + split; simpl; rewrite ?Q1, ?Q2; try done.
      * intros _. apply H8. by right.
      * intros r' f ctx (r0 & Hr0 & _ & _ & [[-> _]|[_ Hph']])%elem_of_setPhase Hph; [eauto|].
        rewrite Hph' in Hph. simplify_eq.
        destruct (H8 (or_intror Hne)) as [ctx Hctx]. unfold jobContext. rewrite Hctx.
        destruct (H3 ctx Hctx) as (id & p & -> & Hb & _ & Hs). eauto 10.
    + split; simpl; rewrite ?Q1, ?Q2; try done.
      * intros _. apply H8. by right.
      * intros r' f ctx [Hr' _]%elem_of_dropRun Hph. eauto.
  - destruct (finish x o (sched σ) (rt σ)) as [[s' rt']|] eqn:Hb; [|done]. simplify_eq.
    unfold finish in Hb. destruct (findRun x (cronOf (sched σ))) as [r|] eqn:Hf; [|done].
    apply findRun_Some in Hf as [Hin Hx]. destruct (cfg_runs _ Hcfg r Hin) as [Had (l & j & Hrec & _)].
    destruct (cron.phase r); [done|].
    pose proof (leave_quiet (cron.job r) o (rt σ) Had) as Hq.
    pose proof (leave_recovered l j o (rt σ)) as Hret. rewrite <- Hrec in Hret.
    destruct Hctx as [H1 H2 H3 H4 H5 H6 H7 H8 H9 H10].
    assert (cron.jobWaiter (cronOf (sched σ)) ≠ []) as Hne.
    { intros Hnil. rewrite Hnil in Hin. by apply elem_of_nil in Hin. }
    destruct (cron.leave (cron.job r) o (rt σ)) as [o' rt1]; simpl in *. subst o'. simplify_eq.
    destruct Hq as (_ & Q1 & Q2 & _).
    split; [..|by simpl]; simpl; rewrite ?Q1, ?Q2; try done.
    + intros _. apply H8. by right.
    + intros r' f' ctx' [Hr' _]%elem_of_dropRun Hph. eauto.
  - destruct (release t (cronOf (sched σ))) as [c|] eqn:Hb; [|done]. simplify_eq.
    unfold release in Hb. destruct (cron.jobWaiter (cronOf (sched σ))) eqn:Hj; [|done].
    destruct (existsb _ _); [|done]. simplify_eq.
    destruct Hctx as [H1 H2 H3 H4 H5 H6 H7 H8 H9 H10].
    split; [..|by simpl]; simpl; rewrite ?Hj; try done.
    + intros w (w0 & Hw0 & ->)%elem_of_waiters_map. eauto.
    + intros id Hc. destruct (H7 id Hc) as [Hns Hnw]. split; [done|].
      intros w (w0 & Hw0 & ->)%elem_of_waiters_map. eauto.
    + intros [?|?]; [|done]. apply H8. by left.
    + intros r f ctx Hx. by apply elem_of_nil in Hx.
  - destruct (cancelToken t (cronOf (sched σ)) (rt σ)) as [[c rt']|] eqn:Hb; [|done]. simplify_eq.
    unfold cancelToken in Hb. destruct (existsb _ _) eqn:Hex; [|done]. simplify_eq.
    apply existsb_token in Hex as (w & Hw & Ht & _).
    destruct Hctx as [H1 H2 H3 H4 H5 H6 H7 H8 H9 H10].
    split; [..|by simpl]; simpl; try done.
    + intros Hst. destruct (H2 Hst) as (id & p & Hc & Hr & Hnc). exists id, p.
      split; [done|]. split; [done|]. rewrite elem_of_union, elem_of_singleton.
      intros [Heq|?]; [|done]. destruct (H7 id Hc) as [_ Hnw]. apply (Hnw w Hw). congruence.
    + intros ctx Hctx. destruct (H3 ctx Hctx) as (id' & p' & -> & Hb & Hlt & Hs').
      exists id', p'. split; [done|]. split; [done|]. split; [done|].
      destruct Hs' as [?|[Hs'|?]]; [left; apply elem_of_union; by right|by right; left|by right; right].
    + intros w' Hin%elem_of_filter_list. eauto.
    + intros id [Hx%elem_of_singleton|Hin]%elem_of_union; [|eauto]. subst. eauto.
    + intros id Hc. destruct (H7 id Hc) as [Hns Hnw]. split; [done|].
      intros w' Hin%elem_of_filter_list. eauto.
    + intros r f ctx Hin Hph. destruct (H9 r f ctx Hin Hph) as (id' & p' & -> & Hb & Hs').
      exists id', p'. split; [done|]. split; [done|].
      destruct Hs' as [?|[Hs'|?]]; [left; apply elem_of_union; by right|by right; left|by right; right].
Qed.

Lemma reachable_contexts : ∀ σ, reachable σ → contexts σ.
Proof.
  apply reachable_induction.
  - apply contexts_init.
  - intros σ e σ' Hr Hc Hs. eapply contexts_step; eauto using reachable_configured.
Qed.
End Contexts.

(** ** Listings of the registry *)

Section Listings.
Context `{Host}.

Lemma named_pairs name (kvs : list (string * Job)) :
  (∀ k j, (k, j) ∈ kvs → Name j = k) →
  List.length (named name kvs.*2) = List.length (filter (λ k, k = name) kvs.*1).
Proof.
  unfold named. induction kvs as [|[k j] kvs IH]; intros Hn; [done|].
  assert (Name j = k) as Hk by (apply Hn; left).
  assert (List.length (filter (λ j, Name j = name) kvs.*2)
          = List.length (filter (λ k, k = name) kvs.*1)) as IH'.
  { apply IH. intros k' j' Hin. apply Hn. by right. }
  rewrite !fmap_cons, !filter_cons. cbn [fst snd]. rewrite Hk.
  destruct (decide (k = name)); cbn [List.length]; by rewrite IH'.
Qed.

Lemma NoDup_filter_eq (name : string) (ks : list string) :
  NoDup ks →
  List.length (filter (λ k, k = name) ks) = if decide (name ∈ ks) then 1%nat else 0%nat.
Proof.
  induction 1 as [|k ks Hk Hnd IH]; simpl.
  - destruct (decide (name ∈ [])) as [Hin|]; [by apply elem_of_nil in Hin|done].
  - rewrite filter_cons. destruct (decide (k = name)) as [->|Hne]; simpl; rewrite IH.
    + destruct (decide (name ∈ ks)); [done|].
      destruct (decide (name ∈ name :: ks)) as [|Hn]; [done|]. exfalso. apply Hn. left.
    + destruct (decide (name ∈ ks)) as [Hin|Hnin].
      * destruct (decide (name ∈ k :: ks)) as [|Hn]; [done|]. exfalso. apply Hn. by right.
      * destruct (decide (name ∈ k :: ks)) as [Hin|]; [|done].
        apply elem_of_cons in Hin as [?|?]; congruence.
Qed.

(** In every listing a registered name shows once and any other name not
    at all. *)
Lemma listing_named σ name l :
  registered σ → listing (sched σ) l →
  List.length (named name l)
  = match jobs (sched σ) !! name with Some _ => 1%nat | None => 0%nat end.
Proof.
  intros Hreg Hl. unfold listing in Hl. unfold named. rewrite Hl. unfold Jobs.
  fold (named name (map_to_list (jobs (sched σ))).*2).
  rewrite named_pairs.
  - rewrite NoDup_filter_eq by apply NoDup_fst_map_to_list.
    destruct (jobs (sched σ) !! name) as [j|] eqn:E.
    + destruct (decide _) as [|Hn]; [done|]. exfalso. apply Hn.
      apply list_elem_of_fmap. exists (name, j). split; [done|]. by apply elem_of_map_to_list.
    + destruct (decide _) as [Hin|]; [|done]. exfalso.
      apply list_elem_of_fmap in Hin as ([k j] & -> & Hin). apply elem_of_map_to_list in Hin.
      simpl in E. congruence.
  - intros k j Hin%elem_of_map_to_list. by eapply reg_names.
Qed.

Lemma listing_length s l : listing s l → List.length l = size (jobs s).
Proof.
  unfold listing, Jobs. intros ->. rewrite length_fmap. apply length_map_to_list.
Qed.

Lemma listing_elem s l j : listing s l → j ∈ l ↔ ∃ name, jobs s !! name = Some j.
Proof.
  unfold listing, Jobs. intros ->. rewrite list_elem_of_fmap. split.
  - intros ([k j'] & -> & Hin). apply elem_of_map_to_list in Hin. eauto.
  - intros [name Hn]. exists (name, j). split; [done|]. by apply elem_of_map_to_list.
Qed.

Lemma listing_Jobs s : listing s (Jobs s).
Proof. by unfold listing. Qed.

End Listings.

(** ** Registration, removal, listing and the life cycle *)

Section Registration.
Context `{Host}.

(** [Every] is [Cron] on the schedule string it builds. *)
Lemma Every_Cron name interval fn s rt :
  Every name interval fn s rt
  = Cron name ("@every " +:+ Duration_String interval) fn s rt.
Proof. reflexivity. Qed.

(** What [Cron] does, by what the parser says of the expression. *)
Lemma Cron_spec name expr fn s rt :
  match cron.parser (cronOf s) expr with
  | cron.Parsed sch =>
      ∃ s' rt', Cron name expr fn s rt = (Nil, s', rt')
        ∧ jobs s' = <[name := {| Name := name; Schedule := expr;
                                 EntryID := cron.nextID (cronOf s) + 1 |}]> (jobs s)
        ∧ entryIndex (cron.entries (cronOf s'))
          = entryIndex (cron.entries (cronOf s)) ++ [(cron.nextID (cronOf s) + 1, sch)]
  | cron.Rejected err => Cron name expr fn s rt = (Err err, s, rt)
  | cron.ParsePanic v => Cron name expr fn s rt = (Panic v, s, rt)
  end.
Proof.
  unfold Cron. pose proof (AddFunc_spec expr (wrappedFn fn) (cronOf s) rt) as Hadd.
  destruct (cron.parser (cronOf s) expr) as [sch|err|v].
  - destruct Hadd as (c' & rt' & -> & Hidx & _). do 2 eexists. split; [done|]. by split.
  - rewrite Hadd. by rewrite withCron_id.
  - rewrite Hadd. by rewrite withCron_id.
Qed.

(** The standard parser never panics on the string [Every] builds, which
    has no zone prefix. *)
Lemma every_no_panic d v : cron.standardParser ("@every " +:+ d) ≠ cron.ParsePanic v.
Proof.
  unfold cron.standardParser, cron.Parse. simpl.
  unfold cron.parseDescriptor. simpl. change ("" +:+ d)%string with d.
  assert (gostrings.HasPrefix d "" = true) as -> by (by destruct d).
  by destruct (ParseDuration d).
Qed.

(** A call of [Cron] is a step of the system. *)
Lemma Cron_step σ name expr fn :
  reachable σ →
  step σ (CallCron name expr fn)
  = Some {| sched := (Cron name expr fn (sched σ) (rt σ)).1.2;
            rt := (Cron name expr fn (sched σ) (rt σ)).2;
            stopping := stopping σ |}.
Proof.
  intros Hr. unfold step. rewrite (cfg_alive _ (reachable_configured _ Hr)).
  by destruct (Cron name expr fn (sched σ) (rt σ)) as [[r s'] rt'].
Qed.

Lemma second_registration σ name expr fn :
  reachable σ → is_Some (jobs (sched σ) !! name) →
  let '(r, s', rt') := Cron name expr fn (sched σ) (rt σ) in
  (r = Nil ↔ ∃ sch, cron.standardParser expr = cron.Parsed sch)
  ∧ (r = Nil →
     jobs s' = <[name := {| Name := name; Schedule := expr;
                            EntryID := cron.nextID (cronOf (sched σ)) + 1 |}]> (jobs (sched σ)))
  ∧ (r ≠ Nil → s' = sched σ ∧ rt' = rt σ)
  ∧ ∀ l, listing s' l → List.length (named name l) = 1%nat.
Proof.
  intros Hr [old Hold].
  pose proof (Cron_step σ name expr fn Hr) as Hstep.
  pose proof (Cron_spec name expr fn (sched σ) (rt σ)) as Hspec.
  rewrite (cfg_parser _ (reachable_configured _ Hr)) in Hspec.
  destruct (Cron name expr fn (sched σ) (rt σ)) as [[r s'] rt'] eqn:E. simpl in Hstep.
  assert (is_Some (jobs s' !! name)) as [new Hnew].
  { destruct (cron.standardParser expr) as [sch|err|v].
    - destruct Hspec as (s1 & rt1 & ? & Hj & _). simplify_eq. rewrite Hj, lookup_insert_eq. eauto.
    - simplify_eq. eauto.
    - simplify_eq. eauto. }
  split; [|split; [|split]].
  - destruct (cron.standardParser expr) as [sch|err|v].
    + destruct Hspec as (s1 & rt1 & ? & _). simplify_eq. split; eauto.
    + simplify_eq. split; [done|]. by intros [? ?].
    + simplify_eq. split; [done|]. by intros [? ?].
  - intros ->. destruct (cron.standardParser expr) as [sch|err|v]; [|done|done].
    destruct Hspec as (s1 & rt1 & ? & ? & _). by simplify_eq.
  - intros Hne. destruct (cron.standardParser expr) as [sch|err|v].
    + destruct Hspec as (s1 & rt1 & ? & _). by simplify_eq.
    + by simplify_eq.
    + by simplify_eq.
  - intros l Hl.
    pose proof (reachable_registered _ (reachable_step _ _ _ Hr Hstep)) as Hreg.
    rewrite (listing_named _ name l Hreg Hl). simpl. by rewrite Hnew.
Qed.

(** C1, as amended. A second registration under a name that is already
    in the registry is not refused for the name: [Every] and [Cron] return
    nil exactly when the library accepts the schedule, and the new job
    then takes the place of the old one under that name; otherwise the
    scheduler is left as it was. Either way every listing of the jobs
    afterwards holds exactly one job of that name. *)
Theorem C1_second_registration_replaces σ name :
  reachable σ → is_Some (jobs (sched σ) !! name) →
  (∀ interval fn,
     let spec := ("@every " +:+ Duration_String interval)%string in
     let '(r, s', rt') := Every name interval fn (sched σ) (rt σ) in
     (r = Nil ↔ ∃ sch, cron.standardParser spec = cron.Parsed sch)
     ∧ (r = Nil →
        jobs s' = <[name := {| Name := name; Schedule := spec;
                               EntryID := cron.nextID (cronOf (sched σ)) + 1 |}]>
                    (jobs (sched σ)))
     ∧ (r ≠ Nil → s' = sched σ ∧ rt' = rt σ)
     ∧ ∀ l, listing s' l → List.length (named name l) = 1%nat)
  ∧ (∀ expr fn,
     let '(r, s', rt') := Cron name expr fn (sched σ) (rt σ) in
     (r = Nil ↔ ∃ sch, cron.standardParser expr = cron.Parsed sch)
     ∧ (r = Nil →
        jobs s' = <[name := {| Name := name; Schedule := expr;
                               EntryID := cron.nextID (cronOf (sched σ)) + 1 |}]>
                    (jobs (sched σ)))
     ∧ (r ≠ Nil → s' = sched σ ∧ rt' = rt σ)
     ∧ ∀ l, listing s' l → List.length (named name l) = 1%nat).
Proof.
  intros Hr Hreg. split.
  - intros interval fn. simpl. rewrite Every_Cron. by apply second_registration.
  - intros expr fn. by apply second_registration.
Qed.

(** C2, as amended. Whatever the period, a call of [Every] either returns
    nil and stores the job under its name, or fails and leaves the
    scheduler and the run time exactly as they were, so that the listings
    keep their length. A period that is not positive is no reason to
    fail. *)
Theorem C2_failed_every_changes_nothing name interval fn s rt :
  let spec := ("@every " +:+ Duration_String interval)%string in
  let '(r, s', rt') := Every name interval fn s rt in
  (r = Nil
   ∧ jobs s' = <[name := {| Name := name; Schedule := spec;
                            EntryID := cron.nextID (cronOf s) + 1 |}]> (jobs s))
  ∨ (r ≠ Nil ∧ s' = s ∧ rt' = rt
     ∧ ∀ l l', listing s l → listing s' l' → List.length l' = List.length l).
Proof.
  simpl. rewrite Every_Cron.
  pose proof (Cron_spec name ("@every " +:+ Duration_String interval) fn s rt) as Hspec.
  destruct (cron.parser (cronOf s) _) as [sch|err|v].
  - destruct Hspec as (s1 & rt1 & -> & Hj & _). by left.
  - rewrite Hspec. right. repeat split; try done.
    intros l l' Hl Hl'. by rewrite (listing_length _ _ Hl), (listing_length _ _ Hl').
  - rewrite Hspec. right. repeat split; try done.
    intros l l' Hl Hl'. by rewrite (listing_length _ _ Hl), (listing_length _ _ Hl').
Qed.

(** C3, as amended. Each job of a listing carries three things: the name
    it is registered under, the schedule string the library parsed when
    it was registered, and the id of its entry in the library. (The next
    activation is kept by the library in that entry and is not part of
    the job.) *)
Theorem C3_job_carries_name_schedule_entry σ l j :
  reachable σ → listing (sched σ) l → j ∈ l →
  jobs (sched σ) !! Name j = Some j
  ∧ ∃ e, e ∈ cron.entries (cronOf (sched σ))
         ∧ cron.ID e = EntryID j
         ∧ cron.standardParser (Schedule j) = cron.Parsed (cron.EntrySchedule e).
Proof.
  intros Hr Hl Hj. apply (listing_elem _ _ _ Hl) in Hj as [name Hn].
  pose proof (reachable_registered _ Hr) as Hreg.
  pose proof (reg_names _ Hreg _ _ Hn) as Hname. rewrite Hname. split; [done|].
  destruct (reg_entry _ Hreg _ _ Hn) as (sch & Hp & Hin).
  rewrite (cfg_parser _ (reachable_configured _ Hr)) in Hp.
  apply list_elem_of_fmap in Hin as (e & Heq & He). simplify_eq. eauto.
Qed.

(** C7. [Stop] on a scheduler that is not started (one fresh from [New] is
    not) answers with a context that is already done and changes nothing
    in the scheduler; a second [Stop] does the same. After any [Stop] the
    scheduler is not started, so the next [Stop] is of this kind. *)
Theorem C7_stop_when_stopped s rt :
  started s = false →
  (let '(tok, s1, rt1) := Stop s rt in
   Done rt1 tok = true ∧ s1 = s
   ∧ let '(tok', s2, rt2) := Stop s1 rt1 in Done rt2 tok' = true ∧ s2 = s)
  ∧ (∀ opts, started (New opts) = false)
  ∧ (∀ s0 rt0, let '(_, s1, rt1) := Stop s0 rt0 in
               started s1 = false
               ∧ let '(tok', s2, rt2) := Stop s1 rt1 in Done rt2 tok' = true ∧ s2 = s1).
Proof.
  intros Hst. split; [|split].
  - unfold Stop, stopped. rewrite Hst. simpl. rewrite Hst. simpl.
    repeat split; apply orb_true_iff; left; apply bool_decide_eq_true; set_solver.
  - intros opts. unfold New. simpl.
    by destruct (fold_applyOption_run opts
      {| cronOf := cron.New []; logger := slogDefault; location := UTC;
         skipIfRunning := false; jobs := ∅; started := false;
         baseCtx := Some Background; runCtx := None; runCancel := None |}) as (-> & _).
  - intros s0 rt0. unfold Stop, stopped, stopLocked, stopUnlocked, cron.Stop.
    destruct (started s0) eqn:E0; simpl.
    + destruct (cron.running (cronOf s0)); simpl;
        repeat split; apply orb_true_iff; left; apply bool_decide_eq_true; set_solver.
    + rewrite E0. simpl.
      repeat split; apply orb_true_iff; left; apply bool_decide_eq_true; set_solver.
Qed.

(** C8. [Start] twice in a row: both calls return, the scheduler is
    running after each, and the second call changes nothing at all, the
    registry least of all. A scheduler fresh from [New] is not running,
    and none is after [Stop]. *)
Theorem C8_start_is_idempotent opts s rt :
  let '(o1, s1, rt1) := Start s rt in
  let '(o2, s2, rt2) := Start s1 rt1 in
  o1 = Returns ∧ o2 = Returns
  ∧ Running s1 = true ∧ Running s2 = true
  ∧ s2 = s1 ∧ rt2 = rt1
  ∧ jobs s1 = jobs s ∧ jobs s2 = jobs s1
  ∧ Running (New opts) = false
  ∧ Running (Stop s rt).1.2 = false.
Proof.
  assert (Running (New opts) = false) as HN.
  { unfold Running, New. simpl.
    by destruct (fold_applyOption_run opts
      {| cronOf := cron.New []; logger := slogDefault; location := UTC;
         skipIfRunning := false; jobs := ∅; started := false;
         baseCtx := Some Background; runCtx := None; runCancel := None |}) as (-> & _). }
  assert (Running (Stop s rt).1.2 = false) as HS.
  { unfold Running, Stop, stopped, stopLocked, stopUnlocked, cron.Stop.
    destruct (started s) eqn:E; simpl; [|done]. by destruct (cron.running (cronOf s)). }
  unfold Running in *.
  destruct (Start s rt) as [[o1 s1] rt1] eqn:E1.
  assert (o1 = Returns ∧ started s1 = true ∧ jobs s1 = jobs s) as (-> & Hst & Hj).
  { unfold Start in E1. destruct (started s) eqn:E; [by simplify_eq|].
    destruct (baseContext_Some s) as [p Hp]. rewrite Hp in E1. simpl in E1.
    destruct (cron.Start _ _) as [c rt2]. by simplify_eq. }
  unfold Start. rewrite Hst. by repeat split.
Qed.

(** C9. [Remove] returns true exactly when a job is registered under the
    name. It then takes the job out of the registry, leaving the other
    jobs, and its entry out of the cron. When no job has the name it
    returns false and changes nothing, so the listings are the same. *)
Theorem C9_remove name s rt :
  let '(removed, s', rt') := Remove name s rt in
  (removed = true ↔ is_Some (jobs s !! name))
  ∧ (removed = true →
     jobs s' = delete name (jobs s)
     ∧ ∀ job e, jobs s !! name = Some job → e ∈ cron.entries (cronOf s') →
                cron.ID e ≠ EntryID job)
  ∧ (removed = false → s' = s ∧ rt' = rt ∧ ∀ l, listing s' l ↔ listing s l).
Proof.
  unfold Remove. destruct (jobs s !! name) as [job|] eqn:E.
  - destruct (cron.Remove (EntryID job) (cronOf s) rt) as [c rt1] eqn:Ec.
    split; [split; eauto|]. split; [|done]. intros _. split; [done|].
    intros job' e [= <-] He. simpl in He.
    assert (cron.entries c = List.filter (λ e, negb (cron.ID e =? EntryID job))
                                         (cron.entries (cronOf s))) as Hes.
    { unfold cron.Remove in Ec. destruct (cron.running (cronOf s)); by simplify_eq. }
    rewrite Hes in He. apply list_elem_of_In, filter_In in He as [_ Hne].
    by apply negb_true_iff, Z.eqb_neq in Hne.
  - split; [split; [done|by intros [? ?]]|]. split; [done|]. by intros _.
Qed.

(** C10. The context a job body is handed is never nil. [jobContext]
    answers the run context once [Start] has made one, the base context
    before that, and the background context if there were neither. While
    the scheduler is started the run context is the child that [Start]
    made of the base context, not yet cancelled; every body that is
    running was handed such a child. [WithBaseContext(nil)] changes
    nothing, so the base context of a new scheduler is never nil. *)
Theorem C10_job_context_never_nil σ :
  reachable σ →
  (∀ s, is_Some (jobContext s) ∧ is_Some (baseContext s))
  ∧ (∀ s ctx, runCtx s = Some ctx → jobContext s = Some ctx)
  ∧ (∀ s ctx, runCtx s = None → baseCtx s = Some ctx → jobContext s = Some ctx)
  ∧ (∀ s, runCtx s = None → baseCtx s = None → jobContext s = Some Background)
  ∧ (started (sched σ) = true →
     ∃ id p, jobContext (sched σ) = Some (cancelCtx id p)
             ∧ baseCtx (sched σ) = Some p
             ∧ runCancel (sched σ) = Some id ∧ id ∉ cancelled (rt σ))
  ∧ (∀ r f ctx, r ∈ cron.jobWaiter (cronOf (sched σ)) → cron.phase r = cron.InBody f ctx →
     ∃ id p, ctx = Some (cancelCtx id p) ∧ baseCtx (sched σ) = Some p)
  ∧ (∀ x s' rt' r f ctx, begin x (sched σ) (rt σ) = Some (s', rt') →
     findRun x (cronOf s') = Some r → cron.phase r = cron.InBody f ctx →
     ctx = jobContext (sched σ))
  ∧ (∀ s, applyOption s (WithBaseContext None) = s)
  ∧ baseCtx (New [WithBaseContext None]) = Some Background
  ∧ (∀ opts, is_Some (baseCtx (New opts))).
Proof.
  intros Hr. pose proof (reachable_contexts _ Hr) as Hctx.
  assert (∀ p, baseContext (sched σ) = Some p → baseCtx (sched σ) = Some p) as Hbase.
  { intros p. unfold baseContext. destruct (ctx_base _ Hctx) as [b ->]. done. }
  split; [|split; [|split; [|split; [|split; [|split; [|split; [|split; [|split]]]]]]]].
  - intros s. unfold jobContext, baseContext.
    destruct (runCtx s), (baseCtx s); simpl; eauto.
  - intros s ctx Hc. unfold jobContext. by rewrite Hc.
  - intros s ctx Hc Hb. unfold jobContext. by rewrite Hc, Hb.
  - intros s Hc Hb. unfold jobContext. by rewrite Hc, Hb.
  - intros Hst. destruct (ctx_started _ Hctx Hst) as (id & p & Hc & Hrc & Hnc).
    destruct (ctx_run _ Hctx _ Hrc) as (id' & p' & Heq & Hb & _). simplify_eq.
    exists id', p'. unfold jobContext. rewrite Hrc. eauto.
  - intros r f ctx Hin Hph.
    destruct (ctx_body _ Hctx r f ctx Hin Hph) as (id & p & -> & Hb & _). eauto.
  - intros x s' rt' r f ctx Hb Hf Hph. unfold begin in Hb.
    destruct (findRun x (cronOf (sched σ))) as [r0|] eqn:Hf0; [|done].
    destruct (cron.phase r0) eqn:Hph0; [|done].
    destruct (cron.enter (cron.job r0) (rt σ)) as [[fn|] rt1]; simplify_eq; simpl in *.
    + apply findRun_Some in Hf as [Hin Hx].
      apply elem_of_setPhase in Hin as (r1 & Hr1 & Hrun & _ & [[-> Hne]|[_ Hp]]).
      * done.
      * rewrite Hp in Hph. by simplify_eq.
    + apply findRun_Some in Hf as [Hin Hx]. by apply elem_of_dropRun in Hin as [_ ?].
  - done.
  - done.
  - intros opts. unfold New. simpl.
    destruct (fold_applyOption_run opts
      {| cronOf := cron.New []; logger := slogDefault; location := UTC;
         skipIfRunning := false; jobs := ∅; started := false;
         baseCtx := Some Background; runCtx := None; runCancel := None |}) as (_ & _ & _ & _ & Hb).
    apply Hb. by eexists.
Qed.

End Registration.

(** *** The theorems on schedulers at hand *)

Lemma reachable_oneJob : reachable oneJob.
Proof. apply reachable_after. by vm_compute. Qed.

Lemma reachable_oneJobStarted : reachable oneJobStarted.
Proof. apply reachable_after. by vm_compute. Qed.

Lemma C1_witness :
  reachable oneJob ∧ is_Some (jobs (sched oneJob) !! "job1")
  ∧ (let spec := ("@every " +:+ Duration_String (2 * Second))%string in
     let '(r, s', rt') := Every "job1" (2 * Second) 2%nat (sched oneJob) (rt oneJob) in
     (r = Nil ↔ ∃ sch, cron.standardParser spec = cron.Parsed sch)
     ∧ (r = Nil →
        jobs s' = <["job1" := {| Name := "job1"; Schedule := spec;
                                 EntryID := cron.nextID (cronOf (sched oneJob)) + 1 |}]>
                    (jobs (sched oneJob)))
     ∧ (r ≠ Nil → s' = sched oneJob ∧ rt' = rt oneJob)
     ∧ ∀ l, listing s' l → List.length (named "job1" l) = 1%nat).
Proof.
  assert (is_Some (jobs (sched oneJob) !! "job1")) as Hs by (vm_compute; eauto).
  split; [apply reachable_oneJob|]. split; [exact Hs|].
  exact (proj1 (C1_second_registration_replaces oneJob "job1" reachable_oneJob Hs)
           (2 * Second) 2%nat).
Defined.

(** C1 as stated fails: on a scheduler that already has a job named
    [job1], [Cron] and [Every] under that name return nil, not an
    error. *)
Lemma C1_counterexample :
  is_Some (jobs (sched oneJob) !! "job1")
  ∧ (Cron "job1" "@every 1s" 2%nat (sched oneJob) (rt oneJob)).1.1 = Nil
  ∧ (Every "job1" Second 2%nat (sched oneJob) (rt oneJob)).1.1 = Nil.
Proof. split; [vm_compute; eauto|]. split; by vm_compute. Qed.

(** C2 as stated fails: [Every] with a period of zero, or of minus five
    seconds, returns nil and the registry grows by the job. *)
Lemma C2_counterexample :
  (Every "tick" 0 1%nat (New []) (boot 0)).1.1 = Nil
  ∧ (Every "tick" (-5 * Second) 1%nat (New []) (boot 0)).1.1 = Nil
  ∧ List.length (Jobs (New [])) = 0%nat
  ∧ List.length (Jobs (Every "tick" 0 1%nat (New []) (boot 0)).1.2) = 1%nat
  ∧ Schedule <$> Jobs (Every "tick" 0 1%nat (New []) (boot 0)).1.2 = ["@every 0s"%string].
Proof. repeat split; by vm_compute. Qed.

Lemma C3_witness :
  reachable oneJob ∧ listing (sched oneJob) (Jobs (sched oneJob))
  ∧ {| Name := "job1"; Schedule := "@every 1s"; EntryID := 1 |} ∈ Jobs (sched oneJob)
  ∧ (jobs (sched oneJob) !! "job1"
       = Some {| Name := "job1"; Schedule := "@every 1s"; EntryID := 1 |}
     ∧ ∃ e, e ∈ cron.entries (cronOf (sched oneJob))
            ∧ cron.ID e = 1
            ∧ cron.standardParser "@every 1s" = cron.Parsed (cron.EntrySchedule e)).
Proof.
  assert ({| Name := "job1"; Schedule := "@every 1s"; EntryID := 1 |} ∈ Jobs (sched oneJob))
    as Hin by (vm_compute; left).
  split; [apply reachable_oneJob|]. split; [apply listing_Jobs|]. split; [exact Hin|].
  exact (C3_job_carries_name_schedule_entry oneJob (Jobs (sched oneJob))
           {| Name := "job1"; Schedule := "@every 1s"; EntryID := 1 |}
           reachable_oneJob (listing_Jobs _) Hin).
Defined.

(** C3 as stated fails: before and after [Start] the listing is the same
    one job, while the next activation of its entry goes from the zero
    time to the next full second. A job value does not hold it. *)
Lemma C3_counterexample :
  Jobs (sched oneJob) = [{| Name := "job1"; Schedule := "@every 1s"; EntryID := 1 |}]
  ∧ Jobs (sched oneJobStarted) = Jobs (sched oneJob)
  ∧ nextActivation oneJob {| Name := "job1"; Schedule := "@every 1s"; EntryID := 1 |} = Some 0
  ∧ nextActivation oneJobStarted {| Name := "job1"; Schedule := "@every 1s"; EntryID := 1 |}
    = Some Second.
Proof. repeat split; by vm_compute. Qed.

Lemma C7_witness :
  started (New []) = false
  ∧ (let '(tok, s1, rt1) := Stop (New []) (boot 0) in
     Done rt1 tok = true ∧ s1 = New []
     ∧ let '(tok', s2, rt2) := Stop s1 rt1 in Done rt2 tok' = true ∧ s2 = New [])
  ∧ (∀ opts, started (New opts) = false)
  ∧ (∀ s0 rt0, let '(_, s1, rt1) := Stop s0 rt0 in
               started s1 = false
               ∧ let '(tok', s2, rt2) := Stop s1 rt1 in Done rt2 tok' = true ∧ s2 = s1).
Proof.
  split; [reflexivity|]. exact (C7_stop_when_stopped (New []) (boot 0) eq_refl).
Defined.

Lemma C10_witness :
  reachable oneJobStarted
  ∧ started (sched oneJobStarted) = true
  ∧ jobContext (sched oneJobStarted) = Some (cancelCtx 0 Background)
  ∧ (∀ s, is_Some (jobContext s) ∧ is_Some (baseContext s))
  ∧ baseCtx (New [WithBaseContext None]) = Some Background.
Proof.
  pose proof (C10_job_context_never_nil oneJobStarted reachable_oneJobStarted)
    as (H1 & _ & _ & _ & _ & _ & _ & _ & H9 & _).
  split; [apply reachable_oneJobStarted|]. split; [by vm_compute|]. split; [by vm_compute|].
  split; [exact H1 | exact H9].
Defined.

Lemma reachable_oneJobInBody : reachable oneJobInBody.
Proof. apply reachable_after. by vm_compute. Qed.

(** ** Stopping

    The runs the cron has dispatched are numbered in order; the wait group
    of the cron counts those that have not returned. *)

Section Stopping.
Context `{Host}.















End Stopping.



(** In that scheduler the context of [Stop] does get done. While a run is
    in flight the goroutine of the library's [Stop] cannot get through the
    wait group; once both runs are over it does, calls its cancel function,
    and the context is done. *)
Example stop_token_settles :
  let stop := [CallCron "job1" "@every 1s" 1%nat; CallStart; Advance Second; Wake; Begin 0;
               CallStopLocked; Advance Second; Wake; CallStopUnlocked 0%nat] in
  let rest := [Finish 0 Returns; Begin 1; Finish 1 Returns;
               ReleaseWaiter 1%nat; CancelToken 1%nat] in
  possible 0 [WithSkipIfRunning] stop = true
  ∧ possible 0 [WithSkipIfRunning] (stop ++ [ReleaseWaiter 1%nat]) = false
  ∧ possible 0 [WithSkipIfRunning] (stop ++ [Finish 0 Returns; ReleaseWaiter 1%nat]) = false
  ∧ possible 0 [WithSkipIfRunning] (stop ++ [Wake]) = false
  ∧ possible 0 [WithSkipIfRunning] (stop ++ rest) = true
  ∧ Done (rt (after 0 [WithSkipIfRunning] stop)) (cancelCtx 1 Background) = false
  ∧ Done (rt (after 0 [WithSkipIfRunning] (stop ++ rest))) (cancelCtx 1 Background) = true.
Proof. repeat split; by vm_compute. Qed.

(** ** The options of [New] *)

Section Options.
Context `{Host}.

(** The options one by one: each sets its own field and no other. *)
Lemma fold_applyOption_fields opts : ∀ s,
  (Forall (λ o, ∀ l, o ≠ WithLogger l) opts →
     logger (fold_left applyOption opts s) = logger s)
  ∧ (Forall (λ o, ∀ loc, o ≠ WithLocation loc) opts →
     location (fold_left applyOption opts s) = location s)
  ∧ (Forall (λ o, ∀ c, o ≠ WithBaseContext (Some c)) opts →
     baseCtx (fold_left applyOption opts s) = baseCtx s)
  ∧ (skipIfRunning (fold_left applyOption opts s) = true
     ↔ skipIfRunning s = true ∨ WithSkipIfRunning ∈ opts)
  ∧ cronOf (fold_left applyOption opts s) = cronOf s.
Proof.
  induction opts as [|o opts IH]; intros s; simpl.
  - split; [done|]. split; [done|]. split; [done|]. split; [|done].
    split; [by left|]. intros [?|Hin]; [done|]. by apply elem_of_nil in Hin.
  - destruct (IH (applyOption s o)) as (I1 & I2 & I3 & I4 & I5).
    split; [|split; [|split; [|split]]].
    + intros [Ho Hf]%Forall_cons. rewrite (I1 Hf). destruct o as [[c|]|l|loc|]; try done.
      by destruct (Ho l).
    + intros [Ho Hf]%Forall_cons. rewrite (I2 Hf). destruct o as [[c|]|l|loc|]; try done.
      by destruct (Ho loc).
    + intros [Ho Hf]%Forall_cons. rewrite (I3 Hf). destruct o as [[c|]|l|loc|]; try done.
      by destruct (Ho c).
    + rewrite I4, elem_of_cons. destruct o as [[c|]|l|loc|]; simpl; intuition congruence.
    + rewrite I5. by destruct o as [[c|]|l|loc|].
Qed.

(** X1. [New] hands the cron the scheduler's own settings, whatever the
    options: its logger is the adapter of the scheduler's logger, its
    location the scheduler's, and its chain starts with the recovering
    wrapper, followed by the skipping wrapper exactly when
    [WithSkipIfRunning] is among the options. The new scheduler has no
    job, no entry, and neither it nor its cron is running. *)
Theorem New_configures_cron opts :
  let s := New opts in
  let a := cronLogAdapter (logger s) in
  (skipIfRunning s = true ↔ WithSkipIfRunning ∈ opts)
  ∧ cron.chain (cronOf s)
    = (if skipIfRunning s then [cron.Recover a; cron.SkipIfStillRunning a]
       else [cron.Recover a])
  ∧ cron.logger (cronOf s) = a
  ∧ cron.location (cronOf s) = location s
  ∧ cron.entries (cronOf s) = [] ∧ cron.running (cronOf s) = false
  ∧ Jobs s = [] ∧ Running s = false.
Proof.
  unfold New. simpl.
  set (s0 := {| cronOf := cron.New []; logger := slogDefault; location := UTC;
                skipIfRunning := false; jobs := ∅; started := false;
                baseCtx := Some Background; runCtx := None; runCancel := None |}).
  destruct (fold_applyOption_fields opts s0) as (_ & _ & _ & Hs & _).
  destruct (fold_applyOption_run opts s0) as (Hst & _ & _ & Hj & _).
  set (s := fold_left applyOption opts s0) in *.
  split; [rewrite Hs; simpl; intuition congruence|].
  split; [by destruct (skipIfRunning s)|].
  split; [by destruct (skipIfRunning s)|].
  split; [by destruct (skipIfRunning s)|].
  split; [by destruct (skipIfRunning s)|].
  split; [by destruct (skipIfRunning s)|].
  split; [|done]. unfold Jobs. simpl. rewrite Hj. simpl. by rewrite map_to_list_empty.
Qed.

(** X2. The options are applied in the order given. Of several
    [WithLogger], [WithLocation] or non-nil [WithBaseContext] options the
    last one decides; [WithSkipIfRunning] holds wherever it stands;
    [WithBaseContext(nil)] can be struck out of the list; and what no
    option sets keeps its default: [slog.Default()], UTC, the background
    context, no skipping. *)
Theorem options_apply_in_order opts opts' :
  (∀ l, Forall (λ o, ∀ l', o ≠ WithLogger l') opts' →
        logger (New (opts ++ WithLogger l :: opts')) = l)
  ∧ (∀ loc, Forall (λ o, ∀ loc', o ≠ WithLocation loc') opts' →
        location (New (opts ++ WithLocation loc :: opts')) = loc)
  ∧ (∀ c, Forall (λ o, ∀ c', o ≠ WithBaseContext (Some c')) opts' →
        baseCtx (New (opts ++ WithBaseContext (Some c) :: opts')) = Some c)
  ∧ skipIfRunning (New (opts ++ WithSkipIfRunning :: opts')) = true
  ∧ New (opts ++ WithBaseContext None :: opts') = New (opts ++ opts')
  ∧ (Forall (λ o, ∀ l', o ≠ WithLogger l') opts → logger (New opts) = slogDefault)
  ∧ (Forall (λ o, ∀ loc', o ≠ WithLocation loc') opts → location (New opts) = UTC)
  ∧ (Forall (λ o, ∀ c', o ≠ WithBaseContext (Some c')) opts →
        baseCtx (New opts) = Some Background)
  ∧ (WithSkipIfRunning ∉ opts → skipIfRunning (New opts) = false).
Proof.
  set (s0 := {| cronOf := cron.New []; logger := slogDefault; location := UTC;
                skipIfRunning := false; jobs := ∅; started := false;
                baseCtx := Some Background; runCtx := None; runCancel := None |}).
  assert (∀ os, logger (New os) = logger (fold_left applyOption os s0)
                ∧ location (New os) = location (fold_left applyOption os s0)
                ∧ baseCtx (New os) = baseCtx (fold_left applyOption os s0)
                ∧ skipIfRunning (New os) = skipIfRunning (fold_left applyOption os s0))
    as HN by done.
  split; [|split; [|split; [|split; [|split; [|split; [|split; [|split]]]]]]].
  - intros l Hf. destruct (HN (opts ++ WithLogger l :: opts')) as (-> & _).
    rewrite fold_left_app. cbn [fold_left].
    destruct (fold_applyOption_fields opts'
                (applyOption (fold_left applyOption opts s0) (WithLogger l))) as (E & _).
    by rewrite (E Hf).
  - intros loc Hf. destruct (HN (opts ++ WithLocation loc :: opts')) as (_ & -> & _).
    rewrite fold_left_app. cbn [fold_left].
    destruct (fold_applyOption_fields opts'
                (applyOption (fold_left applyOption opts s0) (WithLocation loc)))
      as (_ & E & _).
    by rewrite (E Hf).
  - intros c Hf. destruct (HN (opts ++ WithBaseContext (Some c) :: opts')) as (_ & _ & -> & _).
    rewrite fold_left_app. cbn [fold_left].
    destruct (fold_applyOption_fields opts'
                (applyOption (fold_left applyOption opts s0) (WithBaseContext (Some c))))
      as (_ & _ & E & _).
    by rewrite (E Hf).
  - destruct (HN (opts ++ WithSkipIfRunning :: opts')) as (_ & _ & _ & ->).
    apply fold_applyOption_fields. right. apply elem_of_app. right. left.
  - unfold New. by rewrite !fold_left_app.
  - intros Hf. destruct (HN opts) as (-> & _).
    destruct (fold_applyOption_fields opts s0) as (E & _). by rewrite (E Hf).
  - intros Hf. destruct (HN opts) as (_ & -> & _).
    destruct (fold_applyOption_fields opts s0) as (_ & E & _). by rewrite (E Hf).
  - intros Hf. destruct (HN opts) as (_ & _ & -> & _).
    destruct (fold_applyOption_fields opts s0) as (_ & _ & E & _). by rewrite (E Hf).
  - intros Hn. destruct (HN opts) as (_ & _ & _ & ->).
    destruct (fold_applyOption_fields opts s0) as (_ & _ & _ & Hs & _).
    destruct (skipIfRunning (fold_left applyOption opts s0)); [|done].
    destruct Hs as [Hs _]. destruct Hs as [?|?]; done.
Qed.

End Options.

(** ** The entries of the cron over time *)

Section Entries.
Context `{Host}.

Lemma step_bookkeeping σ e σ' : step σ e = Some σ' → bookkeeping σ e σ'.
Proof.
  intros Hstep. destruct σ as [s rt stp]. unfold step in Hstep. simpl in Hstep.
  destruct (crashed rt) eqn:Hcr; [done|].
  assert (∀ spec name fn r s' rt',
    match cron.AddFunc spec (wrappedFn fn) (cronOf s) rt with
    | (cron.AddError err, c, rt1) => (Err err, withCron c s, rt1)
    | (cron.AddPanic v, c, rt1) => (Panic v, withCron c s, rt1)
    | (cron.Added entryID, c, rt1) =>
        (Nil, withJobs (<[name := {| Name := name; Schedule := spec; EntryID := entryID |}]>
                         (jobs s)) (withCron c s),
         Debug (logger s) "job scheduled"
           [("name"%string, VString name); ("schedule"%string, VString spec)] rt1)
    end = (r, s', rt') →
    registers e name spec →
    (∀ name' spec', registers e name' spec' → name' = name ∧ spec' = spec) →
    bookkeeping {| sched := s; rt := rt; stopping := stp |} e
                {| sched := s'; rt := rt'; stopping := stp |}) as Hadd.
  { intros spec name fn r s' rt' Heq Hreg Huniq. unfold cron.AddFunc, cron.AddJob in Heq.
    destruct (cron.parser (cronOf s) spec) as [sch|err|v] eqn:Hp.
    - unfold cron.Schedule_ in Heq.
      destruct (cron.Then (cron.chain (cronOf s)) (cron.FuncJob (wrappedFn fn)) rt)
        as [wrapped rt1].
      destruct (cron.running (cronOf s)) eqn:E; simplify_eq;
        eapply (AddedJob _ _ _ name spec sch); simpl; try done.
    - simplify_eq. apply Kept; try done.
      intros n sp sch [-> ->]%Huniq. simpl. by rewrite Hp.
    - simplify_eq. apply Kept; try done.
      intros n sp sch [-> ->]%Huniq. simpl. by rewrite Hp. }
  assert (∀ σ1 σ2,
    (∀ name spec, ¬ registers e name spec) →
    entryIndex (cron.entries (cronOf (sched σ2))) ≡ₚ entryIndex (cron.entries (cronOf (sched σ1))) →
    cron.nextID (cronOf (sched σ2)) = cron.nextID (cronOf (sched σ1)) →
    jobs (sched σ2) = jobs (sched σ1) → bookkeeping σ1 e σ2) as Hkept.
  { intros σ1 σ2 Hno ???. apply Kept; try done. intros n sp sch Hr. by destruct (Hno n sp). }
  destruct e as [name d fn|name expr fn|name| | |i|d|id| |x|x o|t|t].
  - destruct (Every _ _ _ _ _) as [[r s'] rt'] eqn:E. simplify_eq.
    eapply Hadd; [exact E|done|]. by intros n sp [<- <-].
  - destruct (Cron _ _ _ _ _) as [[r s'] rt'] eqn:E. simplify_eq.
    eapply Hadd; [exact E|done|]. by intros n sp [<- <-].
  - destruct (Remove _ _ _) as [[r s'] rt'] eqn:E. simplify_eq. unfold Remove in E.
    destruct (jobs s !! name) as [job|] eqn:Hjob; [|simplify_eq; (apply Hkept; [by intros ?? []|done..])].
    destruct (cron.Remove (EntryID job) (cronOf s) rt) as [c' rt1] eqn:Hrm. simplify_eq.
    eapply (RemovedJob _ _ _ name job); simpl; try done;
      unfold cron.Remove in Hrm; destruct (cron.running (cronOf s)); by simplify_eq.
  - destruct (Start _ _) as [[r s'] rt'] eqn:E. simplify_eq. unfold Start in E.
    destruct (started s); [simplify_eq; (apply Hkept; [by intros ?? []|done..])|].
    destruct (baseContext_Some s) as [p Hp]. rewrite Hp in E. simpl in E.
    unfold cron.Start in E. simpl in E.
    destruct (cron.running (cronOf s)); [simplify_eq; (apply Hkept; [by intros ?? []|done..])|].
    match type of E with context [cron.activate ?l ?n ?es ?r] =>
      pose proof (activate_index l n es r) as Hidx;
      destruct (cron.activate l n es r) as [es' rt1] eqn:Ea end.
    simplify_eq. apply Hkept; simpl; [by intros ?? []| |done|done]. simpl in Hidx. by rewrite Hidx.
  - destruct (started s); simplify_eq; (apply Hkept; [by intros ?? []|done..]).
  - destruct (stp !! i) as [cancel|] eqn:Ei; [|done].
    unfold stopUnlocked, cron.Stop in Hstep. simpl in Hstep.
    destruct (cron.running (cronOf s)); destruct cancel; simplify_eq; (apply Hkept; [by intros ?? []|done..]).
  - simplify_eq. (apply Hkept; [by intros ?? []|done..]).
  - simplify_eq. (apply Hkept; [by intros ?? []|done..]).
  - destruct (cron.running (cronOf s)) eqn:Hrun; [|done].
    unfold cron.wake in Hstep.
    match type of Hstep with context [cron.runDue ?l ?n ?es ?r] =>
        pose proof (runDue_index l n es r) as Hidx;
        destruct (cron.runDue l n es r) as [[es' js] rt'] eqn:E end.
    simpl in *. simplify_eq.
    destruct (startJobs_spec js (cron.withEntries es' (cronOf s)))
      as (E1 & E2 & E3 & E4 & E5 & E6 & E7 & E8 & E9 & E10).
    simpl in *. apply Hkept; simpl; rewrite ?E1, ?E7; [by intros ?? []| |done|done].
    by rewrite Hidx, sortByTime_index.
  - destruct (begin x s rt) as [[s' rt']|] eqn:Hb; [|done]. simplify_eq.
    unfold begin in Hb. destruct (findRun x (cronOf s)) as [r|] eqn:Hf; [|done].
    destruct (cron.phase r); [|done].
    destruct (cron.enter (cron.job r) rt) as [[fn|] rt1]; simplify_eq; (apply Hkept; [by intros ?? []|done..]).
  - destruct (finish x o s rt) as [[s' rt']|] eqn:Hb; [|done]. simplify_eq.
    unfold finish in Hb. destruct (findRun x (cronOf s)) as [r|] eqn:Hf; [|done].
    destruct (cron.phase r); [done|].
    destruct (cron.leave (cron.job r) o rt) as [[|v] rt1]; simplify_eq; (apply Hkept; [by intros ?? []|done..]).
  - destruct (release t (cronOf s)) as [c|] eqn:Hb; [|done]. simplify_eq.
    unfold release in Hb. destruct (cron.jobWaiter (cronOf s)) eqn:Hj; [|done].
    destruct (existsb _ _); [|done]. simplify_eq. (apply Hkept; [by intros ?? []|done..]).
  - destruct (cancelToken t (cronOf s) rt) as [[c rt']|] eqn:Hb; [|done]. simplify_eq.
    unfold cancelToken in Hb. destruct (existsb _ _); [|done]. simplify_eq. (apply Hkept; [by intros ?? []|done..]).
Qed.

Lemma entryIDs_entries σ : entryIDs σ = cron.ID <$> cron.entries (cronOf (sched σ)).
Proof. unfold entryIDs, entryIndex. by rewrite <- list_fmap_compose. Qed.

Lemma ids_filter id0 (es : list cron.Entry) :
  cron.ID <$> List.filter (λ e, negb (cron.ID e =? id0)) es
  = List.filter (λ i, negb (i =? id0)) (cron.ID <$> es).
Proof.
  induction es as [|e es IH]; [done|].
  rewrite fmap_cons. cbn [List.filter].
  destruct (negb (cron.ID e =? id0)); [rewrite fmap_cons|]; by rewrite IH.
Qed.

Lemma elem_of_ids_filter id0 (ids : list Z) id :
  id ∈ List.filter (λ i, negb (i =? id0)) ids ↔ id ∈ ids ∧ id ≠ id0.
Proof.
  rewrite !list_elem_of_In, filter_In, negb_true_iff, Z.eqb_neq. done.
Qed.

Lemma NoDup_ids_filter id0 (ids : list Z) :
  NoDup ids → NoDup (List.filter (λ i, negb (i =? id0)) ids).
Proof.
  induction 1 as [|i ids Hi Hnd IH]; simpl; [constructor|].
  destruct (negb (i =? id0)); [|done]. constructor; [|done].
  intros Hin%elem_of_ids_filter. tauto.
Qed.

Lemma numbered_init now opts : numbered (init now opts).
Proof.
  unfold numbered. rewrite entryIDs_entries. unfold init, New. simpl.
  split; [constructor|]. split; [|done]. intros id Hin. by apply elem_of_nil in Hin.
Qed.

Lemma numbered_step σ e σ' : numbered σ → step σ e = Some σ' → numbered σ'.
Proof.
  intros (Hnd & Hb & H0) Hstep. unfold numbered.
  destruct (step_bookkeeping _ _ _ Hstep)
    as [_ Hidx Hid Hj|name spec sch entry _ _ Hes He _ Hid Hj|name job _ Hjob Hes Hid Hj].
  - assert (entryIDs σ' ≡ₚ entryIDs σ) as Hp by (unfold entryIDs; by rewrite Hidx).
    rewrite Hid. split; [by rewrite Hp|]. split; [|done]. intros id. rewrite Hp. apply Hb.
  - rewrite !entryIDs_entries in *. rewrite Hes, fmap_app, Hid. simpl. rewrite He. split.
    + apply NoDup_app. split; [done|]. split; [|apply NoDup_singleton].
      intros id Hin Hin'%list_elem_of_singleton. apply Hb in Hin. lia.
    + split; [|lia].
      intros id [Hin|Hin%list_elem_of_singleton]%elem_of_app; [apply Hb in Hin|]; lia.
  - rewrite !entryIDs_entries in *. rewrite Hes, ids_filter, Hid. split.
    + by apply NoDup_ids_filter.
    + split; [|done]. intros id [Hin _]%elem_of_ids_filter. by apply Hb.
Qed.

Lemma reachable_numbered σ : reachable σ → numbered σ.
Proof.
  apply reachable_induction.
  - apply numbered_init.
  - intros. by eapply numbered_step.
Qed.

Lemma listing_names σ l :
  registered σ → listing (sched σ) l → Name <$> l ≡ₚ (map_to_list (jobs (sched σ))).*1.
Proof.
  intros Hreg Hl. unfold listing, Jobs in Hl. rewrite Hl, <- list_fmap_compose.
  assert ((Name ∘ snd) <$> map_to_list (jobs (sched σ)) = (map_to_list (jobs (sched σ))).*1)
    as ->; [|done].
  apply Forall_fmap_ext, Forall_forall.
  intros [k j] Hin%elem_of_map_to_list. simpl. by eapply reg_names.
Qed.

(** X6. Entry ids are never shared. In every state the scheduler can be
    in, the entries of the cron carry pairwise distinct ids, all between 1
    and the id handed out last; every registered job holds the id of an
    entry that is there; and in every listing of the jobs the names are
    pairwise distinct and so are the entry ids. *)
Theorem entry_ids_are_unique σ :
  reachable σ →
  NoDup (entryIDs σ)
  ∧ (∀ id, id ∈ entryIDs σ → 1 ≤ id ≤ cron.nextID (cronOf (sched σ)))
  ∧ (∀ name job, jobs (sched σ) !! name = Some job → EntryID job ∈ entryIDs σ)
  ∧ (∀ l, listing (sched σ) l → NoDup (Name <$> l) ∧ NoDup (EntryID <$> l)).
Proof.
  intros Hr. destruct (reachable_numbered _ Hr) as (Hnd & Hb & _).
  pose proof (reachable_registered _ Hr) as Hreg.
  split; [done|]. split; [done|]. split.
  - intros name job Hj. destruct (reg_entry _ Hreg _ _ Hj) as (sch & _ & Hin).
    unfold entryIDs. apply list_elem_of_fmap. by exists (EntryID job, sch).
  - intros l Hl. split.
    + rewrite (listing_names _ _ Hreg Hl). apply NoDup_fst_map_to_list.
    + unfold listing, Jobs in Hl. rewrite Hl, <- list_fmap_compose.
      apply NoDup_fmap_2_strong; [|apply NoDup_map_to_list].
      intros [k1 j1] [k2 j2] H1%elem_of_map_to_list H2%elem_of_map_to_list Heq.
      simpl in Heq. assert (k1 = k2) as -> by (by eapply reg_inj). congruence.
Qed.

Lemma filter_ids_all id0 (es : list cron.Entry) :
  (∀ e, e ∈ es → cron.ID e ≠ id0) →
  List.filter (λ e, negb (cron.ID e =? id0)) es = es.
Proof.
  induction es as [|e es IH]; intros Hall; simpl; [done|].
  assert ((cron.ID e =? id0) = false) as -> by (apply Z.eqb_neq, Hall; left).
  simpl. rewrite IH; [done|]. intros e' He'. apply Hall. by right.
Qed.

(** X3. A registration that the library accepts touches nothing but its
    own name: the registry gets the new job under the name and keeps every
    other name as it was, the cron gets one entry more, after the entries
    it had, which stay as they were with their next activations, and the
    goroutines in flight are not disturbed. If the name was free, every
    listing of the jobs is the old one and the new job. *)
Theorem registration_leaves_the_rest σ e name spec sch σ' :
  reachable σ → registers e name spec →
  cron.standardParser spec = cron.Parsed sch →
  step σ e = Some σ' →
  let job := {| Name := name; Schedule := spec;
                EntryID := cron.nextID (cronOf (sched σ)) + 1 |} in
  jobs (sched σ') !! name = Some job
  ∧ (∀ other, other ≠ name → jobs (sched σ') !! other = jobs (sched σ) !! other)
  ∧ (∃ entry, cron.entries (cronOf (sched σ')) = cron.entries (cronOf (sched σ)) ++ [entry]
              ∧ cron.ID entry = EntryID job ∧ cron.EntrySchedule entry = sch)
  ∧ cron.jobWaiter (cronOf (sched σ')) = cron.jobWaiter (cronOf (sched σ))
  ∧ (jobs (sched σ) !! name = None →
     ∀ l l', listing (sched σ) l → listing (sched σ') l' → l' ≡ₚ (job :: l)).
Proof.
  intros Hr Hreg Hp Hstep job.
  pose proof (cfg_parser _ (reachable_configured _ Hr)) as Hpar.
  assert (cron.jobWaiter (cronOf (sched σ')) = cron.jobWaiter (cronOf (sched σ))) as Hjw.
  { destruct e as [n d fn|n expr fn|n| | |i|d|id| |x|x o|t|t]; try done;
      unfold step in Hstep; rewrite (cfg_alive _ (reachable_configured _ Hr)) in Hstep.
    - destruct (Every _ _ _ _ _) as [[r s'] rt'] eqn:E. simplify_eq. simpl.
      unfold Every in E.
      pose proof (AddFunc_spec ("@every " +:+ Duration_String d) (wrappedFn fn)
                    (cronOf (sched σ)) (rt σ)) as Ha.
      destruct (cron.parser _ _) as [sch'|err|v].
      + destruct Ha as (c' & rt1 & Ha & _ & _ & _ & _ & E2 & _). rewrite Ha in E.
        by simplify_eq.
      + rewrite Ha in E. by simplify_eq.
      + rewrite Ha in E. by simplify_eq.
    - destruct (Cron _ _ _ _ _) as [[r s'] rt'] eqn:E. simplify_eq. simpl.
      unfold Cron in E.
      pose proof (AddFunc_spec expr (wrappedFn fn) (cronOf (sched σ)) (rt σ)) as Ha.
      destruct (cron.parser _ _) as [sch'|err|v].
      + destruct Ha as (c' & rt1 & Ha & _ & _ & _ & _ & E2 & _). rewrite Ha in E.
        by simplify_eq.
      + rewrite Ha in E. by simplify_eq.
      + rewrite Ha in E. by simplify_eq. }
  destruct (step_bookkeeping _ _ _ Hstep)
    as [Hno _ _ _|name' spec' sch' entry Hreg' Hp' Hes He Hsch Hid Hj|name' job' -> _ _ _ _].
  - exfalso. eapply Hno; [exact Hreg|]. by rewrite Hpar.
  - assert (name' = name ∧ spec' = spec) as [-> ->].
    { destruct e as [n d fn|n expr fn|n| | |i|d|id| |x|x o|t|t]; try done;
        destruct Hreg as [<- <-]; by destruct Hreg' as [<- <-]. }
    rewrite Hpar, Hp in Hp'. simplify_eq. rewrite Hj.
    split; [by rewrite lookup_insert_eq|]. split; [by intros; rewrite lookup_insert_ne|].
    split; [by exists entry|]. split; [done|].
    intros Hfresh l l' Hl Hl'. unfold listing, Jobs in *. rewrite Hl, Hl', Hj.
    by rewrite map_to_list_insert.
  - done.
Qed.

(** X4. Registering a job under a free name and removing it again gives
    back the registry and the entries of the cron exactly as they were;
    every listing is the same as before. (The ids go on counting: the next
    registration gets a new one.) *)
Theorem register_then_remove σ name expr fn sch :
  reachable σ → jobs (sched σ) !! name = None →
  cron.standardParser expr = cron.Parsed sch →
  let '(r, s1, rt1) := Cron name expr fn (sched σ) (rt σ) in
  let '(removed, s2, rt2) := Remove name s1 rt1 in
  r = Nil ∧ removed = true
  ∧ jobs s2 = jobs (sched σ)
  ∧ cron.entries (cronOf s2) = cron.entries (cronOf (sched σ))
  ∧ cron.nextID (cronOf s2) = cron.nextID (cronOf (sched σ)) + 1
  ∧ ∀ l, listing s2 l ↔ listing (sched σ) l.
Proof.
  intros Hr Hfresh Hp.
  pose proof (cfg_parser _ (reachable_configured _ Hr)) as Hpar.
  destruct (reachable_numbered _ Hr) as (_ & Hb & _). rewrite entryIDs_entries in Hb.
  unfold Cron, cron.AddFunc, cron.AddJob. rewrite Hpar, Hp. unfold cron.Schedule_.
  destruct (cron.Then _ _ _) as [wrapped rt1].
  assert (∀ e, e ∈ cron.entries (cronOf (sched σ)) →
               cron.ID e ≠ cron.nextID (cronOf (sched σ)) + 1) as Hne.
  { intros e He. assert (cron.ID e ∈ cron.ID <$> cron.entries (cronOf (sched σ))) as Hin
      by (apply list_elem_of_fmap; eauto).
    apply Hb in Hin. lia. }
  destruct (cron.running (cronOf (sched σ))) eqn:Hrun; simpl;
    unfold Remove; simpl; rewrite lookup_insert_eq; simpl;
    unfold cron.Remove; simpl; rewrite ?Hrun; simpl;
    rewrite delete_insert_eq;
    unfold cron.removeEntry; simpl;
    rewrite List.filter_app, (filter_ids_all _ _ Hne); simpl; rewrite Z.eqb_refl; simpl;
    rewrite app_nil_r, (delete_id _ _ Hfresh);
    (split; [done|]; split; [done|]; split; [done|]; split; [done|]; split; [done|]);
    intros l; unfold listing, Jobs; simpl; done.
Qed.

Lemma entryIndex_app es1 es2 : entryIndex (es1 ++ es2) = entryIndex es1 ++ entryIndex es2.
Proof. unfold entryIndex. by rewrite fmap_app. Qed.

Lemma orphaned_step id sch σ e σ' :
  orphaned id sch σ → step σ e = Some σ' → orphaned id sch σ'.
Proof.
  intros (Hin & Hle & Hno) Hstep. unfold orphaned.
  destruct (step_bookkeeping _ _ _ Hstep)
    as [_ Hidx Hid Hj|name spec sch' entry _ _ Hes He _ Hid Hj|name job _ Hjob Hes Hid Hj].
  - rewrite Hidx, Hid, Hj. done.
  - rewrite Hes, entryIndex_app, Hid, Hj. split; [apply elem_of_app; by left|].
    split; [lia|]. intros n j [[_ <-]|[_ Hl]]%lookup_insert_Some; simpl; [lia|eauto].
  - rewrite Hes, Hid, Hj. split.
    + apply elem_of_index_filter. split; [done|]. intros ->. by eapply Hno.
    + split; [done|]. intros n j [_ Hl]%lookup_delete_Some. eauto.
Qed.

Lemma orphaned_steps id sch es : ∀ σ σ',
  orphaned id sch σ → steps σ es = Some σ' → orphaned id sch σ'.
Proof.
  induction es as [|e es IH]; intros σ σ' Ho Hs; simpl in Hs.
  - by simplify_eq.
  - destruct (step σ e) as [σ1|] eqn:E; [|done]. eauto using orphaned_step.
Qed.

Lemma retired_step id σ e σ' : retired id σ → step σ e = Some σ' → retired id σ'.
Proof.
  intros (Hin & Hle & Hno) Hstep. unfold retired.
  destruct (step_bookkeeping _ _ _ Hstep)
    as [_ Hidx Hid Hj|name spec sch' entry _ _ Hes He _ Hid Hj|name job _ Hjob Hes Hid Hj].
  - assert (entryIDs σ' ≡ₚ entryIDs σ) as Hp by (unfold entryIDs; by rewrite Hidx).
    rewrite Hp, Hid, Hj. done.
  - rewrite !entryIDs_entries in *. rewrite Hes, fmap_app, Hid, Hj. simpl. split.
    + intros [?|Hx%list_elem_of_singleton]%elem_of_app; [done|]. lia.
    + split; [lia|]. intros n j [[_ <-]|[_ Hl]]%lookup_insert_Some; simpl; [lia|eauto].
  - rewrite !entryIDs_entries in *. rewrite Hes, ids_filter, Hid, Hj. split.
    + intros [? _]%elem_of_ids_filter. done.
    + split; [done|]. intros n j [_ Hl]%lookup_delete_Some. eauto.
Qed.

Lemma retired_steps id es : ∀ σ σ',
  retired id σ → steps σ es = Some σ' → retired id σ'.
Proof.
  induction es as [|e es IH]; intros σ σ' Ho Hs; simpl in Hs.
  - by simplify_eq.
  - destruct (step σ e) as [σ1|] eqn:E; [|done]. eauto using retired_step.
Qed.

(** X5. A registration under a name that is taken leaves the entry of the
    job it replaces in the cron, and for good: whatever happens afterwards,
    that entry is still there with its schedule, and no job of the registry
    holds its id, so that no [Remove] takes it out. *)
Theorem overwritten_entry_stays σ e name spec sch old σ1 :
  reachable σ → jobs (sched σ) !! name = Some old →
  registers e name spec → cron.standardParser spec = cron.Parsed sch →
  step σ e = Some σ1 →
  ∃ sch0, cron.standardParser (Schedule old) = cron.Parsed sch0
    ∧ ∀ es σ2, steps σ1 es = Some σ2 →
        (EntryID old, sch0) ∈ entryIndex (cron.entries (cronOf (sched σ2)))
        ∧ ∀ n job, jobs (sched σ2) !! n = Some job → EntryID job ≠ EntryID old.
Proof.
  intros Hr Hold Hreg Hp Hstep.
  pose proof (cfg_parser _ (reachable_configured _ Hr)) as Hpar.
  pose proof (reachable_registered _ Hr) as Hrg.
  destruct (reg_entry _ Hrg _ _ Hold) as (sch0 & Hp0 & Hin0). rewrite Hpar in Hp0.
  exists sch0. split; [done|].
  assert (orphaned (EntryID old) sch0 σ1) as Ho.
  { pose proof (reg_ids _ Hrg _ _ Hin0) as Hle.
    destruct (step_bookkeeping _ _ _ Hstep)
      as [Hno _ _ _|name' spec' sch' entry Hreg' _ Hes He _ Hid Hj|name' job' -> _ _ _ _].
    - exfalso. eapply Hno; [exact Hreg|]. by rewrite Hpar.
    - assert (name' = name) as ->.
      { destruct e as [n d fn|n expr fn|n| | |i|d|id| |x|x o|t|t]; try done;
          destruct Hreg as [<- _]; by destruct Hreg' as [<- _]. }
      unfold orphaned. rewrite Hes, entryIndex_app, Hid, Hj.
      split; [apply elem_of_app; by left|]. split; [lia|].
      intros n j [[_ <-]|[Hne Hl]]%lookup_insert_Some; simpl; [lia|].
      intros Heq. apply Hne. by eapply (reg_inj _ Hrg).
    - done. }
  intros es σ2 Hs. destruct (orphaned_steps _ _ _ _ _ Ho Hs) as (? & _ & ?). done.
Qed.

(** X13. [Remove] stops no goroutine and cancels no context: the runs in
    flight go on. What it takes away stays away: whatever happens
    afterwards, no entry of the cron and no job of the registry has the id
    of the job that was removed. *)
Theorem removed_entry_is_gone_for_good σ name job σ1 :
  reachable σ → jobs (sched σ) !! name = Some job →
  step σ (CallRemove name) = Some σ1 →
  cron.jobWaiter (cronOf (sched σ1)) = cron.jobWaiter (cronOf (sched σ))
  ∧ cancelled (rt σ1) = cancelled (rt σ)
  ∧ ∀ es σ2, steps σ1 es = Some σ2 →
      (EntryID job ∉ entryIDs σ2)
      ∧ ∀ n j, jobs (sched σ2) !! n = Some j → EntryID j ≠ EntryID job.
Proof.
  intros Hr Hjob Hstep.
  pose proof (reachable_configured _ Hr) as Hcfg.
  pose proof (reachable_registered _ Hr) as Hrg.
  destruct (reachable_numbered _ Hr) as (Hnd & Hb & _).
  assert (cron.jobWaiter (cronOf (sched σ1)) = cron.jobWaiter (cronOf (sched σ))
          ∧ cancelled (rt σ1) = cancelled (rt σ)) as [E1 E2].
  { unfold step in Hstep. rewrite (cfg_alive _ Hcfg) in Hstep.
    destruct (Remove _ _ _) as [[r s'] rt'] eqn:E. simplify_eq. simpl.
    unfold Remove in E. rewrite Hjob in E.
    destruct (cron_Remove_control (EntryID job) (cronOf (sched σ)) (rt σ))
      as (_ & Ej & _ & Hq).
    destruct (Hq (cfg_logger _ Hcfg)) as (_ & _ & Q2 & _).
    destruct (cron.Remove _ _ _) as [c rt1]. simplify_eq. simpl in *. done. }
  split; [done|]. split; [done|].
  assert (retired (EntryID job) σ1) as Hret.
  { destruct (step_bookkeeping _ _ _ Hstep)
      as [_ _ _ Hj|name' spec' sch' entry Hreg' _ _ _ _ _ _|name' job' Hev Hjob' Hes Hid Hj].
    - unfold step in Hstep. rewrite (cfg_alive _ Hcfg) in Hstep.
      destruct (Remove _ _ _) as [[r s'] rt'] eqn:E. simplify_eq. simpl in Hj.
      unfold Remove in E. rewrite Hjob in E.
      destruct (cron.Remove _ _ _) as [c rt1]. simplify_eq. simpl in Hj.
      assert (delete name (jobs (sched σ)) !! name = jobs (sched σ) !! name) as Hx
        by (by rewrite Hj).
      rewrite lookup_delete_eq, Hjob in Hx. done.
    - done.
    - simplify_eq. unfold retired. rewrite entryIDs_entries, Hes, ids_filter, Hid, Hj.
      split; [by intros [_ ?]%elem_of_ids_filter|]. split.
      + destruct (reg_entry _ Hrg _ _ Hjob) as (sch & _ & Hin).
        by apply (reg_ids _ Hrg) in Hin.
      + intros n j [Hne Hl]%lookup_delete_Some Heq. apply Hne.
        by eapply (reg_inj _ Hrg). }
  intros es σ2 Hs. destruct (retired_steps _ _ _ _ Hret Hs) as (? & _ & ?). done.
Qed.

End Entries.

(** ** Waiting for [Stop], the base context, and the expressions [Cron] refuses *)

Section Tokens.
Context `{Host}.

Lemma existsb_intro {A} (P : A → bool) (l : list A) x : x ∈ l → P x = true → existsb P l = true.
Proof. intros Hin HP. apply existsb_exists. exists x. by rewrite <- list_elem_of_In. Qed.

(** X8. Once no run is in flight, a [Stop] that is waiting gets its
    answer: the goroutine the library made for it passes the wait group
    and calls its cancel function, and the context that [Stop] returned is
    done. *)
Theorem stop_token_completes_when_idle σ w :
  reachable σ → w ∈ cron.waiters (cronOf (sched σ)) → cron.released w = false →
  cron.jobWaiter (cronOf (sched σ)) = [] →
  ∃ σ', steps σ [ReleaseWaiter (cron.token w); CancelToken (cron.token w)] = Some σ'
        ∧ Done (rt σ') (cancelCtx (cron.token w) Background) = true
        ∧ sched σ' = withCron (cronOf (sched σ')) (sched σ)
        ∧ (∀ w', w' ∈ cron.waiters (cronOf (sched σ')) → cron.token w' ≠ cron.token w).
Proof.
  intros Hr Hw Hrel Hidle. pose proof (cfg_alive _ (reachable_configured _ Hr)) as Hal.
  simpl. unfold step at 1. rewrite Hal. unfold release. rewrite Hidle.
  rewrite (existsb_intro _ _ w Hw); [|by rewrite Nat.eqb_refl, Hrel]. simpl.
  unfold step. simpl. rewrite Hal. unfold cancelToken. simpl.
  rewrite (existsb_intro _ _ {| cron.token := cron.token w; cron.released := true |});
    [| |by simpl; rewrite Nat.eqb_refl].
  - eexists. split; [done|]. simpl. split.
    { apply orb_true_iff. left. apply bool_decide_eq_true. set_solver. }
    split; [done|].
    intros w' Hin%list_elem_of_In. apply filter_In in Hin as [_ Hne].
    by apply negb_true_iff, Nat.eqb_neq in Hne.
  - apply list_elem_of_In, in_map_iff. exists w. rewrite Nat.eqb_refl.
    split; [done|]. by apply list_elem_of_In.
Qed.

(** X14. The base context reaches every job. In every state in which the
    base context given by [WithBaseContext] is done, the context that
    [jobContext] answers is done, and so is the context of every job body
    in flight. *)
Theorem base_context_reaches_jobs σ b :
  reachable σ → baseCtx (sched σ) = Some (External b) → b ∈ expired (rt σ) →
  (∃ c, jobContext (sched σ) = Some c ∧ Done (rt σ) c = true)
  ∧ ∀ r f ctx, r ∈ cron.jobWaiter (cronOf (sched σ)) → cron.phase r = cron.InBody f ctx →
      ∃ c, ctx = Some c ∧ Done (rt σ) c = true.
Proof.
  intros Hr Hb Hexp. pose proof (reachable_contexts _ Hr) as Hctx.
  assert (baseContext (sched σ) = Some (External b)) as Hbc
    by (unfold baseContext; by rewrite Hb).
  assert (bool_decide (b ∈ expired (rt σ)) = true) as Hd by (by apply bool_decide_eq_true).
  split.
  - unfold jobContext. destruct (runCtx (sched σ)) as [c|] eqn:Hrc.
    + exists c. split; [done|].
      destruct (ctx_run _ Hctx _ Hrc) as (id & p & -> & Hp & _).
      rewrite Hbc in Hp. simplify_eq. simpl. rewrite Hd. apply orb_true_r.
    + rewrite Hb. eauto.
  - intros r f ctx Hin Hph.
    destruct (ctx_body _ Hctx r f ctx Hin Hph) as (id & p & -> & Hp & _).
    rewrite Hbc in Hp. simplify_eq. eexists. split; [done|]. simpl. rewrite Hd.
    apply orb_true_r.
Qed.

End Tokens.

Section Expressions.
Context `{Host}.

Lemma HasPrefix_app s p : gostrings.HasPrefix s p = true → ∃ r, s = (p +:+ r)%string.
Proof.
  revert s. induction p as [|c p IH]; intros s; simpl.
  - intros _. by exists s.
  - destruct s as [|d s]; simpl; [done|]. destruct (Ascii.eqb c d) eqn:E; [|done].
    apply Ascii.eqb_eq in E as ->. intros [r ->]%IH. by exists r.
Qed.

(** What the standard parser does with an expression that has fields: no
    descriptor and no time zone in front. *)
Lemma standardParser_fields expr :
  expr ≠ ""%string → gostrings.HasPrefix expr "@" = false →
  gostrings.HasPrefix expr "TZ=" = false → gostrings.HasPrefix expr "CRON_TZ=" = false →
  cron.standardParser expr
  = match cron.normalizeFields (gostrings.Fields expr) cron.standardOptions with
    | inl e => cron.Rejected e
    | inr fields => cron.parseFields fields Local
    end.
Proof.
  intros He Hat Htz Hctz. unfold cron.standardParser, cron.Parse.
  apply String.eqb_neq in He. rewrite He, Htz, Hctz. cbn [orb]. by rewrite Hat.
Qed.

Lemma normalizeFields_count fields :
  List.length fields ≠ 5%nat →
  cron.normalizeFields fields cron.standardOptions
  = inl (cron.FieldCount 5 5 (Z.of_nat (List.length fields))).
Proof.
  intros Hn. unfold cron.normalizeFields. simpl.
  match goal with |- context [if ?b then _ else _] => destruct b eqn:Hc end; [done|].
  apply orb_false_iff in Hc as [H1%Z.ltb_ge H2%Z.ltb_ge]. lia.
Qed.

Lemma normalizeFields_five f1 f2 f3 f4 f5 :
  cron.normalizeFields [f1; f2; f3; f4; f5] cron.standardOptions
  = inr ["0"%string; f1; f2; f3; f4; f5].
Proof. reflexivity. Qed.

(** Five fields are parsed, or refused for the first field that
    [getField] refuses: no panic. *)
Lemma parseFields_five f1 f2 f3 f4 f5 :
  ((∃ sch, cron.parseFields ["0"%string; f1; f2; f3; f4; f5] Local = cron.Parsed sch)
   ∧ ¬ refusedField [f1; f2; f3; f4; f5])
  ∨ ((∃ err, cron.parseFields ["0"%string; f1; f2; f3; f4; f5] Local = cron.Rejected err)
     ∧ refusedField [f1; f2; f3; f4; f5]).
Proof.
  unfold cron.parseFields.
  assert (cron.getField "0" cron.seconds = inr 1) as -> by reflexivity.
  destruct (cron.getField f1 cron.minutes) as [e1|b1] eqn:E1;
    [right; split; [eauto|by exists 0%nat, f1, cron.minutes, e1]|].
  destruct (cron.getField f2 cron.hours) as [e2|b2] eqn:E2;
    [right; split; [eauto|by exists 1%nat, f2, cron.hours, e2]|].
  destruct (cron.getField f3 cron.dom) as [e3|b3] eqn:E3;
    [right; split; [eauto|by exists 2%nat, f3, cron.dom, e3]|].
  destruct (cron.getField f4 cron.months) as [e4|b4] eqn:E4;
    [right; split; [eauto|by exists 3%nat, f4, cron.months, e4]|].
  destruct (cron.getField f5 cron.dow) as [e5|b5] eqn:E5;
    [right; split; [eauto|by exists 4%nat, f5, cron.dow, e5]|].
  left. split; [eauto|]. intros (i & f & b & e & Hf & Hb & Hg).
  destruct i as [|[|[|[|[|i]]]]]; simpl in Hf, Hb; simplify_eq; congruence.
Qed.

(** What the standard parser does with a descriptor. *)
Lemma standardParser_descriptor expr :
  gostrings.HasPrefix expr "@" = true →
  cron.standardParser expr = cron.parseDescriptor expr Local.
Proof.
  intros Hat. unfold cron.standardParser, cron.Parse.
  assert (String.eqb expr "" = false) as ->.
  { by destruct (HasPrefix_app _ _ Hat) as [r ->]. }
  assert (gostrings.HasPrefix expr "TZ=" = false) as ->.
  { by destruct (HasPrefix_app _ _ Hat) as [r ->]. }
  assert (gostrings.HasPrefix expr "CRON_TZ=" = false) as ->.
  { by destruct (HasPrefix_app _ _ Hat) as [r ->]. }
  cbn [orb]. by rewrite Hat.
Qed.

Lemma parseDescriptor_unknown expr loc :
  expr ∉ descriptors → gostrings.HasPrefix expr "@every " = false →
  cron.parseDescriptor expr loc = cron.Rejected (cron.UnrecognizedDescriptor expr).
Proof.
  intros Hd He. unfold cron.parseDescriptor.
  assert (∀ d, d ∈ descriptors → String.eqb expr d = false) as Hk.
  { intros d Hin. apply String.eqb_neq. by intros ->. }
  rewrite !Hk, He; [done|unfold descriptors; set_solver..].
Qed.

Lemma parseDescriptor_every d e loc :
  ParseDuration d = inl e →
  cron.parseDescriptor ("@every " +:+ d) loc
  = cron.Rejected (cron.BadDuration ("@every " +:+ d) e).
Proof.
  intros Hd. unfold cron.parseDescriptor. simpl.
  change ("" +:+ d)%string with d.
  assert (gostrings.HasPrefix d "" = true) as -> by (by destruct d).
  by rewrite Hd.
Qed.

(** C6, as amended. For every scheduler and every cron expression,
    [Cron] returns an error exactly when the standard parser of the
    library refuses the expression, and the error is the parser's; it
    returns nil exactly when the parser accepts it. When it returns an
    error, the scheduler and the run time are left exactly as they were:
    nothing is registered under the name, the registry and the entries of
    the cron are the same. The parser refuses: the empty expression; an
    expression that is no descriptor, has no time zone in front and whose
    fields are not five in number; a descriptor that is not one of the
    library's; [@every] followed by something that [time.ParseDuration]
    refuses; five fields, with no time zone in front, one of which
    [getField] refuses (and only then). *)
Theorem C6_refused_expression_not_registered σ name expr fn :
  reachable σ →
  let '(r, s', rt') := Cron name expr fn (sched σ) (rt σ) in
  (∀ err, r = Err err ↔ cron.standardParser expr = cron.Rejected err)
  ∧ (r = Nil ↔ ∃ sch, cron.standardParser expr = cron.Parsed sch)
  ∧ (∀ err, r = Err err →
       s' = sched σ ∧ rt' = rt σ ∧ jobs s' = jobs (sched σ)
       ∧ cron.entries (cronOf s') = cron.entries (cronOf (sched σ)))
  ∧ (expr = ""%string → r = Err cron.EmptySpec)
  ∧ (expr ≠ ""%string → gostrings.HasPrefix expr "@" = false →
     gostrings.HasPrefix expr "TZ=" = false → gostrings.HasPrefix expr "CRON_TZ=" = false →
     (List.length (gostrings.Fields expr) ≠ 5%nat →
      r = Err (cron.FieldCount 5 5 (Z.of_nat (List.length (gostrings.Fields expr)))))
     ∧ (List.length (gostrings.Fields expr) = 5%nat →
        ((∃ err, r = Err err) ↔ refusedField (gostrings.Fields expr))
        ∧ (r = Nil ↔ ¬ refusedField (gostrings.Fields expr))))
  ∧ (gostrings.HasPrefix expr "@" = true → expr ∉ descriptors →
     gostrings.HasPrefix expr "@every " = false →
     r = Err (cron.UnrecognizedDescriptor expr))
  ∧ (∀ d e, expr = ("@every " +:+ d)%string → ParseDuration d = inl e →
       r = Err (cron.BadDuration expr e)).
Proof.
  intros Hr. pose proof (Cron_spec name expr fn (sched σ) (rt σ)) as Hspec.
  rewrite (cfg_parser _ (reachable_configured _ Hr)) in Hspec.
  destruct (Cron name expr fn (sched σ) (rt σ)) as [[r s'] rt'] eqn:E.
  assert (∀ err, r = Err err ↔ cron.standardParser expr = cron.Rejected err) as Herr.
  { intros err. destruct (cron.standardParser expr) as [sch|err'|v].
    - destruct Hspec as (s1 & rt1 & ? & _). simplify_eq. split; [done|done].
    - simplify_eq. split; congruence.
    - simplify_eq. split; [done|done]. }
  assert (r = Nil ↔ ∃ sch, cron.standardParser expr = cron.Parsed sch) as Hnil.
  { destruct (cron.standardParser expr) as [sch|err'|v].
    - destruct Hspec as (s1 & rt1 & ? & _). simplify_eq. split; eauto.
    - simplify_eq. split; [done|]. by intros [? ?].
    - simplify_eq. split; [done|]. by intros [? ?]. }
  split; [exact Herr|]. split; [exact Hnil|]. split; [|split; [|split; [|split]]].
  - intros err ->. pose proof (proj1 (Herr err) eq_refl) as Hp. rewrite Hp in Hspec.
    by simplify_eq.
  - intros ->. by apply Herr.
  - intros He Hat Htz Hctz.
    pose proof (standardParser_fields expr He Hat Htz Hctz) as Hp. split.
    + intros Hn. apply Herr. by rewrite Hp, normalizeFields_count.
    + intros Hn.
      destruct (gostrings.Fields expr) as [|f1 [|f2 [|f3 [|f4 [|f5 [|f6 fs]]]]]];
        try done.
      rewrite normalizeFields_five in Hp.
      destruct (parseFields_five f1 f2 f3 f4 f5) as [[[sch Hs] Hno]|[[err He'] Hyes]];
        rewrite ?Hs, ?He' in Hp.
      * split; split.
        -- intros [err ->]. pose proof (proj1 (Herr err) eq_refl). congruence.
        -- done.
        -- done.
        -- intros _. apply Hnil. eauto.
      * split; split.
        -- done.
        -- intros _. exists err. by apply Herr.
        -- intros ->. destruct (proj1 Hnil eq_refl) as [sch Hsch]. congruence.
        -- done.
  - intros Hat Hd He. apply Herr.
    by rewrite standardParser_descriptor, parseDescriptor_unknown.
  - intros d e -> Hd. apply Herr.
    by rewrite standardParser_descriptor, (parseDescriptor_every d e).
Qed.

(** X11. [Cron] takes the standard format of five fields: an expression
    that is neither a descriptor ([@...]) nor prefixed with a time zone,
    and whose fields, split at white space, are not five in number, is
    refused with the count, and nothing is registered. The empty
    expression is refused as such. *)
Theorem Cron_wants_five_fields σ name expr fn :
  reachable σ →
  gostrings.HasPrefix expr "@" = false →
  gostrings.HasPrefix expr "TZ=" = false → gostrings.HasPrefix expr "CRON_TZ=" = false →
  List.length (gostrings.Fields expr) ≠ 5%nat →
  Cron name expr fn (sched σ) (rt σ)
  = (Err (if String.eqb expr "" then cron.EmptySpec
          else cron.FieldCount 5 5 (Z.of_nat (List.length (gostrings.Fields expr)))),
     sched σ, rt σ).
Proof.
  intros Hr Hat Htz Hctz Hn.
  pose proof (Cron_spec name expr fn (sched σ) (rt σ)) as Hspec.
  rewrite (cfg_parser _ (reachable_configured _ Hr)) in Hspec.
  unfold cron.standardParser, cron.Parse in Hspec.
  destruct (String.eqb expr "") eqn:He; [done|].
  rewrite Htz, Hctz in Hspec. cbn [orb] in Hspec. rewrite Hat in Hspec.
  unfold cron.normalizeFields in Hspec. simpl in Hspec.
  match type of Hspec with context [if ?b then _ else _] => destruct b eqn:Hc end;
    [exact Hspec|].
  apply orb_false_iff in Hc as [H1%Z.ltb_ge H2%Z.ltb_ge]. lia.
Qed.

(** X15. [Cron] panics on an expression that starts with a time zone
    ([TZ=] or [CRON_TZ=]) and has no space after it: the library slices the
    expression up to the first space, and there is none. The panic passes
    through [Cron]; the deferred unlock runs and nothing is registered. *)
Theorem Cron_panics_on_zone_without_space σ name expr fn :
  reachable σ →
  gostrings.HasPrefix expr "TZ=" || gostrings.HasPrefix expr "CRON_TZ=" = true →
  gostrings.IndexByte expr " " = -1 →
  Cron name expr fn (sched σ) (rt σ) = (Panic "slice bounds out of range", sched σ, rt σ).
Proof.
  intros Hr Hp Hsp.
  pose proof (Cron_spec name expr fn (sched σ) (rt σ)) as Hspec.
  rewrite (cfg_parser _ (reachable_configured _ Hr)) in Hspec.
  unfold cron.standardParser, cron.Parse in Hspec.
  assert (String.eqb expr "" = false) as He by (by destruct expr).
  rewrite He, Hp, Hsp in Hspec.
  assert (0 <= gostrings.IndexByte expr "=") as Heq.
  { apply orb_true_iff in Hp as [[r ->]%HasPrefix_app|[r ->]%HasPrefix_app]; by vm_compute. }
  destruct (-1 <? gostrings.IndexByte expr "=" + 1) eqn:Hlt; [done|].
  apply Z.ltb_ge in Hlt. lia.
Qed.



End Expressions.

Lemma C6_witness :
  reachable (init 0 [])
  ∧ Cron "invalid-job" "invalid expression" 0%nat (New []) (boot 0)
    = (Err (cron.FieldCount 5 5 2), New [], boot 0)
  ∧ (Cron "job1" "" 0%nat (New []) (boot 0)).1.1 = Err cron.EmptySpec
  ∧ (Cron "job1" "60 * * * *" 0%nat (New []) (boot 0)).1.1 = Err (cron.AboveMaximum "60")
  ∧ (Cron "job1" "x * * * *" 0%nat (New []) (boot 0)).1.1 = Err (cron.BadInt "x")
  ∧ (Cron "job1" "@never" 0%nat (New []) (boot 0)).1.1
    = Err (cron.UnrecognizedDescriptor "@never").
Proof.
  split; [apply reachable_init|].
  pose proof (C6_refused_expression_not_registered (init 0 []) "invalid-job"
                "invalid expression" 0%nat (reachable_init 0 [])) as Hc.
  change (sched (init 0 [])) with (New []) in Hc. change (rt (init 0 [])) with (boot 0) in Hc.
  destruct (Cron "invalid-job" "invalid expression" 0%nat (New []) (boot 0))
    as [[r s'] rt'] eqn:E.
  destruct Hc as (_ & _ & Hsame & _ & Hn & _).
  assert (r = Err (cron.FieldCount 5 5 2)) as ->.
  { apply (Hn ltac:(done) eq_refl eq_refl eq_refl). vm_compute. discriminate. }
  destruct (Hsame _ eq_refl) as (-> & -> & _).
  split; [done|]. repeat split; by vm_compute.
Defined.

(** C6 as stated fails on two expressions that are not of the syntax. On
    a time zone with nothing after it, not even a space, [Cron] returns no
    error: the library panics. A range whose upper end is no number, after
    a star, is accepted: [Cron] returns nil and the job is registered. *)
Lemma C6_counterexample :
  (Cron "job1" "TZ=UTC" 1%nat (New []) (boot 0)).1.1 = Panic "slice bounds out of range"
  ∧ (∀ err, (Cron "job1" "TZ=UTC" 1%nat (New []) (boot 0)).1.1 ≠ Err err)
  ∧ (Cron "job1" "*-x * * * *" 1%nat (New []) (boot 0)).1.1 = Nil
  ∧ Jobs (New []) = []
  ∧ Jobs (Cron "job1" "*-x * * * *" 1%nat (New []) (boot 0)).1.2
    = [{| Name := "job1"; Schedule := "*-x * * * *"; EntryID := 1 |}]
  ∧ cron.standardParser "*-x * * * *" = cron.standardParser "* * * * *".
Proof. repeat split; by vm_compute. Qed.

(** ** Where the log lines go *)

Section Logging.
Context `{Host}.

Lemma says_refl lg rt : says lg rt rt.
Proof. exists []. by rewrite app_nil_r. Qed.

Lemma says_trans lg rt1 rt2 rt3 : says lg rt1 rt2 → says lg rt2 rt3 → says lg rt1 rt3.
Proof.
  intros (c1 & E1 & F1) (c2 & E2 & F2). exists (c1 ++ c2).
  rewrite E2, E1, app_assoc. split; [done|]. by apply Forall_app.
Qed.

Lemma says_emit lg r rt : via r = lg → says lg rt (emit r rt).
Proof. intros Hv. exists [r]. split; [done|]. by constructor. Qed.

Lemma says_Info lg msg kv rt : says lg rt (cron.Info (cronLogAdapter lg) msg kv rt).
Proof. by apply says_emit. Qed.

Lemma says_Error lg err msg kv rt : says lg rt (cron.Error (cronLogAdapter lg) err msg kv rt).
Proof. by apply says_emit. Qed.

Lemma says_output lg rt rt' :
  says lg rt rt' → Forall (λ c, via c = lg) (output rt) → Forall (λ c, via c = lg) (output rt').
Proof. intros (c & -> & F) Ho. by apply Forall_app. Qed.

Lemma Then_adaptedTo lg ws j rt :
  Forall (wrapperTo lg) ws → adaptedTo lg j →
  adaptedTo lg (cron.Then ws j rt).1 ∧ output (cron.Then ws j rt).2 = output rt.
Proof.
  intros Hws Hj. induction Hws as [|w ws Hw Hws IH]; simpl; [done|].
  destruct (cron.Then ws j rt) as [j' rt'] eqn:E. simpl in IH. destruct IH as [IHj IHo].
  destruct w as [l|l]; simpl in *; done.
Qed.

Lemma enter_says lg j rt : adaptedTo lg j → says lg rt (cron.enter j rt).2.
Proof.
  revert rt. induction j as [f | l j IH | l ch j IH]; intros rt Hj; simpl in *.
  - apply says_refl.
  - apply IH, Hj.
  - destruct Hj as [-> Hj]. destruct (isFull ch rt).
    + specialize (IH (setChan ch false rt) Hj).
      destruct (cron.enter j (setChan ch false rt)) as [[f|] rt'] eqn:E; simpl in *.
      * exact IH.
      * destruct IH as (c & E1 & F). by exists c.
    + apply says_Info.
Qed.

Lemma leave_says lg j o rt : adaptedTo lg j → says lg rt (cron.leave j o rt).2.
Proof.
  revert rt. induction j as [f | l j IH | l ch j IH]; intros rt Hj; simpl in *.
  - apply says_refl.
  - destruct Hj as [-> Hj]. specialize (IH rt Hj).
    destruct (cron.leave j o rt) as [[|v] rt'] eqn:E; simpl in *; [done|].
    eapply says_trans; [exact IH | apply says_Error].
  - destruct Hj as [-> Hj]. specialize (IH rt Hj).
    destruct (cron.leave j o rt) as [[|v] rt'] eqn:E; simpl in *; [|done].
    destruct IH as (c & E1 & F). by exists c.
Qed.

Lemma activate_says lg now es rt :
  says lg rt (cron.activate (cronLogAdapter lg) now es rt).2.
Proof.
  revert rt. induction es as [|e es IH]; intros rt; simpl.
  - apply says_refl.
  - match goal with |- context [cron.activate _ now es ?r] =>
      specialize (IH r); destruct (cron.activate _ now es r) as [es' rt'] eqn:E end.
    simpl in *. eapply says_trans; [|exact IH]. by apply says_emit.
Qed.

Lemma runDue_says lg now es rt :
  says lg rt (cron.runDue (cronLogAdapter lg) now es rt).2.
Proof.
  revert rt. induction es as [|e es IH]; intros rt; simpl.
  - apply says_refl.
  - destruct (After (cron.Next e) now || IsZero (cron.Next e)); simpl; [apply says_refl|].
    match goal with |- context [cron.runDue _ now es ?r] =>
      specialize (IH r); destruct (cron.runDue _ now es r) as [[es' js] rt'] eqn:E end.
    simpl in *. eapply says_trans; [|exact IH]. by apply says_emit.
Qed.

Lemma routed_init now opts : routed (logger (New opts)) (init now opts).
Proof.
  unfold init, New. simpl. set (s := fold_left applyOption opts _).
  split; simpl; try done.
  - destruct (skipIfRunning s); simpl; by repeat constructor.
  - intros e He. destruct (skipIfRunning s); simpl in He; by apply elem_of_nil in He.
  - intros e He. destruct (skipIfRunning s); simpl in He; by apply elem_of_nil in He.
Qed.

Lemma routed_AddFunc lg spec fn s rt stp r c rt' :
  routed lg {| sched := s; rt := rt; stopping := stp |} →
  cron.AddFunc spec fn (cronOf s) rt = (r, c, rt') →
  routed lg {| sched := withCron c s; rt := rt'; stopping := stp |}.
Proof.
  intros [Hs Hl Hw He Hr Ho] Hadd. simpl in *. subst lg.
  unfold cron.AddFunc, cron.AddJob in Hadd.
  destruct (cron.parser (cronOf s) spec) as [sch|err|v]; simplify_eq; try (by split).
  unfold cron.Schedule_ in Hadd.
  destruct (Then_adaptedTo (logger s) (cron.chain (cronOf s)) (cron.FuncJob fn) rt Hw I)
    as [Hj Hq].
  destruct (cron.Then (cron.chain (cronOf s)) (cron.FuncJob fn) rt) as [wrapped rt1] eqn:ET.
  simpl in *.
  assert (∀ e n p, e ∈ cron.entries (cronOf s) ++ [{| cron.ID := cron.nextID (cronOf s) + 1;
             cron.EntrySchedule := sch; cron.Next := n; cron.Prev := p; cron.WrappedJob := wrapped;
             cron.EntryJob := cron.FuncJob fn |}] →
           adaptedTo (logger s) (cron.WrappedJob e)) as Hnew.
  { intros e n p [?|Hx%list_elem_of_singleton]%elem_of_app; [by apply He|]. by subst e. }
  destruct (cron.running (cronOf s)); simplify_eq; split; simpl; eauto.
  - rewrite Hl. simpl. rewrite Hq. apply Forall_app. split; [done|]. by repeat constructor.
  - by rewrite Hq.
Qed.

Lemma routed_step lg σ e σ' : routed lg σ → step σ e = Some σ' → routed lg σ'.
Proof.
  intros Hrt Hstep. destruct σ as [s rt stp]. unfold step in Hstep. simpl in Hstep.
  destruct (crashed rt) eqn:Hcr; [done|].
  assert (lg = logger s) as -> by (by destruct Hrt).
  destruct e as [name d fn|name expr fn|name| | |i|d|id| |x|x o|t|t].
  - unfold Every in Hstep.
    destruct (cron.AddFunc _ _ _ _) as [[r c] rt'] eqn:E.
    pose proof (routed_AddFunc _ _ _ _ _ _ _ _ _ Hrt E) as Hc'.
    destruct r; simplify_eq; try done.
    destruct Hc' as [Hs Hl Hw He Hr Ho]. split; simpl in *; eauto.
    apply Forall_app. split; [done|]. by repeat constructor.
  - unfold Cron in Hstep.
    destruct (cron.AddFunc _ _ _ _) as [[r c] rt'] eqn:E.
    pose proof (routed_AddFunc _ _ _ _ _ _ _ _ _ Hrt E) as Hc'.
    destruct r; simplify_eq; try done.
    destruct Hc' as [Hs Hl Hw He Hr Ho]. split; simpl in *; eauto.
    apply Forall_app. split; [done|]. by repeat constructor.
  - unfold Remove in Hstep. destruct (jobs s !! name) as [job|]; simplify_eq; [|done].
    destruct Hrt as [Hs Hl Hw He Hr Ho]. simpl in *.
    unfold cron.Remove in Hstep. rewrite Hl in Hstep.
    destruct (cron.running (cronOf s)); simplify_eq; split; simpl; eauto.
    all: try (intros e He'%elem_of_filter_list; by apply He).
    all: repeat (apply Forall_app; split; [|by repeat constructor]); done.
  - unfold Start in Hstep. destruct (started s); simplify_eq; [done|].
    destruct Hrt as [Hs Hl Hw He Hr Ho]. simpl in *.
    destruct (baseContext_Some s) as [p Hb]. rewrite Hb in Hstep. simpl in Hstep.
    unfold cron.Start in Hstep. simpl in Hstep. rewrite Hl in Hstep.
    destruct (cron.running (cronOf s)); simplify_eq.
    + split; simpl; eauto. apply Forall_app. split; [done|]. by repeat constructor.
    + match type of Hstep with context [cron.activate ?l ?n ?es ?r] =>
        pose proof (activate_says (logger s) n es r) as Hq;
        pose proof (elem_of_activate l n es r) as Hin;
        destruct (cron.activate l n es r) as [es' rt'] eqn:E end.
      simplify_eq. simpl in *. split; simpl; eauto.
      * intros e [e0 (He0 & _ & _ & ->)]%Hin. eauto.
      * apply Forall_app. split; [|by repeat constructor].
        eapply says_output; [exact Hq|]. simpl.
        apply Forall_app. split; [done|]. by repeat constructor.
  - destruct (started s); simplify_eq.
    + destruct Hrt. split; simpl in *; eauto.
    + destruct Hrt. split; simpl in *; eauto.
  - destruct (stp !! i) as [cancel|] eqn:Ei; [|done].
    destruct Hrt as [Hs Hl Hw He Hr Ho]. simpl in *.
    unfold stopUnlocked, cron.Stop in Hstep. simpl in Hstep. rewrite Hl in Hstep.
    destruct (cron.running (cronOf s)); destruct cancel; simplify_eq; split; simpl; eauto.
    all: repeat (apply Forall_app; split; [|by repeat constructor]); done.
  - simplify_eq. destruct Hrt. split; simpl in *; eauto.
  - simplify_eq. destruct Hrt. split; simpl in *; eauto.
  - destruct (cron.running (cronOf s)) eqn:Hrun; [|done].
    destruct Hrt as [Hs Hl Hw He Hr Ho]. simpl in *.
    unfold cron.wake in Hstep. rewrite Hl in Hstep.
    match type of Hstep with context [cron.runDue ?l ?n ?es ?r] =>
        pose proof (runDue_says (logger s) n es r) as Hq;
        pose proof (elem_of_runDue l n es r) as Hin;
        pose proof (runDue_jobs l n es r) as Hjs;
        destruct (cron.runDue l n es r) as [[es' js] rt'] eqn:E end.
    simpl in *. simplify_eq.
    destruct (startJobs_spec js (cron.withEntries es' (cronOf s)))
      as (E1 & E2 & E3 & E4 & E5 & E6 & E7 & E8 & E9 & E10).
    simpl in *.
    split; simpl; rewrite ?E1, ?E2, ?E4, ?E6, ?E10; eauto.
    + intros e [e0 (He0 & _ & _ & ->)]%Hin. apply He. by rewrite <- sortByTime_perm.
    + intros r [?|Hr']%elem_of_app; [by apply Hr|].
      apply list_elem_of_lookup in Hr' as [i Hi]. rewrite list_lookup_imap in Hi.
      destruct (js !! i) as [j|] eqn:Ej; simplify_eq/=.
      apply list_elem_of_lookup_2 in Ej. apply Hjs in Ej as (e0 & He0 & ->).
      apply He. by rewrite <- sortByTime_perm.
    + eapply says_output; [exact Hq|]. simpl.
      apply Forall_app. split; [done|]. by repeat constructor.
  - destruct (begin x s rt) as [[s' rt']|] eqn:Hb; [|done]. simplify_eq.
    destruct Hrt as [Hs Hl Hw He Hr Ho]. simpl in *.
    unfold begin in Hb. destruct (findRun x (cronOf s)) as [r|] eqn:Hf; [|done].
    apply findRun_Some in Hf as [Hin Hx]. pose proof (Hr r Hin) as Had.
    destruct (cron.phase r); [|done].
    pose proof (enter_says (logger s) (cron.job r) rt Had) as Hq.
    destruct (cron.enter (cron.job r) rt) as [[fn|] rt1]; simplify_eq; simpl in *.
    + split; simpl; eauto.
      * intros r' (r0 & Hr0 & _ & -> & _)%elem_of_setPhase. eauto.
      * by eapply says_output.
    + split; simpl; eauto.
      * intros r' [Hr' _]%elem_of_dropRun. eauto.
      * by eapply says_output.
  - destruct (finish x o s rt) as [[s' rt']|] eqn:Hb; [|done]. simplify_eq.
    destruct Hrt as [Hs Hl Hw He Hr Ho]. simpl in *.
    unfold finish in Hb. destruct (findRun x (cronOf s)) as [r|] eqn:Hf; [|done].
    apply findRun_Some in Hf as [Hin Hx]. pose proof (Hr r Hin) as Had.
    destruct (cron.phase r); [done|].
    pose proof (leave_says (logger s) (cron.job r) o rt Had) as Hq.
    destruct (cron.leave (cron.job r) o rt) as [[|v] rt1]; simplify_eq; simpl in *.
    + split; simpl; eauto.
      * intros r' [Hr' _]%elem_of_dropRun. eauto.
      * by eapply says_output.
    + split; simpl; eauto.
      * intros r' [Hr' _]%elem_of_dropRun. eauto.
      * by eapply says_output.
  - destruct (release t (cronOf s)) as [c|] eqn:Hb; [|done]. simplify_eq.
    unfold release in Hb. destruct (cron.jobWaiter (cronOf s)) eqn:Hj; [|done].
    destruct (existsb _ _); [|done]. simplify_eq.
    destruct Hrt as [Hs Hl Hw He Hr Ho]. simpl in *.
    split; simpl; eauto.
  - destruct (cancelToken t (cronOf s) rt) as [[c rt']|] eqn:Hb; [|done]. simplify_eq.
    unfold cancelToken in Hb. destruct (existsb _ _); [|done]. simplify_eq.
    destruct Hrt as [Hs Hl Hw He Hr Ho]. simpl in *.
    split; simpl; eauto.
Qed.

(** X10. Everything a scheduler logs, and everything the cron library logs
    for it (through the adapter given to the cron and to its wrappers),
    goes to the scheduler's own logger: the one the last [WithLogger]
    option gave, or [slog.Default()]. *)
Theorem all_logs_go_to_the_logger now opts es σ :
  steps (init now opts) es = Some σ →
  logger (sched σ) = logger (New opts)
  ∧ Forall (λ c, via c = logger (New opts)) (output (rt σ)).
Proof.
  intros Hs.
  assert (routed (logger (New opts)) σ) as [? _ _ _ _ ?]; [|done].
  revert σ Hs. induction es as [|e es IH] using rev_ind; intros σ Hs.
  - simpl in Hs. simplify_eq. apply routed_init.
  - rewrite steps_app in Hs. destruct (steps (init now opts) es) as [σ1|] eqn:E; [|done].
    simpl in Hs. destruct (step σ1 e) as [σ2|] eqn:E2; [|done]. simplify_eq.
    eapply routed_step; [|exact E2]. by apply IH.
Qed.

End Logging.

(** ** [WithSkipIfRunning]: one run of a job at a time *)

Section Skipping.
Context `{Host}.

Lemma unsignalled_trans rt1 rt2 rt3 :
  unsignalled rt1 rt2 → unsignalled rt2 rt3 → unsignalled rt1 rt3.
Proof. intros [? ?] [? ?]. split; congruence. Qed.

Lemma unsignalled_Info l msg kv rt : isAdapter l → unsignalled rt (cron.Info l msg kv rt).
Proof. by intros [lg ->]. Qed.

Lemma activate_unsignalled l now es rt :
  isAdapter l → unsignalled rt (cron.activate l now es rt).2.
Proof.
  intros Hl. revert rt. induction es as [|e es IH]; intros rt; simpl; [done|].
  match goal with |- context [cron.activate l now es ?r] =>
    specialize (IH r); destruct (cron.activate l now es r) as [es' rt'] eqn:E end.
  simpl in *. eapply unsignalled_trans; [by apply unsignalled_Info | exact IH].
Qed.

Lemma runDue_unsignalled l now es rt :
  isAdapter l → unsignalled rt (cron.runDue l now es rt).2.
Proof.
  intros Hl. revert rt. induction es as [|e es IH]; intros rt; simpl; [done|].
  destruct (After (cron.Next e) now || IsZero (cron.Next e)); simpl; [done|].
  match goal with |- context [cron.runDue l now es ?r] =>
    specialize (IH r); destruct (cron.runDue l now es r) as [[es' js] rt'] eqn:E end.
  simpl in *. eapply unsignalled_trans; [by apply unsignalled_Info | exact IH].
Qed.

(** [Then]: the channels of the wrapped job are new and full. *)
Lemma Then_channels ws j rt :
  let '(j', rt') := cron.Then ws j rt in
  (nextChan rt ≤ nextChan rt')%nat
  ∧ (∀ ch, (ch < nextChan rt)%nat → chans rt' !! ch = chans rt !! ch)
  ∧ (∀ ch, ch ∈ channels j' → ch ∈ channels j ∨ (nextChan rt ≤ ch < nextChan rt')%nat)
  ∧ (∀ ch, ch ∈ channels j → ch ∈ channels j')
  ∧ ((∃ l, cron.SkipIfStillRunning l ∈ ws) → channels j' ≠ []).
Proof.
  induction ws as [|w ws IH]; simpl.
  - split; [done|]. split; [done|]. split; [eauto|]. split; [done|].
    intros [l Hl]. by apply elem_of_nil in Hl.
  - destruct (cron.Then ws j rt) as [j' rt'] eqn:E.
    destruct IH as (I1 & I2 & I3 & I4 & I5). destruct w as [l|l]; simpl.
    + split; [done|]. split; [done|]. split; [done|]. split; [done|].
      intros [l' [Hl|Hl]%elem_of_cons]; [done|]. apply I5. eauto.
    + split; [lia|]. split; [|split; [|split]].
      * intros ch Hch. rewrite lookup_insert_ne by lia. by apply I2.
      * intros ch [->|Hch]%elem_of_cons; [right; lia|].
        apply I3 in Hch as [?|?]; [by left|right; lia].
      * intros ch Hch. right. by apply I4.
      * done.
Qed.

(** [enter]: a job whose function is called has taken the token of each of
    its channels; a job that is skipped leaves the channels as they
    were. *)
Lemma enter_channels j rt :
  adapted j →
  let '(o, rt') := cron.enter j rt in
  nextChan rt' = nextChan rt
  ∧ match o with
    | Some _ =>
        (∀ ch, ch ∈ channels j → chans rt !! ch = Some true)
        ∧ (∀ ch, ch ∈ channels j → chans rt' !! ch = Some false)
        ∧ (∀ ch, ch ∉ channels j → chans rt' !! ch = chans rt !! ch)
    | None => chans rt' = chans rt
    end.
Proof.
  revert rt. induction j as [f | l j IH | l ch j IH]; intros rt Hj; simpl in *.
  - split; [done|]. split; [|split]; try done.
    all: intros ch Hch; by apply elem_of_nil in Hch.
  - apply IH, Hj.
  - destruct Hj as [Hl Hj]. unfold isFull.
    destruct (chans rt !! ch) as [[|]|] eqn:Hch.
    + specialize (IH (setChan ch false rt) Hj).
      destruct (cron.enter j (setChan ch false rt)) as [[f|] rt'] eqn:E; simpl in *.
      * destruct IH as (IH0 & IH1 & IH2 & IH3). split; [done|].
        assert (ch ∉ channels j) as Hnot.
        { intros Hin. apply IH1 in Hin. rewrite lookup_insert_eq in Hin. done. }
        split; [|split].
        -- intros c [->|Hc]%elem_of_cons; [done|].
           pose proof (IH1 c Hc) as Hx. rewrite lookup_insert_ne in Hx; [done|].
           intros ->. done.
        -- intros c [->|Hc]%elem_of_cons; [|by apply IH2].
           rewrite IH3 by done. by rewrite lookup_insert_eq.
        -- intros c Hc. apply not_elem_of_cons in Hc as [Hne Hc].
           rewrite IH3 by done. by rewrite lookup_insert_ne.
      * destruct IH as (IH0 & IH1). split; [done|]. rewrite IH1.
        rewrite insert_insert_eq. by apply insert_id.
    + by destruct Hl as [lg ->].
    + by destruct Hl as [lg ->].
Qed.

(** [leave]: the channels of other jobs are left alone; after a normal
    return the tokens of this job are back, after a panic the token of a
    skipping wrapper that surrounds no recovering one is not. *)
Lemma leave_channels j o rt :
  adapted j →
  let '(o', rt') := cron.leave j o rt in
  nextChan rt' = nextChan rt
  ∧ (∀ ch, ch ∉ channels j → chans rt' !! ch = chans rt !! ch)
  ∧ (o = Returns → o' = Returns ∧ ∀ ch, ch ∈ channels j → chans rt' !! ch = Some true)
  ∧ (silent j → o' = o ∧ ∀ v, o = Panics v → chans rt' = chans rt).
Proof.
  revert rt. induction j as [f | l j IH | l ch j IH]; intros rt Hj; simpl in *.
  - split; [done|]. split; [done|]. split; [|by intros _; split].
    intros Ho. split; [done|]. intros ch Hch. by apply elem_of_nil in Hch.
  - destruct Hj as [[lg ->] Hj]. specialize (IH rt Hj).
    destruct (cron.leave j o rt) as [[|v] rt'] eqn:E; simpl in *.
    + destruct IH as (I0 & I1 & I2 & _). split; [done|]. split; [done|]. split; [|by intros []].
      intros Ho. split; [done|]. by apply I2.
    + destruct IH as (I0 & I1 & I2 & _). split; [done|]. split; [done|]. split; [|by intros []].
      intros Ho. by destruct (I2 Ho).
  - destruct Hj as [Hl Hj]. specialize (IH rt Hj).
    destruct (cron.leave j o rt) as [[|v] rt'] eqn:E; simpl in *.
    + destruct IH as (I0 & I1 & I2 & I3). split; [done|]. split; [|split].
      * intros c Hc. apply not_elem_of_cons in Hc as [Hne Hc].
        rewrite lookup_insert_ne by done. by apply I1.
      * intros Ho. split; [done|]. destruct (I2 Ho) as [_ I2'].
        intros c [->|Hc]%elem_of_cons; [by rewrite lookup_insert_eq|].
        destruct (decide (ch = c)) as [->|Hne]; [by rewrite lookup_insert_eq|].
        rewrite lookup_insert_ne by done. by apply I2'.
      * intros Hs. destruct (I3 Hs) as [<- _]. split; [done|]. by intros v.
    + destruct IH as (I0 & I1 & I2 & I3). split; [done|]. split; [|split].
      * intros c Hc. apply not_elem_of_cons in Hc as [Hne Hc]. by apply I1.
      * intros Ho. by destruct (I2 Ho).
      * intros Hs. destruct (I3 Hs) as [<- I3']. split; [done|]. done.
Qed.


Lemma imap_runs_lookup n js i r :
  imap (fun i j => {| cron.run := (n + i)%nat; cron.job := j; cron.phase := cron.Spawned |}) js !! i
    = Some r →
  ∃ j, js !! i = Some j ∧ r = {| cron.run := (n + i)%nat; cron.job := j; cron.phase := cron.Spawned |}.
Proof.
  rewrite list_lookup_imap. destruct (js !! i) as [j|]; simpl; [|done].
  intros [= <-]. eauto.
Qed.

Lemma NoDup_runs_filter (p : cron.JobRun → bool) l :
  NoDup (cron.run <$> l) → NoDup (cron.run <$> List.filter p l).
Proof.
  induction l as [|r l IH]; simpl; [done|].
  intros [Hnot Hnd]%NoDup_cons. destruct (p r); simpl; [|by apply IH].
  apply NoDup_cons. split; [|by apply IH].
  intros (r' & Hr' & Hin)%list_elem_of_fmap. apply Hnot.
  apply list_elem_of_fmap. exists r'. split; [done|].
  by apply elem_of_filter_list in Hin.
Qed.

Lemma runs_setPhase x p c :
  cron.run <$> cron.jobWaiter (setPhase x p c) = cron.run <$> cron.jobWaiter c.
Proof.
  unfold setPhase. simpl. induction (cron.jobWaiter c) as [|r l IH]; simpl; [done|].
  f_equal; [|exact IH]. destruct (Nat.eqb_spec (cron.run r) x); simpl; congruence.
Qed.

Lemma NoDup_runs_inj (l : list cron.JobRun) r1 r2 :
  NoDup (cron.run <$> l) → r1 ∈ l → r2 ∈ l → cron.run r1 = cron.run r2 → r1 = r2.
Proof.
  intros Hnd [i Hi]%list_elem_of_lookup [j Hj]%list_elem_of_lookup Heq.
  assert (i = j) as ->; [|congruence].
  eapply NoDup_lookup; [exact Hnd| |]; rewrite list_lookup_fmap.
  - by rewrite Hi.
  - rewrite Hj. simpl. by rewrite Heq.
Qed.

(** What a call of [AddFunc] does to the entries and the channels. *)
Lemma AddFunc_channels spec fn c rt r c' rt' :
  isAdapter (cron.logger c) →
  cron.AddFunc spec fn c rt = (r, c', rt') →
  (c' = c ∧ rt' = rt)
  ∨ ∃ j rt1 e, cron.Then (cron.chain c) (cron.FuncJob fn) rt = (j, rt1)
      ∧ unsignalled rt1 rt'
      ∧ cron.entries c' = cron.entries c ++ [e]
      ∧ cron.ID e = cron.nextID c + 1 ∧ cron.WrappedJob e = j
      ∧ cron.nextID c' = cron.nextID c + 1 ∧ cron.chain c' = cron.chain c
      ∧ cron.jobWaiter c' = cron.jobWaiter c ∧ cron.nextRun c' = cron.nextRun c.
Proof.
  intros Hl. unfold cron.AddFunc, cron.AddJob.
  destruct (cron.parser c spec) as [sch|err|v]; [|intros [= <- <- <-]; by left..].
  unfold cron.Schedule_.
  destruct (cron.Then (cron.chain c) (cron.FuncJob fn) rt) as [j rt1] eqn:E.
  destruct (cron.running c); intros [= <- <- <-]; right; eexists j, rt1, _; simpl.
  - split; [done|]. split; [by apply unsignalled_Info|]. done.
  - split; [done|]. split; [done|]. done.
Qed.

Lemma owner_sub σ σ' :
  (∀ j, held σ' j → held σ j) →
  (∀ j1 j2 ch, held σ j1 → held σ j2 → ch ∈ channels j1 → ch ∈ channels j2 → j1 = j2) →
  ∀ j1 j2 ch, held σ' j1 → held σ' j2 → ch ∈ channels j1 → ch ∈ channels j2 → j1 = j2.
Proof. intros Hsub Ho j1 j2 ch H1 H2. apply Ho; by apply Hsub. Qed.

(** Steps that touch neither the goroutines nor the channels and add no
    entry. *)
Lemma exclusive_frame σ σ' :
  (∀ e', e' ∈ cron.entries (cronOf (sched σ')) →
     ∃ e, e ∈ cron.entries (cronOf (sched σ)) ∧ cron.ID e' = cron.ID e
          ∧ cron.WrappedJob e' = cron.WrappedJob e) →
  cron.jobWaiter (cronOf (sched σ')) = cron.jobWaiter (cronOf (sched σ)) →
  cron.nextRun (cronOf (sched σ')) = cron.nextRun (cronOf (sched σ)) →
  cron.nextID (cronOf (sched σ')) = cron.nextID (cronOf (sched σ)) →
  cron.chain (cronOf (sched σ')) = cron.chain (cronOf (sched σ)) →
  skipIfRunning (sched σ') = skipIfRunning (sched σ) →
  unsignalled (rt σ) (rt σ') →
  exclusive σ → exclusive σ'.
Proof.
  intros He Hj Hn Hi Hc Hs [Hch Hnc] [X1 X2 X3 X4 X5 X6 X7 X8 X9 X10 X11 X12].
  split; rewrite ?Hj, ?Hn, ?Hi, ?Hc, ?Hs, ?Hch, ?Hnc; try done.
  - intros e ch (e0 & He0 & _ & ->)%He. by apply X4.
  - intros e1 e2 ch (e1' & H1 & -> & ->)%He (e2' & H2 & -> & ->)%He. by apply X7.
  - intros e (e0 & He0 & -> & _)%He. by apply X8.
  - intros Hskip e (e0 & He0 & _ & ->)%He. by apply X10.
  - eapply owner_sub; [|exact X12].
    intros j [(e1 & (e0 & He0 & _ & Hw)%He & <-)|(r & Hr & <-)].
    + left. exists e0. by rewrite Hw.
    + right. exists r. by rewrite <- Hj.
Qed.

Lemma exclusive_init now opts : exclusive (init now opts).
Proof.
  unfold init, New. simpl. set (s := fold_left applyOption opts _).
  split; simpl.
  all: try (destruct (skipIfRunning s); simpl;
            intros; match goal with H : _ ∈ [] |- _ => by apply elem_of_nil in H end).
  - destruct (skipIfRunning s); simpl; apply NoDup_nil_2.
  - intros ->. simpl. eexists. apply list_elem_of_further, list_elem_of_here.
  - intros j1 j2 ch [(e & He & _)|(r & Hr & _)]; exfalso; simpl in *;
      destruct (skipIfRunning s); simpl in *; by eapply elem_of_nil.
Qed.

Lemma exclusive_step σ e σ' : configured σ → exclusive σ → step σ e = Some σ' → exclusive σ'.
Proof.
  intros Hcfg Hex Hstep. unfold step in Hstep.
  destruct (crashed (rt σ)) eqn:Hcr; [done|].
  pose proof (cfg_logger _ Hcfg) as Hl.
  assert (∀ name spec fn r s' rt',
    Cron name spec fn (sched σ) (rt σ) = (r, s', rt') →
    exclusive {| sched := s'; rt := rt'; stopping := stopping σ |}) as Hreg.
  { clear Hstep. intros name spec fn r s' rt' Hc. unfold Cron in Hc.
    destruct (cron.AddFunc _ _ _ _) as [[a c] rt1] eqn:Ea.
    destruct (AddFunc_channels _ _ _ _ _ _ _ Hl Ea)
      as [[-> ->]|(j & rt0 & e0 & Et & [Hu1 Hu2] & Ee & Eid & Ew & En & Ec & Ej & Er)].
    { destruct a; simplify_eq; eapply exclusive_frame; try exact Hex; simpl; eauto; done. }
    assert (skipIfRunning s' = skipIfRunning (sched σ) ∧ cronOf s' = c
            ∧ unsignalled rt0 rt') as (Hs & Hc' & [Hu3 Hu4]).
    { destruct a; simplify_eq; simpl; done. }
    clear Hc. subst c.
    pose proof (Then_channels (cron.chain (cronOf (sched σ))) (cron.FuncJob (wrappedFn fn)) (rt σ)) as Ht.
    rewrite Et in Ht. destruct Ht as (T1 & T2 & T3 & T4 & T5).
    destruct Hex as [X1 X2 X3 X4 X5 X6 X7 X8 X9 X10 X11 X12].
    assert (∀ ch, ch ∈ channels (cron.WrappedJob e0) →
                  (nextChan (rt σ) ≤ ch < nextChan rt')%nat) as Hnew.
    { intros ch Hch. rewrite Ew in Hch. apply T3 in Hch as [Hch|Hch]; [by apply elem_of_nil in Hch|].
      rewrite Hu4. done. }
    split; simpl; rewrite ?Ee, ?Ej, ?Er, ?En, ?Ec, ?Hs, ?Hu3, ?Hu4; try done.
    - intros r0 f ctx ch Hr Hp Hch. rewrite T2; [by eapply X1|]. by eapply X3.
    - intros r0 ch Hr Hch. specialize (X3 r0 ch Hr Hch). lia.
    - intros e1 ch [He1|He1%list_elem_of_singleton]%elem_of_app Hch.
      + specialize (X4 e1 ch He1 Hch). lia.
      + subst e1. apply Hnew in Hch. lia.
    - intros e1 e2 ch [He1|He1%list_elem_of_singleton]%elem_of_app
                      [He2|He2%list_elem_of_singleton]%elem_of_app Hne Hch.
      + exact (X7 e1 e2 ch He1 He2 Hne Hch).
      + subst e2. intros Hch2%Hnew. specialize (X4 e1 ch He1 Hch). lia.
      + subst e1. intros Hch2. apply Hnew in Hch. specialize (X4 e2 ch He2 Hch2). lia.
      + by subst.
    - intros e1 [He1|He1%list_elem_of_singleton]%elem_of_app; [|subst e1; lia].
      specialize (X8 e1 He1). lia.
    - intros Hskip e1 [He1|He1%list_elem_of_singleton]%elem_of_app; [by apply X10|].
      subst e1. rewrite Ew. apply T5. by apply X9.
    - assert (∀ j0, held {| sched := s'; rt := rt'; stopping := stopping σ |} j0 →
                held σ j0 ∨ j0 = cron.WrappedJob e0) as Hheld.
      { intros j0 [(e1 & He & <-)|(r1 & Hr1 & <-)]; simpl in *.
        - rewrite Ee in He. apply elem_of_app in He as [He|He%list_elem_of_singleton].
          + left. left. eauto.
          + right. by subst.
        - rewrite Ej in Hr1. left. right. eauto. }
      assert (∀ j0 ch, held σ j0 → ch ∈ channels j0 → (ch < nextChan (rt σ))%nat) as Hfresh.
      { intros j0 ch [(e1 & He & <-)|(r1 & Hr1 & <-)] Hch; [by eapply X4|by eapply X3]. }
      intros j1 j2 ch [H1| ->]%Hheld [H2| ->]%Hheld Hc1 Hc2.
      + by eapply X12.
      + apply Hnew in Hc2. specialize (Hfresh _ _ H1 Hc1). lia.
      + apply Hnew in Hc1. specialize (Hfresh _ _ H2 Hc2). lia.
      + done. }
  destruct e as [name d fn|name expr fn|name| | |i|d|id| |x|x o|t|t].
  - rewrite Every_Cron in Hstep.
    destruct (Cron _ _ _ _ _) as [[r s'] rt'] eqn:E. simplify_eq. by eapply Hreg.
  - destruct (Cron _ _ _ _ _) as [[r s'] rt'] eqn:E. simplify_eq. by eapply Hreg.
  - unfold Remove in Hstep. destruct (jobs (sched σ) !! name) as [job|].
    + unfold cron.Remove in Hstep. destruct Hl as [lg Hl].
      destruct (cron.running (cronOf (sched σ))) eqn:Er; simplify_eq;
        (eapply exclusive_frame; [..|exact Hex]); simpl; rewrite ?Hl; try done.
      all: intros e' He'%elem_of_filter_list; eauto.
    + simplify_eq. eapply exclusive_frame; try exact Hex; simpl; eauto; done.
  - unfold Start in Hstep. destruct (started (sched σ)).
    { simplify_eq. eapply exclusive_frame; try exact Hex; simpl; eauto; done. }
    destruct (baseContext_Some (sched σ)) as [p Hp]. rewrite Hp in Hstep. simpl in Hstep.
    unfold cron.Start in Hstep. simpl in Hstep.
    destruct (cron.running (cronOf (sched σ))).
    + simplify_eq. eapply exclusive_frame; try exact Hex; simpl; eauto; done.
    + match type of Hstep with context [cron.activate ?l ?n ?es ?r] =>
        pose proof (activate_unsignalled l n es r Hl) as Hq;
        pose proof (elem_of_activate l n es r) as Hin;
        destruct (cron.activate l n es r) as [es' rt'] eqn:E end.
      simplify_eq. simpl in *. eapply exclusive_frame; try exact Hex; simpl; eauto.
      * intros e' (e0 & ? & ? & ? & ?)%Hin. eauto.
      * eapply unsignalled_trans; [|exact Hq]. destruct Hl as [lg ->]. done.
  - destruct (started (sched σ)); unfold stopLocked, stopped in Hstep; simpl in Hstep;
      simplify_eq; eapply exclusive_frame; try exact Hex; simpl; eauto; done.
  - destruct (stopping σ !! i) as [c|] eqn:Ei; [|done].
    unfold stopUnlocked, cron.Stop in Hstep. destruct Hl as [lg Hl].
    destruct (cron.running (cronOf (sched σ))) eqn:Er; simpl in Hstep; simplify_eq;
      eapply exclusive_frame; try exact Hex; simpl; rewrite ?Hl; eauto.
    all: by destruct c.
  - simplify_eq. eapply exclusive_frame; try exact Hex; simpl; eauto; done.
  - simplify_eq. eapply exclusive_frame; try exact Hex; simpl; eauto; done.
  - destruct (cron.running (cronOf (sched σ))) eqn:Hrun; [|done].
    unfold cron.wake in Hstep.
    match type of Hstep with context [cron.runDue ?l ?n ?es ?r] =>
        pose proof (runDue_unsignalled l n es r Hl) as Hq;
        pose proof (elem_of_runDue l n es r) as Hin;
        pose proof (runDue_jobs l n es r) as Hjs;
        destruct (cron.runDue l n es r) as [[es' js] rt'] eqn:E end.
    simpl in *. simplify_eq.
    destruct (startJobs_spec js (cron.withEntries es' (cronOf (sched σ))))
      as (E1 & E2 & _ & _ & _ & _ & E7 & _ & E9 & E10).
    simpl in *.
    assert (unsignalled (rt σ) rt') as [Hu1 Hu2].
    { eapply unsignalled_trans; [|exact Hq]. destruct Hl as [lg ->]. done. }
    assert (∀ e', e' ∈ es' → ∃ e0, e0 ∈ cron.entries (cronOf (sched σ))
              ∧ cron.ID e' = cron.ID e0 ∧ cron.WrappedJob e' = cron.WrappedJob e0) as Hes.
    { intros e' (e0 & He0 & ? & _ & ?)%Hin. exists e0. by rewrite <- sortByTime_perm. }
    assert (∀ r, r ∈ imap (fun i j => {| cron.run := (cron.nextRun (cronOf (sched σ)) + i)%nat;
                                         cron.job := j; cron.phase := cron.Spawned |}) js →
              cron.phase r = cron.Spawned
              ∧ (cron.nextRun (cronOf (sched σ)) ≤ cron.run r
                 < cron.nextRun (cronOf (sched σ)) + List.length js)%nat
              ∧ ∃ e0, e0 ∈ cron.entries (cronOf (sched σ)) ∧ cron.job r = cron.WrappedJob e0) as Hnew.
    { intros r [i Hi]%list_elem_of_lookup. apply imap_runs_lookup in Hi as (j & Hj & ->). simpl.
      split; [done|]. split; [apply lookup_lt_Some in Hj; lia|].
      apply list_elem_of_lookup_2, Hjs in Hj as (e0 & He0 & ->).
      exists e0. by rewrite <- sortByTime_perm. }
    destruct Hex as [X1 X2 X3 X4 X5 X6 X7 X8 X9 X10 X11 X12].
    split; simpl; rewrite ?E1, ?E2, ?E7, ?E9, ?E10, ?Hu1, ?Hu2; try done.
    + intros r f ctx ch [Hr|Hr]%elem_of_app Hp Hch; [by eapply X1|].
      apply Hnew in Hr as [Hr _]. congruence.
    + intros r1 r2 f1 c1 f2 c2 ch [H1|H1]%elem_of_app [H2|H2]%elem_of_app Hne P1 P2 Hch.
      * exact (X2 r1 r2 f1 c1 f2 c2 ch H1 H2 Hne P1 P2 Hch).
      * apply Hnew in H2 as [H2 _]. congruence.
      * apply Hnew in H1 as [H1 _]. congruence.
      * apply Hnew in H1 as [H1 _]. congruence.
    + intros r ch [Hr|Hr]%elem_of_app Hch; [by eapply X3|].
      apply Hnew in Hr as (_ & _ & e0 & He0 & Hj). rewrite Hj in Hch. by eapply X4.
    + intros e' ch (e0 & He0 & _ & Hw)%Hes Hch. rewrite Hw in Hch. by eapply X4.
    + rewrite fmap_app. apply NoDup_app. split; [done|]. split.
      * intros x (r & -> & Hr)%list_elem_of_fmap (r' & Hx & Hr')%list_elem_of_fmap.
        apply X6 in Hr. apply Hnew in Hr' as (_ & Hr' & _). lia.
      * apply NoDup_alt. intros i j x. rewrite !list_lookup_fmap.
        destruct (imap _ js !! i) as [ri|] eqn:Ei; [|done].
        destruct (imap _ js !! j) as [rj|] eqn:Ej; [|done].
        apply imap_runs_lookup in Ei as (? & _ & ->).
        apply imap_runs_lookup in Ej as (? & _ & ->). simpl. intros [= <-] [= ?]. lia.
    + intros r [Hr|Hr]%elem_of_app; [apply X6 in Hr; lia|].
      apply Hnew in Hr as (_ & Hr & _). lia.
    + intros e1 e2 ch (e1' & H1 & -> & ->)%Hes (e2' & H2 & -> & ->)%Hes Hne Hch.
      exact (X7 e1' e2' ch H1 H2 Hne Hch).
    + intros e' (e0 & He0 & -> & _)%Hes. by apply X8.
    + intros Hskip e' (e0 & He0 & _ & ->)%Hes. by apply X10.
    + intros Hskip r [Hr|Hr]%elem_of_app; [by apply X11|].
      apply Hnew in Hr as (_ & _ & e0 & He0 & ->). by apply X10.
    + eapply owner_sub; [|exact X12]. unfold held. simpl. rewrite E1, E10. simpl.
      intros j0 [(e1 & (e0 & He0 & _ & Hw)%Hes & <-)|(r1 & [Hr1|Hr1]%elem_of_app & <-)].
      * left. exists e0. by rewrite Hw.
      * right. eauto.
      * apply Hnew in Hr1 as (_ & _ & e0 & He0 & ->). left. eauto.
  - destruct (begin x (sched σ) (rt σ)) as [[s' rt']|] eqn:Hb; [|done]. simplify_eq.
    unfold begin in Hb. destruct (findRun x (cronOf (sched σ))) as [r|] eqn:Hf; [|done].
    apply findRun_Some in Hf as [Hin Hx]. destruct (cfg_runs _ Hcfg r Hin) as [Had _].
    destruct (cron.phase r) eqn:Hph; [|done].
    pose proof (enter_channels (cron.job r) (rt σ) Had) as Hen.
    destruct Hex as [X1 X2 X3 X4 X5 X6 X7 X8 X9 X10 X11 X12].
    destruct (cron.enter (cron.job r) (rt σ)) as [[fn|] rt1]; simplify_eq.
    + destruct Hen as (Hn & Hfull & Htaken & Hrest).
      assert (∀ r', r' ∈ cron.jobWaiter (setPhase (cron.run r) (cron.InBody fn (jobContext (sched σ)))
                                           (cronOf (sched σ))) →
                (r' ∈ cron.jobWaiter (cronOf (sched σ)) ∧ cron.run r' ≠ cron.run r)
                ∨ (cron.run r' = cron.run r ∧ cron.job r' = cron.job r)) as Hcase.
      { intros r' (r0 & Hr0 & Hrun & Hjob & [[-> Hne]|[Heq Hp]])%elem_of_setPhase; [by left|].
        right. assert (r0 = r) as -> by (by eapply NoDup_runs_inj). done. }
      assert (∀ r' f ctx ch, r' ∈ cron.jobWaiter (cronOf (sched σ)) →
                cron.phase r' = cron.InBody f ctx → ch ∈ channels (cron.job r') →
                ch ∉ channels (cron.job r)) as Hfree.
      { intros r' f ctx ch Hr' Hp Hch Hch'. apply Hfull in Hch'.
        rewrite (X1 r' f ctx ch Hr' Hp Hch) in Hch'. done. }
      split; simpl; rewrite ?Hn, ?runs_setPhase; try done.
      * intros r' f ctx ch [[Hr' Hne]|[Hrun Hjob]]%Hcase Hp Hch.
        -- rewrite Hrest by (by eapply Hfree). by eapply X1.
        -- rewrite Hjob in Hch. by apply Htaken.
      * intros r1 r2 f1 c1 f2 c2 ch [[H1 N1]|[R1 J1]]%Hcase [[H2 N2]|[R2 J2]]%Hcase Hne P1 P2 Hch.
        -- exact (X2 r1 r2 f1 c1 f2 c2 ch H1 H2 Hne P1 P2 Hch).
        -- rewrite J2. by eapply Hfree.
        -- rewrite J1 in Hch. intros Hch2. by eapply (Hfree r2).
        -- congruence.
      * intros r' ch [[Hr' _]|[_ Hjob]]%Hcase Hch; [by eapply X3|].
        rewrite Hjob in Hch. by eapply X3.
      * pose proof (runs_setPhase (cron.run r) (cron.InBody fn (jobContext (sched σ)))
                      (cronOf (sched σ))) as Hsame.
        simpl in Hsame. rewrite Hsame. exact X5.
      * intros r' [[Hr' _]|[Hrun _]]%Hcase; [by apply X6|]. rewrite Hrun. by apply X6.
      * intros Hskip r' [[Hr' _]|[_ Hjob]]%Hcase; [by apply X11|]. rewrite Hjob. by apply X11.
      * eapply owner_sub; [|exact X12]. unfold held. simpl.
        intros j0 [(e1 & He1 & <-)|(r1 & [[Hr1 _]|[_ Hjob]]%Hcase & <-)].
        -- left. eauto.
        -- right. eauto.
        -- right. exists r. by rewrite Hjob.
    + destruct Hen as (Hn & Hc). 
      split; simpl; rewrite ?Hn, ?Hc; try done.
      * intros r' f ctx ch [Hr' _]%elem_of_dropRun. by eapply X1.
      * intros r1 r2 f1 c1 f2 c2 ch [H1 _]%elem_of_dropRun [H2 _]%elem_of_dropRun.
        by apply X2.
      * intros r' ch [Hr' _]%elem_of_dropRun. by apply X3.
      * by apply NoDup_runs_filter.
      * intros r' [Hr' _]%elem_of_dropRun. by apply X6.
      * intros Hskip r' [Hr' _]%elem_of_dropRun. by apply X11.
      * eapply owner_sub; [|exact X12]. unfold held. simpl.
        intros j0 [(e1 & He1 & <-)|(r1 & [Hr1 _]%elem_of_dropRun & <-)]; [left|right]; eauto.
  - destruct (finish x o (sched σ) (rt σ)) as [[s' rt']|] eqn:Hb; [|done]. simplify_eq.
    unfold finish in Hb. destruct (findRun x (cronOf (sched σ))) as [r|] eqn:Hf; [|done].
    apply findRun_Some in Hf as [Hin Hx]. destruct (cfg_runs _ Hcfg r Hin) as [Had _].
    destruct (cron.phase r) as [|f0 c0] eqn:Hph; [done|].
    pose proof (leave_channels (cron.job r) o (rt σ) Had) as Hlv.
    destruct Hex as [X1 X2 X3 X4 X5 X6 X7 X8 X9 X10 X11 X12].
    destruct (cron.leave (cron.job r) o (rt σ)) as [o' rt1].
    destruct Hlv as (Hn & Hrest & _).
    assert (nextChan rt' = nextChan (rt σ) ∧ chans rt' = chans rt1
            ∧ s' = withCron (dropRun x (cronOf (sched σ))) (sched σ)) as (Hn' & Hc' & ->).
    { destruct o'; simplify_eq; done. }
    clear Hb.
    split; simpl; rewrite ?Hn', ?Hc'; try done.
    + intros r' f ctx ch [Hr' Hne]%elem_of_dropRun Hp Hch.
      rewrite Hrest; [by eapply X1|].
      subst x. exact (X2 r' r f ctx f0 c0 ch Hr' Hin Hne Hp Hph Hch).
    + intros r1 r2 f1 c1 f2 c2 ch [H1 _]%elem_of_dropRun [H2 _]%elem_of_dropRun.
      by apply X2.
    + intros r' ch [Hr' _]%elem_of_dropRun. by apply X3.
    + by apply NoDup_runs_filter.
    + intros r' [Hr' _]%elem_of_dropRun. by apply X6.
    + intros Hskip r' [Hr' _]%elem_of_dropRun. by apply X11.
    + eapply owner_sub; [|exact X12]. unfold held. simpl.
      intros j0 [(e1 & He1 & <-)|(r1 & [Hr1 _]%elem_of_dropRun & <-)]; [left|right]; eauto.
  - destruct (release t (cronOf (sched σ))) as [c|] eqn:Hb; [|done]. simplify_eq.
    unfold release in Hb. destruct (cron.jobWaiter (cronOf (sched σ))) eqn:Hj; [|done].
    destruct (existsb _ _); [|done]. simplify_eq.
    eapply exclusive_frame; try exact Hex; simpl; eauto; done.
  - destruct (cancelToken t (cronOf (sched σ)) (rt σ)) as [[c rt']|] eqn:Hb; [|done].
    simplify_eq. unfold cancelToken in Hb. destruct (existsb _ _); [|done]. simplify_eq.
    eapply exclusive_frame; try exact Hex; simpl; eauto; done.
Qed.

Lemma reachable_exclusive σ : reachable σ → exclusive σ.
Proof.
  apply reachable_induction.
  - apply exclusive_init.
  - intros σ0 e σ' Hr Hex Hs. eapply exclusive_step; [|done..]. by apply reachable_configured.
Qed.

(** X9. [WithSkipIfRunning]: in a scheduler made with it, at no moment
    are two goroutines in the function of one and the same entry, and the
    entries are told apart by their wrapped jobs. *)
Theorem skip_if_running_never_overlaps σ :
  reachable σ → skipIfRunning (sched σ) = true →
  (∀ r1 r2 f1 c1 f2 c2,
     r1 ∈ cron.jobWaiter (cronOf (sched σ)) → r2 ∈ cron.jobWaiter (cronOf (sched σ)) →
     cron.phase r1 = cron.InBody f1 c1 → cron.phase r2 = cron.InBody f2 c2 →
     cron.job r1 = cron.job r2 → r1 = r2)
  ∧ (∀ e1 e2, e1 ∈ cron.entries (cronOf (sched σ)) → e2 ∈ cron.entries (cronOf (sched σ)) →
       cron.WrappedJob e1 = cron.WrappedJob e2 → cron.ID e1 = cron.ID e2).
Proof.
  intros Hr Hskip. destruct (reachable_exclusive σ Hr) as [X1 X2 X3 X4 X5 X6 X7 X8 X9 X10 X11 X12].
  split.
  - intros r1 r2 f1 c1 f2 c2 H1 H2 P1 P2 Hj.
    eapply NoDup_runs_inj; [exact X5|done..|].
    destruct (decide (cron.run r1 = cron.run r2)) as [|Hne]; [done|].
    pose proof (X11 Hskip r1 H1) as Hch.
    destruct (channels (cron.job r1)) as [|ch chs] eqn:E; [done|].
    assert (ch ∈ channels (cron.job r1)) as Hin by (rewrite E; apply list_elem_of_here).
    destruct (X2 r1 r2 f1 c1 f2 c2 ch H1 H2 Hne P1 P2 Hin). by rewrite <- Hj.
  - intros e1 e2 H1 H2 Hw.
    destruct (decide (cron.ID e1 = cron.ID e2)) as [|Hne]; [done|].
    pose proof (X10 Hskip e1 H1) as Hch.
    destruct (channels (cron.WrappedJob e1)) as [|ch chs] eqn:E; [done|].
    assert (ch ∈ channels (cron.WrappedJob e1)) as Hin by (rewrite E; apply list_elem_of_here).
    destruct (X7 e1 e2 ch H1 H2 Hne Hin). by rewrite <- Hw.
Qed.

End Skipping.

(** ** Faults in job bodies *)

Section Faults.
Context `{Host}.

(** Which entries the timer case reschedules and which jobs it starts
    depends on the clock alone, not on the rest of the run time. *)
Lemma runDue_indep l now es rt rt' :
  (cron.runDue l now es rt).1 = (cron.runDue l now es rt').1.
Proof.
  revert rt rt'. induction es as [|e es IH]; intros rt rt'; simpl; [done|].
  destruct (After (cron.Next e) now || IsZero (cron.Next e)); simpl; [done|].
  match goal with |- context [cron.runDue l now es ?r] => set (r1 := r) end.
  match goal with |- context [cron.runDue l now es ?r] =>
    lazymatch r with r1 => fail | _ => set (r2 := r) end end.
  specialize (IH r1 r2).
  destruct (cron.runDue l now es r1) as [[es1 js1] rt1].
  destruct (cron.runDue l now es r2) as [[es2 js2] rt2]. simpl in *. by simplify_eq.
Qed.

Lemma wake_indep c rt rt' : clock rt = clock rt' → (cron.wake c rt).1 = (cron.wake c rt').1.
Proof.
  intros Hc. unfold cron.wake. rewrite Hc.
  match goal with |- context [cron.runDue ?l ?n ?es ?r] => set (r1 := r) end.
  match goal with |- context [cron.runDue ?l ?n ?es ?r] =>
    lazymatch r with r1 => fail | _ => set (r2 := r) end end.
  pose proof (runDue_indep (cron.logger c) (clock rt') (cron.sortByTime (cron.entries c)) r1 r2)
    as Hi.
  destruct (cron.runDue _ _ _ r1) as [[es1 js1] rt1].
  destruct (cron.runDue _ _ _ r2) as [[es2 js2] rt2]. simpl in *. by simplify_eq.
Qed.

Lemma reachable_routed σ : reachable σ → routed (logger (sched σ)) σ.
Proof.
  apply (reachable_induction (λ σ, routed (logger (sched σ)) σ)).
  - apply routed_init.
  - intros σ0 e σ' _ Hrt Hs. pose proof (routed_step _ _ _ _ Hrt Hs) as Hrt'.
    by rewrite (rt_sched _ _ Hrt').
Qed.

(** A panic passes through the skipping wrappers and leaves the run time
    as it is: no token is put back. *)
Lemma leave_silent_panic j v rt : silent j → cron.leave j (Panics v) rt = (Panics v, rt).
Proof.
  induction j as [f | l j IH | l ch j IH]; simpl; [done|done|].
  intros Hj. by rewrite (IH Hj).
Qed.

Lemma leave_bare j o rt : silent j → channels j = [] → cron.leave j o rt = (o, rt).
Proof. by destruct j. Qed.

(** Whether a job gets to its function is decided by its own channels. *)
Lemma enter_agree j rt1 rt2 :
  (∀ ch, ch ∈ channels j → chans rt1 !! ch = chans rt2 !! ch) →
  (cron.enter j rt1).1 = (cron.enter j rt2).1.
Proof.
  revert rt1 rt2. induction j as [f | l j IH | l ch j IH]; intros rt1 rt2 Hch; simpl in *.
  - done.
  - by apply IH.
  - unfold isFull. rewrite (Hch ch) by left.
    destruct (chans rt2 !! ch) as [[|]|]; [|done|done].
    specialize (IH (setChan ch false rt1) (setChan ch false rt2)).
    destruct (cron.enter j (setChan ch false rt1)) as [[f1|] r1],
             (cron.enter j (setChan ch false rt2)) as [[f2|] r2]; simpl in *;
      apply IH; intros c Hc; simpl;
      (destruct (decide (ch = c)) as [->|Hne];
       [by rewrite !lookup_insert_eq | rewrite !lookup_insert_ne by done; apply Hch; by right]).
Qed.

(** A job one of whose tokens is missing does not get to its function. *)
Lemma enter_empty j rt :
  (∀ ch, ch ∈ channels j → chans rt !! ch = Some false) → channels j ≠ [] →
  (cron.enter j rt).1 = None.
Proof.
  induction j as [f | l j IH | l ch j IH]; simpl; intros Hch Hne; [done|by apply IH|].
  unfold isFull. rewrite (Hch ch) by left. done.
Qed.

(** C5. Whatever the options the scheduler was made with, the chain of
    its cron starts with the recovering wrapper. So when the function of
    a job panics, the panic is caught in the goroutine of the job and
    logged by the scheduler's logger as an error with the panic value, and
    nothing else happens to the run time: the process stays alive. The
    scheduler is left as a normal return leaves it: the registry, the
    entries with their next activations and the running flags are
    untouched, the next wake-up of the library starts the same jobs as
    after a normal return, and every other job the cron holds gets to its
    function exactly when it would have after a normal return. (Under
    [WithSkipIfRunning] the job that panicked is itself skipped from then
    on: the library's wrapper does not put its token back after a
    panic.) *)
Theorem C5_panic_is_isolated σ x r f ctx v :
  reachable σ →
  findRun x (cronOf (sched σ)) = Some r → cron.phase r = cron.InBody f ctx →
  (∀ opts, ∃ l ws, cron.chain (cronOf (New opts)) = cron.Recover l :: ws)
  ∧ ∃ σ' σ'',
      step σ (Finish x (Panics v)) = Some σ'
      ∧ step σ (Finish x Returns) = Some σ''
      ∧ crashed (rt σ') = false
      ∧ rt σ' = Error (logger (sched σ)) "panic"
                  [("err"%string, VError v); ("stack"%string, VStack)] (rt σ)
      ∧ sched σ' = sched σ'' ∧ stopping σ' = stopping σ''
      ∧ jobs (sched σ') = jobs (sched σ)
      ∧ cron.entries (cronOf (sched σ')) = cron.entries (cronOf (sched σ))
      ∧ cron.running (cronOf (sched σ')) = cron.running (cronOf (sched σ))
      ∧ started (sched σ') = started (sched σ)
      ∧ (∀ σw, step σ'' Wake = Some σw → ∃ σw', step σ' Wake = Some σw' ∧ sched σw' = sched σw)
      ∧ (∀ j, held σ' j → j ≠ cron.job r →
           (cron.enter j (rt σ')).1 = (cron.enter j (rt σ'')).1)
      ∧ (channels (cron.job r) = [] →
         rt σ' = Error (logger (sched σ)) "panic"
                   [("err"%string, VError v); ("stack"%string, VStack)] (rt σ''))
      ∧ (channels (cron.job r) ≠ [] → (cron.enter (cron.job r) (rt σ')).1 = None).
Proof.
  intros Hr Hf Hph. pose proof (reachable_configured _ Hr) as Hcfg. split.
  { intros opts. destruct (cfg_chain _ (configured_init 0 opts)) as (l & ws & Hc & _). eauto. }
  pose proof Hf as Hf'. apply findRun_Some in Hf' as [Hin Hx].
  destruct (cfg_runs _ Hcfg r Hin) as [Had (l & j & Hrec & Hsil)].
  pose proof (rt_runs _ _ (reachable_routed _ Hr) r Hin) as Hto.
  destruct (reachable_exclusive _ Hr) as [X1 _ _ _ _ _ _ _ _ _ _ X12].
  pose proof (leave_channels (cron.job r) Returns (rt σ) Had) as Hlv.
  pose proof (leave_quiet (cron.job r) Returns (rt σ) Had) as (Hclk & _ & _ & _ & Hcr).
  rewrite Hrec in Hto, Hlv, Hclk, Hcr. simpl in Hto, Hlv, Hclk, Hcr. destruct Hto as [-> Hto].
  pose proof (leave_silent_panic j v (rt σ) Hsil) as Ep.
  destruct (leave_silent j Returns (rt σ) Hsil) as [Ho _].
  pose proof (leave_bare j Returns (rt σ) Hsil) as Hbare.
  destruct (cron.leave j Returns (rt σ)) as [o2 rt2] eqn:E2. simpl in Ho. subst o2.
  simpl in Hlv, Hclk, Hcr. destruct Hlv as (Hn & Hrest & _ & _).
  assert (crashed rt2 = false) as Hal by (rewrite Hcr; apply (cfg_alive _ Hcfg)).
  exists {| sched := withCron (dropRun x (cronOf (sched σ))) (sched σ);
            rt := Error (logger (sched σ)) "panic"
                    [("err"%string, VError v); ("stack"%string, VStack)] (rt σ);
            stopping := stopping σ |},
         {| sched := withCron (dropRun x (cronOf (sched σ))) (sched σ);
            rt := rt2; stopping := stopping σ |}.
  split; [|split].
  - unfold step, finish. rewrite (cfg_alive _ Hcfg), Hf, Hph, Hrec. simpl. by rewrite Ep.
  - unfold step, finish. rewrite (cfg_alive _ Hcfg), Hf, Hph, Hrec. simpl. by rewrite E2.
  - simpl. split; [apply (cfg_alive _ Hcfg)|]. split; [done|]. split; [done|].
    split; [done|]. split; [done|]. split; [done|]. split; [done|]. split; [done|].
    split; [|split; [|split]].
    + intros σw Hw. unfold step in *. simpl in *. rewrite Hal in Hw.
      rewrite (cfg_alive _ Hcfg).
      destruct (cron.running (cronOf (sched σ))); [|done].
      pose proof (wake_indep (dropRun x (cronOf (sched σ)))
                    (Error (logger (sched σ)) "panic"
                       [("err"%string, VError v); ("stack"%string, VStack)] (rt σ))
                    rt2 (eq_sym Hclk)) as Hi.
      destruct (cron.wake _ rt2) as [c2 rtw2].
      destruct (cron.wake _ _) as [c1 rtw1]. simpl in Hi. subst c1. simplify_eq/=. eauto.
    + intros j0 Hheld Hne. apply enter_agree. intros ch Hch. simpl.
      rewrite Hrest; [done|]. intros Hch'. apply Hne.
      apply (X12 j0 (cron.job r) ch); [|right; eauto|done|by rewrite Hrec].
      destruct Hheld as [(e & He & <-)|(r' & [Hr' _]%elem_of_dropRun & <-)]; [left|right]; eauto.
    + rewrite Hrec. simpl. intros Hnil. specialize (Hbare Hnil). by simplify_eq.
    + intros Hne. apply enter_empty; [|done]. intros ch Hch. simpl. by eapply X1.
Qed.

End Faults.

Lemma C5_witness :
  reachable oneJobInBody
  ∧ (∃ r, findRun 0 (cronOf (sched oneJobInBody)) = Some r
          ∧ cron.phase r = cron.InBody 1%nat (Some (cancelCtx 0 Background)))
  ∧ ∃ σ' σ'',
      step oneJobInBody (Finish 0 (Panics "test panic")) = Some σ'
      ∧ step oneJobInBody (Finish 0 Returns) = Some σ''
      ∧ crashed (rt σ') = false
      ∧ rt σ' = Error (logger (sched oneJobInBody)) "panic"
                  [("err"%string, VError "test panic"); ("stack"%string, VStack)]
                  (rt oneJobInBody)
      ∧ sched σ' = sched σ''
      ∧ jobs (sched σ') = jobs (sched oneJobInBody).
Proof.
  destruct (findRun 0 (cronOf (sched oneJobInBody))) as [r|] eqn:Hf;
    [|exfalso; by vm_compute in Hf].
  assert (cron.phase r = cron.InBody 1%nat (Some (cancelCtx 0 Background))) as Hph.
  { assert (cron.phase <$> findRun 0 (cronOf (sched oneJobInBody))
            = Some (cron.InBody 1%nat (Some (cancelCtx 0 Background)))) as Hp by (by vm_compute).
    rewrite Hf in Hp. by injection Hp. }
  split; [apply reachable_oneJobInBody|]. split; [eauto|].
  destruct (C5_panic_is_isolated oneJobInBody 0 r 1%nat (Some (cancelCtx 0 Background))
              "test panic" reachable_oneJobInBody Hf Hph)
    as (_ & σ' & σ'' & H1 & H2 & H3 & H4 & H5 & _ & H7 & _).
  exists σ', σ''. eauto 10.
Defined.

(** Under [WithSkipIfRunning] a job whose function has panicked is not
    run again: its next activation finds the token missing and is
    skipped, where after a normal return it gets to its function. *)
Example panic_loses_the_token :
  let before := [CallCron "job1" "@every 1s" 1%nat; CallStart; Advance Second; Wake; Begin 0] in
  let next := [Advance Second; Wake; Begin 1] in
  possible 0 [WithSkipIfRunning] (before ++ Finish 0 (Panics "test panic") :: next) = true
  ∧ possible 0 [WithSkipIfRunning] (before ++ Finish 0 Returns :: next) = true
  ∧ cron.phase <$> findRun 1 (cronOf (sched (after 0 [WithSkipIfRunning]
                                 (before ++ Finish 0 (Panics "test panic") :: next))))
    = None
  ∧ cron.phase <$> findRun 1 (cronOf (sched (after 0 [WithSkipIfRunning]
                                 (before ++ Finish 0 Returns :: next))))
    = Some (cron.InBody 1%nat (Some (cancelCtx 0 Background))).
Proof. repeat split; by vm_compute. Qed.


(** ** [Every] and the duration it writes into the schedule *)

Section Durations.
Import gostrings.

Lemma digit_spec v : isDigit (digit v) = true ∧ code (digit v) = v mod 10 + 48.
Proof.
  unfold digit. pose proof (Z.mod_pos_bound v 10 ltac:(lia)) as Hb.
  set (k := v mod 10) in *.
  assert (k = 0 ∨ k = 1 ∨ k = 2 ∨ k = 3 ∨ k = 4 ∨ k = 5 ∨ k = 6 ∨ k = 7 ∨ k = 8 ∨ k = 9)
    as Hk by lia.
  clearbody k. intuition (subst k; done).
Qed.

Lemma isDigit_code c : isDigit c = true → 48 <= code c <= 57.
Proof. unfold isDigit. intros [?%Z.leb_le ?%Z.leb_le]%andb_true_iff. lia. Qed.

Lemma value_mono ds x : allDigits ds = true → 0 <= x → x <= value ds x.
Proof.
  revert x. induction ds as [|c ds IH]; intros x Hd Hx; simpl in *; [lia|].
  apply andb_true_iff in Hd as [Hc%isDigit_code Hd].
  specialize (IH (x * 10 + code c - 48) Hd). lia.
Qed.

Lemma value_app ds1 ds2 x : value (ds1 +:+ ds2) x = value ds2 (value ds1 x).
Proof. revert x. induction ds1 as [|c ds1 IH]; intros x; simpl; [done|]. apply IH. Qed.

Lemma allDigits_app ds1 ds2 : allDigits (ds1 +:+ ds2) = allDigits ds1 && allDigits ds2.
Proof. induction ds1 as [|c ds1 IH]; simpl; [done|]. by rewrite IH, andb_assoc. Qed.

(** [leadingInt] reads a run of digits to its value. *)
Lemma leadingInt_value ds buf x :
  allDigits ds = true → 0 <= x → value ds x <= two63 →
  match buf with EmptyString => True | String c _ => isDigit c = false end →
  leadingInt (ds +:+ buf) x = Some (value ds x, buf).
Proof.
  revert x. induction ds as [|c ds IH]; intros x Hd Hx Hv Hbuf; simpl in *.
  - destruct buf as [|c buf]; [done|]. simpl. by rewrite Hbuf.
  - apply andb_true_iff in Hd as [Hc Hd]. rewrite Hc.
    pose proof (isDigit_code c Hc) as Hcode.
    pose proof (value_mono ds (x * 10 + code c - 48) Hd ltac:(lia)) as Hm.
    assert ((two63 / 10 <? x) = false) as ->.
    { apply Z.ltb_ge. apply Z.div_le_lower_bound; lia. }
    assert (uint64 (x * 10 + code c - 48) = x * 10 + code c - 48) as ->.
    { unfold uint64. apply Z.mod_small. unfold two63, two64 in *. lia. }
    assert ((two63 <? x * 10 + code c - 48) = false) as -> by (apply Z.ltb_ge; lia).
    apply IH; try done. lia.
Qed.

Lemma append_assoc (s1 s2 s3 : string) : (s1 +:+ s2) +:+ s3 = s1 +:+ (s2 +:+ s3).
Proof. induction s1 as [|c s1 IH]; [done|]. change (String c ((s1 +:+ s2) +:+ s3) = String c (s1 +:+ (s2 +:+ s3))). by rewrite IH. Qed.

Lemma fmtIntLoop_app fuel v buf :
  fmtIntLoop fuel v buf = fmtIntLoop fuel v EmptyString +:+ buf.
Proof.
  revert v buf. induction fuel as [|fuel IH]; intros v buf; simpl; [done|].
  destruct (0 <? v); [|done].
  rewrite (IH _ (String (digit v) buf)), (IH _ (String (digit v) EmptyString)).
  by rewrite append_assoc.
Qed.

Lemma fmtIntLoop_numeral fuel v :
  0 <= v < 10 ^ Z.of_nat fuel →
  allDigits (fmtIntLoop fuel v EmptyString) = true
  ∧ value (fmtIntLoop fuel v EmptyString) 0 = v
  ∧ (0 < v → fmtIntLoop fuel v EmptyString ≠ EmptyString).
Proof.
  revert v. induction fuel as [|fuel IH]; intros v Hv.
  - simpl in *. split; [done|]. split; lia.
  - simpl. destruct (Z.ltb_spec 0 v) as [Hpos|Hz]; [|simpl; split; [done|]; split; lia].
    rewrite fmtIntLoop_app. destruct (digit_spec v) as [Hd Hc].
    assert (0 <= v / 10 < 10 ^ Z.of_nat fuel) as Hq.
    { split; [apply Z.div_pos; lia|]. apply Z.div_lt_upper_bound; [lia|].
      rewrite Nat2Z.inj_succ, Z.pow_succ_r in Hv by lia. lia. }
    destruct (IH (v / 10) Hq) as (I1 & I2 & _).
    rewrite allDigits_app, value_app, I1, I2. simpl. rewrite Hd, Hc.
    split; [done|]. split.
    + pose proof (Z.div_mod v 10 ltac:(lia)). lia.
    + intros _. by destruct (fmtIntLoop fuel (v / 10) EmptyString).
Qed.

(** [fmtInt] writes a numeral of [v] in front of the buffer. *)
Lemma fmtInt_numeral buf v :
  0 <= v < two64 → ∃ ds, fmtInt buf v = ds +:+ buf ∧ numeral v ds.
Proof.
  intros Hv. unfold fmtInt. destruct (Z.eqb_spec v 0) as [->|Hne].
  - exists "0"%string. by repeat split.
  - rewrite fmtIntLoop_app. eexists. split; [done|].
    destruct (fmtIntLoop_numeral 20 v) as (H1 & H2 & H3).
    { unfold two64 in Hv. simpl. lia. }
    split; [done|]. split; [apply H3; lia|done].
Qed.

Lemma fmtFracLoop_zero prec v buf :
  v mod 10 ^ Z.of_nat prec = 0 →
  fmtFracLoop prec v false buf = (buf, v / 10 ^ Z.of_nat prec, false).
Proof.
  revert v. induction prec as [|prec IH]; intros v Hv.
  - simpl. by rewrite Z.div_1_r.
  - rewrite Nat2Z.inj_succ, Z.pow_succ_r in * by lia. simpl.
    assert (0 < 10 ^ Z.of_nat prec) as Hp by (apply Z.pow_pos_nonneg; lia).
    assert (v mod 10 = 0) as H10.
    { apply Z.mod_divide in Hv; [|lia]. destruct Hv as [k ->].
      apply Z.mod_divide; [lia|]. exists (k * 10 ^ Z.of_nat prec). lia. }
    rewrite H10. simpl. rewrite IH.
    + by rewrite Z.div_div by lia.
    + apply Z.mod_divide in Hv; [|lia]. destruct Hv as [k ->].
      apply Z.mod_divide; [lia|]. exists k.
      replace (k * (10 * 10 ^ Z.of_nat prec)) with (k * 10 ^ Z.of_nat prec * 10) by lia.
      by rewrite Z.div_mul by lia.
Qed.


Lemma length_append (s1 s2 : string) :
  String.length (s1 +:+ s2) = (String.length s1 + String.length s2)%nat.
Proof.
  induction s1 as [|c s1 IH]; [done|].
  change (S (String.length (s1 +:+ s2)) = S (String.length s1 + String.length s2)).
  by rewrite IH.
Qed.

Lemma unitLen_ahead s : numberAhead s → unitLen s = 0%nat.
Proof.
  destruct s as [|c s]; simpl; [done|]. intros ->. by rewrite orb_true_r.
Qed.

Lemma parseGroup_eq s c0 s0 :
  s = String c0 s0 →
  parseGroup s =
      if negb (Ascii.eqb c0 "." || isDigit c0) then inl InvalidDuration
      else
        match leadingInt s 0 with
        | None => inl InvalidDuration
        | Some (v, s1) =>
            let pre := negb (Nat.eqb (String.length s) (String.length s1)) in
            let '(f, scale, s2, post) :=
              match s1 with
              | String "." s1' =>
                  let '(f, scale, s2) := leadingFraction s1' 0 (f64 1) false in
                  (f, scale, s2, negb (Nat.eqb (String.length s1') (String.length s2)))
              | _ => (0, f64 1, s1, false)
              end in
            if negb pre && negb post then inl InvalidDuration
            else
              let i := unitLen s2 in
              if Nat.eqb i 0 then inl MissingUnit
              else
                let u := take i s2 in
                match unitMap u with
                | None => inl (UnknownUnit u)
                | Some unit =>
                    if two63 / unit <? v then inl InvalidDuration
                    else
                      let v1 := v * unit in
                      let v2 :=
                        if 0 <? f
                        then uint64 (v1 + f64trunc (f64mul (f64 f) (f64div (f64 unit) scale)))
                        else v1 in
                      if two63 <? v2 then inl InvalidDuration
                      else inr (v2, drop i s2)
                end
        end.
Proof. by intros ->. Qed.

(** One group of hours, minutes or seconds without a fraction. *)
Lemma parseGroup_whole c unit ds v rest :
  numeral v ds →
  (c = "h"%char ∧ unit = Hour) ∨ (c = "m"%char ∧ unit = Minute) ∨ (c = "s"%char ∧ unit = Second) →
  numberAhead rest → 0 <= v → v * unit <= two63 →
  parseGroup (ds +:+ String c rest) = inr (v * unit, rest).
Proof.
  intros (Hd & Hne & Hv) Hc Hrest Hpos Hle.
  assert (1 <= unit ∧ isDigit c = false ∧ unitMap (String c EmptyString) = Some unit
          ∧ ∀ (A : Type) (x y : string → A),
              match String c rest with String "." s1' => x s1' | _ => y (String c rest) end
              = y (String c rest)) as (Hu & Hcd & Hmap & Hdot).
  { destruct Hc as [[-> ->]|[[-> ->]|[-> ->]]]; repeat split; done. }
  destruct ds as [|d0 ds'] eqn:Eds; [done|]. rewrite <- Eds in *.
  assert (isDigit d0 = true) as Hd0.
  { rewrite Eds in Hd. simpl in Hd. by apply andb_true_iff in Hd as [? _]. }
  rewrite (parseGroup_eq _ d0 (ds' +:+ String c rest)) by (by rewrite Eds).
  rewrite Hd0, orb_true_r. cbn [negb].
  rewrite (leadingInt_value ds (String c rest) 0 Hd ltac:(lia)); [|rewrite Hv; nia|exact Hcd].
  rewrite Hv. cbv zeta.
  rewrite (Hdot _ (λ s1', let '(f, scale, s2) := leadingFraction s1' 0 (f64 1) false in
                          (f, scale, s2, negb (Nat.eqb (String.length s1') (String.length s2))))
                  (λ s1, (0, f64 1, s1, false))).
  cbv beta iota.
  assert (Nat.eqb (String.length (ds +:+ String c rest)) (String.length (String c rest)) = false)
    as ->.
  { apply Nat.eqb_neq. rewrite length_append, Eds. simpl. lia. }
  cbn [negb andb].
  assert (unitLen (String c rest) = 1%nat) as ->.
  { simpl. assert (Ascii.eqb c "." = false) as ->.
    { destruct Hc as [[-> _]|[[-> _]|[-> _]]]; done. }
    rewrite Hcd. simpl. by rewrite unitLen_ahead. }
  cbn [Nat.eqb take drop]. rewrite Hmap.
  assert ((two63 / unit <? v) = false) as ->.
  { apply Z.ltb_ge. apply Z.div_le_lower_bound; lia. }
  cbn [Z.ltb Z.compare]. 
  assert ((two63 <? v * unit) = false) as -> by (apply Z.ltb_ge; lia).
  done.
Qed.


Lemma parseGroups_whole fuel c unit ds v rest d :
  numeral v ds →
  (c = "h"%char ∧ unit = Hour) ∨ (c = "m"%char ∧ unit = Minute) ∨ (c = "s"%char ∧ unit = Second) →
  numberAhead rest → 0 <= v → 0 <= d → d + v * unit <= two63 →
  (String.length (ds +:+ String c rest) < fuel)%nat →
  parseGroups fuel (ds +:+ String c rest) d = parseGroups (pred fuel) rest (d + v * unit)
  ∧ (String.length rest < pred fuel)%nat.
Proof.
  intros Hn Hc Hrest Hv Hd Hle Hfuel.
  assert (1 <= unit) as Hu by (destruct Hc as [[_ ->]|[[_ ->]|[_ ->]]]; done).
  pose proof (parseGroup_whole c unit ds v rest Hn Hc Hrest Hv ltac:(nia)) as Hg.
  destruct Hn as (_ & Hne & _).
  destruct fuel as [|fuel]; [lia|]. rewrite length_append in Hfuel.
  destruct ds as [|d0 ds'] eqn:Eds; [done|]. rewrite <- Eds in *.
  split; [|rewrite Eds in Hfuel; simpl in *; lia].
  cbn [parseGroups pred].
  replace (ds +:+ String c rest) with (String d0 (ds' +:+ String c rest)) at 1 by (by rewrite Eds).
  cbv iota. rewrite Hg.
  assert (uint64 (d + v * unit) = d + v * unit) as ->.
  { unfold uint64. apply Z.mod_small. unfold two63, two64 in *. nia. }
  assert ((two63 <? d + v * unit) = false) as -> by (apply Z.ltb_ge; lia).
  done.
Qed.

Lemma parseGroups_end fuel d : (0 < fuel)%nat → parseGroups fuel EmptyString d = inr d.
Proof. destruct fuel; [lia|done]. Qed.

Lemma digit_no_sign c : isDigit c = true → Ascii.eqb "-" c = false ∧ Ascii.eqb "+" c = false.
Proof.
  intros Hc. split; apply Ascii.eqb_neq; intros <-; done.
Qed.

(** The string [Duration.String] makes of a whole number of seconds:
    hours, minutes and seconds, the hours and minutes left out while they
    and all before them are zero. *)
Lemma seconds_string n buf0 :
  0 < n → n * Second < two63 →
  let b1 := fmtInt (String "s" buf0) (n mod 60) in
  let u2 := n / 60 in
  let body := if 0 <? u2 then
                let b2 := fmtInt (String "m" b1) (u2 mod 60) in
                let u3 := u2 / 60 in
                if 0 <? u3 then fmtInt (String "h" b2) u3 else b2
              else b1 in
  numberAhead buf0 →
  ∀ fuel, (String.length body < fuel)%nat →
  ∃ fuel', parseGroups fuel body 0 = parseGroups fuel' buf0 (n * Second)
    ∧ (String.length buf0 < fuel')%nat
    ∧ ∃ d0 rest, body = String d0 rest ∧ isDigit d0 = true ∧ rest ≠ EmptyString.
Proof.
  intros Hn Hb b1 u2 body Hbuf fuel Hfuel.
  assert (two63 < two64) as H64 by done.
  assert (Second = 1000000000 ∧ Minute = 60 * 1000000000 ∧ Hour = 3600 * 1000000000)
    as (Hs & Hm & Hh) by done.
  pose proof (Z.mod_pos_bound n 60 ltac:(lia)) as Hsec.
  pose proof (Z.div_mod n 60 ltac:(lia)) as Hdm.
  assert (0 <= u2) as Hu2 by (apply Z.div_pos; lia).
  pose proof (Z.mod_pos_bound u2 60 ltac:(lia)) as Hmin.
  pose proof (Z.div_mod u2 60 ltac:(lia)) as Hdm2.
  assert (0 <= u2 / 60) as Hu3 by (apply Z.div_pos; lia).
  fold u2 in Hdm.
  destruct (fmtInt_numeral (String "s" buf0) (n mod 60) ltac:(lia)) as (dss & Es & Ns).
  assert (∀ ds v rest, numeral v ds →
            ∃ d0 r, ds +:+ rest = String d0 r ∧ isDigit d0 = true
                    ∧ (rest ≠ EmptyString → r ≠ EmptyString)) as Hhead.
  { intros ds v rest (Hd & Hne & _). destruct ds as [|d0 ds']; [done|].
    exists d0, (ds' +:+ rest). split; [done|]. simpl in Hd.
    apply andb_true_iff in Hd as [-> _]. split; [done|].
    intros Hr. destruct ds'; [done|done]. }
  subst body. cbv zeta in Hfuel |- *. fold b1 in Es.
  destruct (Z.ltb_spec 0 u2) as [Hpos2|Hz2].
  - destruct (fmtInt_numeral (String "m" b1) (u2 mod 60) ltac:(lia)) as (dsm & Em & Nm).
    assert (numberAhead b1) as Ha1.
    { rewrite Es. destruct (Hhead dss _ (String "s" buf0) Ns) as (d0 & r & -> & ? & _). done. }
    destruct (Z.ltb_spec 0 (u2 / 60)) as [Hpos3|Hz3].
    + destruct (fmtInt_numeral (String "h" (fmtInt (String "m" b1) (u2 mod 60))) (u2 / 60)
                  ltac:(nia)) as (dsh & Eh & Nh).
      assert (numberAhead (fmtInt (String "m" b1) (u2 mod 60))) as Ha2.
      { rewrite Em. destruct (Hhead dsm _ (String "m" b1) Nm) as (d0 & r & -> & ? & _). done. }
      rewrite Eh in Hfuel |- *.
      destruct (parseGroups_whole fuel "h" Hour dsh (u2 / 60) _ 0 Nh ltac:(auto) Ha2
                  ltac:(lia) ltac:(lia) ltac:(nia) Hfuel) as [-> Hf1].
      rewrite Em in Hf1 |- *.
      destruct (parseGroups_whole (pred fuel) "m" Minute dsm (u2 mod 60) _ (0 + u2 / 60 * Hour)
                  Nm ltac:(auto) Ha1 ltac:(lia) ltac:(nia) ltac:(nia) Hf1) as [-> Hf2].
      rewrite Es in Hf2 |- *.
      destruct (parseGroups_whole (pred (pred fuel)) "s" Second dss (n mod 60) _
                  (0 + u2 / 60 * Hour + u2 mod 60 * Minute) Ns
                  ltac:(auto) Hbuf ltac:(lia) ltac:(nia) ltac:(nia) Hf2) as [-> Hf3].
      eexists. split; [f_equal; nia|]. split; [exact Hf3|].
      destruct (Hhead dsh _ (String "h" (dsm +:+ String "m" (dss +:+ String "s" buf0))) Nh)
        as (d0 & r & -> & ? & Hr). exists d0, r. split; [done|]. split; [done|]. by apply Hr.
    + rewrite Em in Hfuel |- *.
      destruct (parseGroups_whole fuel "m" Minute dsm (u2 mod 60) _ 0 Nm ltac:(auto) Ha1
                  ltac:(lia) ltac:(lia) ltac:(nia) Hfuel) as [-> Hf2].
      rewrite Es in Hf2 |- *.
      destruct (parseGroups_whole (pred fuel) "s" Second dss (n mod 60) _
                  (0 + u2 mod 60 * Minute) Ns
                  ltac:(auto) Hbuf ltac:(lia) ltac:(nia) ltac:(nia) Hf2) as [-> Hf3].
      eexists. split; [f_equal; nia|]. split; [exact Hf3|].
      destruct (Hhead dsm _ (String "m" (dss +:+ String "s" buf0)) Nm)
        as (d0 & r & -> & ? & Hr). exists d0, r. split; [done|]. split; [done|]. by apply Hr.
  - rewrite Es in Hfuel |- *.
    destruct (parseGroups_whole fuel "s" Second dss (n mod 60) _ 0 Ns
                ltac:(auto) Hbuf ltac:(lia) ltac:(lia) ltac:(nia) Hfuel) as [-> Hf3].
    eexists. split; [f_equal; nia|]. split; [exact Hf3|].
    destruct (Hhead dss _ (String "s" buf0) Ns)
      as (d0 & r & -> & ? & Hr). exists d0, r. split; [done|]. split; [done|]. by apply Hr.
Qed.


Lemma HasPrefix_nil s : HasPrefix s EmptyString = true.
Proof. by destruct s. Qed.

(** [ParseDuration] reads back what [Duration.String] writes of a whole
    number of seconds. *)
Lemma ParseDuration_String_seconds d :
  isInt64 d → d mod Second = 0 → ParseDuration (Duration_String d) = inr d.
Proof.
  intros [Hlo Hhi] Hmod.
  destruct (Z.eq_dec d 0) as [->|Hne]; [by vm_compute|].
  assert (Second = 10 ^ Z.of_nat 9) as Hs9 by done.
  assert (Second = 1000000000) as Hs by done.
  assert (two63 = 9223372036854775808 ∧ two64 = 2 * 9223372036854775808) as [H63 H64] by done.
  set (u := Z.abs d).
  assert (u mod Second = 0) as Hu.
  { apply Z.mod_divide; [lia|]. apply Z.mod_divide in Hmod; [|lia].
    subst u. by apply Z.divide_abs_r. }
  assert (Second <= u < two63) as Hub.
  { apply Z.mod_divide in Hu as [k Hk]; [|lia]. subst u. split; [nia|].
    destruct (Z.eq_dec d (- two63)) as [->|?]; [|lia]. by vm_compute in Hmod. }
  assert ((if d <? 0 then uint64 (- uint64 d) else uint64 d) = u) as Habs.
  { unfold uint64, u. destruct (Z.ltb_spec d 0).
    - replace (d mod two64) with (d + two64).
      + replace (- (d + two64)) with (- d + (-1) * two64) by lia.
        rewrite Z.mod_add by lia. rewrite Z.mod_small; lia.
      + apply Z.mod_unique with (-1); lia.
    - rewrite Z.mod_small; lia. }
  set (n := u / Second).
  assert (0 < n ∧ n * Second < two63) as [Hn Hnb].
  { apply Z.mod_divide in Hu as [k Hk]; [|lia]. subst n. rewrite Hk, Z.div_mul by lia. lia. }
  assert (n * Second = u) as Hnu.
  { apply Z.mod_divide in Hu as [k Hk]; [|lia]. subst n. rewrite Hk, Z.div_mul by lia. lia. }
  pose proof (seconds_string n EmptyString Hn Hnb I) as Hstr. cbv zeta in Hstr.
  unfold Duration_String. cbv zeta. rewrite Habs.
  assert ((u <? Second) = false) as -> by (apply Z.ltb_ge; lia).
  unfold fmtFrac. rewrite fmtFracLoop_zero by (by rewrite <- Hs9).
  rewrite <- Hs9. fold n. cbv beta iota zeta.
  match type of Hstr with context [String.length ?b] => set (body := b) in * end.
  destruct (Hstr (S (String.length body)) ltac:(lia)) as (fuel' & Hp & Hf & d0 & rest & Eb & Hd0 & Hrest).
  rewrite parseGroups_end in Hp by lia.
  destruct (digit_no_sign d0 Hd0) as [Hm Hpl].
  assert (String.eqb body "0" = false ∧ String.eqb body EmptyString = false) as [H0 He].
  { rewrite Eb. split; apply String.eqb_neq; [|done]. intros [= _ ?]. done. }
  unfold ParseDuration. destruct (Z.ltb_spec d 0) as [Hneg|Hpos].
  - cbn [HasPrefix]. rewrite Ascii.eqb_refl, HasPrefix_nil. cbn [orb drop].
    rewrite H0, He, Hp, Hnu. f_equal. unfold int64, u.
    rewrite (Z.mod_small (Z.abs d + two63)) by lia.
    replace (- (Z.abs d + two63 - two63) + two63) with (d + two63) by lia.
    rewrite Z.mod_small by lia. lia.
  - assert (HasPrefix body "-" = false ∧ HasPrefix body "+" = false) as [-> ->].
    { rewrite Eb. cbn [HasPrefix]. by rewrite Hm, Hpl. }
    cbn [orb].
    rewrite H0, He, Hp, Hnu.
    assert ((two63 - 1 <? u) = false) as -> by (apply Z.ltb_ge; lia).
    f_equal. lia.
Qed.

End Durations.

Section EverySeconds.
Context `{Host}.

(** X12. [Every] with a whole number of seconds, of either sign: the call
    returns nil, the job is stored with the schedule string
    ["@every " + interval.String()], and the entry of the cron fires at
    the interval itself, or each second when the interval is under one
    second. *)
Theorem Every_whole_seconds σ name interval fn :
  reachable σ → isInt64 interval → interval mod Second = 0 →
  let spec := ("@every " +:+ Duration_String interval)%string in
  let id := cron.nextID (cronOf (sched σ)) + 1 in
  ∃ s' rt', Every name interval fn (sched σ) (rt σ) = (Nil, s', rt')
    ∧ jobs s' = <[name := {| Name := name; Schedule := spec; EntryID := id |}]> (jobs (sched σ))
    ∧ entryIndex (cron.entries (cronOf s'))
      = entryIndex (cron.entries (cronOf (sched σ)))
        ++ [(id, cron.ConstantDelaySchedule (Z.max interval Second))].
Proof.
  intros Hr Hint Hmod spec id.
  rewrite Every_Cron.
  pose proof (Cron_spec name spec fn (sched σ) (rt σ)) as Hspec.
  rewrite (cfg_parser _ (reachable_configured _ Hr)) in Hspec.
  assert (cron.standardParser spec
          = cron.Parsed (cron.ConstantDelaySchedule (Z.max interval Second))) as Hp.
  { unfold spec, cron.standardParser, cron.Parse. simpl.
    unfold cron.parseDescriptor. simpl.
    change ("" +:+ Duration_String interval)%string with (Duration_String interval).
    assert (gostrings.HasPrefix (Duration_String interval) "" = true) as ->
      by (by destruct (Duration_String interval)).
    rewrite ParseDuration_String_seconds by done.
    unfold cron.Every. f_equal. f_equal.
    destruct (Z.ltb_spec interval Second).
    - rewrite Z.rem_same by done. lia.
    - rewrite Z.rem_mod_nonneg by (unfold Second in *; lia). rewrite Hmod. lia. }
  rewrite Hp in Hspec. exact Hspec.
Qed.

End EverySeconds.

(** ** [Running] and the cron *)

Section Flags.
Context `{Host}.

Lemma agreed_step σ e σ' :
  configured σ → agreed σ → (e = CallStart → stopping σ = []) → step σ e = Some σ' → agreed σ'.
Proof.
  intros Hcfg [K1 K2] Hord Hstep. unfold step in Hstep.
  destruct (crashed (rt σ)) eqn:Hcr; [done|].
  assert (∀ name spec fn r s' rt',
    Cron name spec fn (sched σ) (rt σ) = (r, s', rt') →
    cron.running (cronOf s') = cron.running (cronOf (sched σ)) ∧ started s' = started (sched σ)) as Hreg.
  { clear Hstep. intros name spec fn r s' rt' Hc. unfold Cron in Hc.
    pose proof (AddFunc_spec spec (wrappedFn fn) (cronOf (sched σ)) (rt σ)) as Ha.
    destruct (cron.parser _ _) as [sch|err|v].
    - destruct Ha as (c' & rt1 & Ha & _ & _ & _ & E1 & _). rewrite Ha in Hc. by simplify_eq.
    - rewrite Ha in Hc. by simplify_eq.
    - rewrite Ha in Hc. by simplify_eq. }
  destruct e as [name d fn|name expr fn|name| | |i|d|id| |x|x o|t|t].
  - rewrite Every_Cron in Hstep.
    destruct (Cron _ _ _ _ _) as [[r s'] rt'] eqn:E. simplify_eq.
    destruct (Hreg _ _ _ _ _ _ E) as [E1 E2]. unfold agreed. simpl. by rewrite E1, E2.
  - destruct (Cron _ _ _ _ _) as [[r s'] rt'] eqn:E. simplify_eq.
    destruct (Hreg _ _ _ _ _ _ E) as [E1 E2]. unfold agreed. simpl. by rewrite E1, E2.
  - unfold Remove in Hstep. destruct (jobs (sched σ) !! name) as [job|].
    + unfold cron.Remove in Hstep. destruct (cron.running (cronOf (sched σ))) eqn:Er;
        simplify_eq; unfold agreed; simpl; by rewrite ?Er.
    + by simplify_eq.
  - specialize (Hord eq_refl). unfold Start in Hstep. destruct (started (sched σ)) eqn:Es.
    { simplify_eq. unfold agreed. simpl. by rewrite Es. }
    destruct (baseContext_Some (sched σ)) as [p Hp]. rewrite Hp in Hstep. simpl in Hstep.
    unfold cron.Start in Hstep. simpl in Hstep.
    destruct (cron.running (cronOf (sched σ))) eqn:Er.
    + simplify_eq. unfold agreed. simpl. rewrite Er. split; [done|]. by rewrite Hord.
    + destruct (cron.activate _ _ _ _) as [es rt1]. simplify_eq. unfold agreed. simpl.
      split; [done|]. by rewrite Hord.
  - destruct (started (sched σ)) eqn:Es; unfold stopLocked, stopped in Hstep; simpl in Hstep;
      simplify_eq; unfold agreed; simpl.
    + split; [|done]. by intros [? ?]%app_eq_nil.
    + by rewrite Es.
  - destruct (stopping σ !! i) as [c|] eqn:Ei; [|done].
    assert (stopping σ ≠ []) as Hne by (intros Hnil; by rewrite Hnil in Ei).
    specialize (K2 Hne).
    unfold stopUnlocked, cron.Stop in Hstep.
    destruct (cron.running (cronOf (sched σ))) eqn:Er; simpl in Hstep; simplify_eq;
      unfold agreed; simpl; rewrite ?Er; done.
  - by simplify_eq.
  - by simplify_eq.
  - destruct (cron.running (cronOf (sched σ))) eqn:Hrun; [|done].
    destruct (wake_spec (cronOf (sched σ)) (rt σ) (cfg_logger _ Hcfg))
      as (js & E1 & _).
    destruct (cron.wake _ _) as [c rt']. simpl in *. simplify_eq.
    unfold agreed. simpl. by rewrite E1, Hrun in *.
  - destruct (begin x (sched σ) (rt σ)) as [[s' rt']|] eqn:Hb; [|done]. simplify_eq.
    unfold begin in Hb. destruct (findRun x (cronOf (sched σ))) as [r|]; [|done].
    destruct (cron.phase r); [|done].
    destruct (cron.enter (cron.job r) (rt σ)) as [[fn|] rt1]; by simplify_eq.
  - destruct (finish x o (sched σ) (rt σ)) as [[s' rt']|] eqn:Hb; [|done]. simplify_eq.
    unfold finish in Hb. destruct (findRun x (cronOf (sched σ))) as [r|]; [|done].
    destruct (cron.phase r); [done|].
    destruct (cron.leave (cron.job r) o (rt σ)) as [[|v] rt1]; by simplify_eq.
  - destruct (release t (cronOf (sched σ))) as [c|] eqn:Hb; [|done]. simplify_eq.
    unfold release in Hb. destruct (cron.jobWaiter (cronOf (sched σ))) eqn:Hj; [|done].
    destruct (existsb _ _); [|done]. by simplify_eq.
  - destruct (cancelToken t (cronOf (sched σ)) (rt σ)) as [[c rt']|] eqn:Hb; [|done].
    simplify_eq. unfold cancelToken in Hb. destruct (existsb _ _); [|done]. by simplify_eq.
Qed.

Lemma agreed_steps σ es σ' :
  reachable σ → agreed σ → orderly σ es → steps σ es = Some σ' → agreed σ'.
Proof.
  revert σ. induction es as [|e es IH]; intros σ Hr Ha Ho Hs; simpl in *.
  - by simplify_eq.
  - destruct Ho as [Ho1 Ho2]. destruct (step σ e) as [σ1|] eqn:E; [|done].
    simpl in Hs. apply (IH σ1); try done.
    + by eapply reachable_step.
    + eapply agreed_step; try done. by apply reachable_configured.
Qed.

(** X7. [Running] against the cron. In a run in which [Start] is never
    called between the two halves of a call of [Stop], whenever no call of
    [Stop] is under way [Running] says whether the cron is running. *)
Theorem Running_tells_the_cron now opts es σ :
  steps (init now opts) es = Some σ → orderly (init now opts) es → stopping σ = [] →
  Running (sched σ) = cron.running (cronOf (sched σ)).
Proof.
  intros Hs Ho Hst.
  assert (agreed (init now opts)) as Ha.
  { split; [|done]. intros _. unfold init, New. simpl.
    match goal with |- context [fold_left applyOption opts ?s0] =>
      destruct (fold_applyOption_run opts s0) as (Hst0 & _);
      set (s := fold_left applyOption opts s0) in * end.
    rewrite Hst0. by destruct (skipIfRunning s). }
  destruct (agreed_steps _ _ _ (reachable_init now opts) Ha Ho Hs) as [K1 _].
  unfold Running. by rewrite K1.
Qed.

End Flags.

(** ** The theorems above on schedulers at hand *)

Section Trying.
Context `{Host}.

Lemma after_step now opts es e :
  possible now opts (es ++ [e]) = true →
  step (after now opts es) e = Some (after now opts (es ++ [e])).
Proof.
  intros Hp. pose proof (after_steps now opts es [e] Hp) as Hs. simpl in Hs.
  by destruct (step (after now opts es) e).
Qed.

Lemma steps_after now opts es :
  possible now opts es = true → steps (init now opts) es = Some (after now opts es).
Proof. unfold possible, after. by destruct (steps (init now opts) es). Qed.

End Trying.

Lemma X3_witness :
  reachable oneJob
  ∧ registers (CallCron "job2" "@every 2s" 2%nat) "job2" "@every 2s"
  ∧ cron.standardParser "@every 2s" = cron.Parsed (cron.ConstantDelaySchedule (2 * Second))
  ∧ step oneJob (CallCron "job2" "@every 2s" 2%nat) = Some twoJobs
  ∧ jobs (sched twoJobs) !! "job2"
    = Some {| Name := "job2"; Schedule := "@every 2s";
              EntryID := cron.nextID (cronOf (sched oneJob)) + 1 |}
  ∧ cron.jobWaiter (cronOf (sched twoJobs)) = cron.jobWaiter (cronOf (sched oneJob)).
Proof.
  assert (possible 0 [] ([CallCron "job1" "@every 1s" 1%nat]
                         ++ [CallCron "job2" "@every 2s" 2%nat]) = true) as Hp
    by (vm_compute; reflexivity).
  pose proof (after_step 0 [] [CallCron "job1" "@every 1s" 1%nat]
                (CallCron "job2" "@every 2s" 2%nat) Hp) as Hs.
  assert (cron.standardParser "@every 2s"
          = cron.Parsed (cron.ConstantDelaySchedule (2 * Second))) as Hpar
    by (vm_compute; reflexivity).
  pose proof (registration_leaves_the_rest oneJob (CallCron "job2" "@every 2s" 2%nat)
                "job2" "@every 2s" (cron.ConstantDelaySchedule (2 * Second)) twoJobs
                reachable_oneJob (conj eq_refl eq_refl) Hpar Hs) as Hthm.
  cbv zeta in Hthm. destruct Hthm as (H1 & _ & _ & H4 & _).
  exact (conj reachable_oneJob (conj (conj eq_refl eq_refl) (conj Hpar (conj Hs (conj H1 H4))))).
Defined.

Lemma X4_witness :
  reachable oneJob
  ∧ jobs (sched oneJob) !! "job2" = None
  ∧ cron.standardParser "@every 2s" = cron.Parsed (cron.ConstantDelaySchedule (2 * Second))
  ∧ (let '(r, s1, rt1) := Cron "job2" "@every 2s" 2%nat (sched oneJob) (rt oneJob) in
     let '(removed, s2, rt2) := Remove "job2" s1 rt1 in
     r = Nil ∧ removed = true
     ∧ jobs s2 = jobs (sched oneJob)
     ∧ cron.entries (cronOf s2) = cron.entries (cronOf (sched oneJob))
     ∧ cron.nextID (cronOf s2) = cron.nextID (cronOf (sched oneJob)) + 1
     ∧ ∀ l, listing s2 l ↔ listing (sched oneJob) l).
Proof.
  assert (jobs (sched oneJob) !! "job2" = None) as Hn by (vm_compute; reflexivity).
  assert (cron.standardParser "@every 2s"
          = cron.Parsed (cron.ConstantDelaySchedule (2 * Second))) as Hpar
    by (vm_compute; reflexivity).
  pose proof (register_then_remove oneJob "job2" "@every 2s" 2%nat
                (cron.ConstantDelaySchedule (2 * Second)) reachable_oneJob Hn Hpar) as Hthm.
  split; [exact reachable_oneJob|]. split; [exact Hn|]. split; [exact Hpar|]. exact Hthm.
Defined.

Lemma X5_witness :
  reachable oneJob
  ∧ jobs (sched oneJob) !! "job1"
    = Some {| Name := "job1"; Schedule := "@every 1s"; EntryID := 1 |}
  ∧ registers (CallCron "job1" "@every 2s" 2%nat) "job1" "@every 2s"
  ∧ cron.standardParser "@every 2s" = cron.Parsed (cron.ConstantDelaySchedule (2 * Second))
  ∧ step oneJob (CallCron "job1" "@every 2s" 2%nat) = Some jobReplaced
  ∧ ∃ sch0, cron.standardParser "@every 1s" = cron.Parsed sch0
      ∧ ∀ es σ2, steps jobReplaced es = Some σ2 →
          (1, sch0) ∈ entryIndex (cron.entries (cronOf (sched σ2)))
          ∧ ∀ n job, jobs (sched σ2) !! n = Some job → EntryID job ≠ 1.
Proof.
  assert (possible 0 [] ([CallCron "job1" "@every 1s" 1%nat]
                         ++ [CallCron "job1" "@every 2s" 2%nat]) = true) as Hp
    by (vm_compute; reflexivity).
  pose proof (after_step 0 [] [CallCron "job1" "@every 1s" 1%nat]
                (CallCron "job1" "@every 2s" 2%nat) Hp) as Hs.
  assert (jobs (sched oneJob) !! "job1"
          = Some {| Name := "job1"; Schedule := "@every 1s"; EntryID := 1 |}) as Hold
    by (vm_compute; reflexivity).
  assert (cron.standardParser "@every 2s"
          = cron.Parsed (cron.ConstantDelaySchedule (2 * Second))) as Hpar
    by (vm_compute; reflexivity).
  exact (conj reachable_oneJob (conj Hold (conj (conj eq_refl eq_refl) (conj Hpar (conj Hs
           (overwritten_entry_stays oneJob (CallCron "job1" "@every 2s" 2%nat)
              "job1" "@every 2s" (cron.ConstantDelaySchedule (2 * Second))
              {| Name := "job1"; Schedule := "@every 1s"; EntryID := 1 |} jobReplaced
              reachable_oneJob Hold (conj eq_refl eq_refl) Hpar Hs)))))).
Defined.

Lemma X6_witness :
  reachable twoJobs
  ∧ NoDup (entryIDs twoJobs)
  ∧ (∀ id, id ∈ entryIDs twoJobs → 1 ≤ id ≤ cron.nextID (cronOf (sched twoJobs)))
  ∧ (∀ name job, jobs (sched twoJobs) !! name = Some job → EntryID job ∈ entryIDs twoJobs)
  ∧ (∀ l, listing (sched twoJobs) l → NoDup (Name <$> l) ∧ NoDup (EntryID <$> l)).
Proof.
  assert (reachable twoJobs) as Hr by (apply reachable_after; vm_compute; reflexivity).
  exact (conj Hr (entry_ids_are_unique twoJobs Hr)).
Defined.

Lemma X7_witness :
  let es := [CallCron "job1" "@every 1s" 1%nat; CallStart; CallStopLocked; CallStopUnlocked 0%nat] in
  steps (init 0 []) es = Some idleStopped
  ∧ orderly (init 0 []) es
  ∧ stopping idleStopped = []
  ∧ Running (sched idleStopped) = cron.running (cronOf (sched idleStopped)).
Proof.
  intros es.
  assert (possible 0 [] es = true) as Hp by (vm_compute; reflexivity).
  pose proof (steps_after 0 [] es Hp) as Hs.
  assert (orderly (init 0 []) es) as Ho.
  { vm_compute. repeat split; try done. }
  assert (stopping idleStopped = []) as Hst by (vm_compute; reflexivity).
  exact (conj Hs (conj Ho (conj Hst (Running_tells_the_cron 0 [] es idleStopped Hs Ho Hst)))).
Defined.

(** The proviso of that theorem is needed: when [Start] is called between
    the two halves of a call of [Stop], it finds the cron still running
    and leaves it so, the second half of [Stop] then stops the cron, and
    [Running] answers true over a cron that is stopped. *)
Example start_between_the_halves_of_stop :
  let es := [CallCron "job1" "@every 1s" 1%nat; CallStart; CallStopLocked; CallStart;
             CallStopUnlocked 0%nat] in
  possible 0 [] es = true
  ∧ stopping (after 0 [] es) = []
  ∧ Running (sched (after 0 [] es)) = true
  ∧ cron.running (cronOf (sched (after 0 [] es))) = false.
Proof. repeat split; by vm_compute. Qed.

Lemma X8_witness :
  let w := {| cron.token := 1%nat; cron.released := false |} in
  reachable idleStopped
  ∧ w ∈ cron.waiters (cronOf (sched idleStopped))
  ∧ cron.jobWaiter (cronOf (sched idleStopped)) = []
  ∧ ∃ σ', steps idleStopped [ReleaseWaiter 1%nat; CancelToken 1%nat] = Some σ'
          ∧ Done (rt σ') (cancelCtx 1 Background) = true
          ∧ sched σ' = withCron (cronOf (sched σ')) (sched idleStopped)
          ∧ (∀ w', w' ∈ cron.waiters (cronOf (sched σ')) → cron.token w' ≠ 1%nat).
Proof.
  intros w.
  assert (reachable idleStopped) as Hr by (apply reachable_after; vm_compute; reflexivity).
  assert (cron.waiters (cronOf (sched idleStopped)) = [w]) as Hws by (vm_compute; reflexivity).
  assert (w ∈ cron.waiters (cronOf (sched idleStopped))) as Hw
    by (rewrite Hws; apply list_elem_of_here).
  assert (cron.jobWaiter (cronOf (sched idleStopped)) = []) as Hidle
    by (vm_compute; reflexivity).
  exact (conj Hr (conj Hw (conj Hidle
           (stop_token_completes_when_idle idleStopped w Hr Hw eq_refl Hidle)))).
Defined.

Lemma X9_witness :
  reachable oneJobInBody
  ∧ skipIfRunning (sched oneJobInBody) = true
  ∧ (∀ r1 r2 f1 c1 f2 c2,
       r1 ∈ cron.jobWaiter (cronOf (sched oneJobInBody)) →
       r2 ∈ cron.jobWaiter (cronOf (sched oneJobInBody)) →
       cron.phase r1 = cron.InBody f1 c1 → cron.phase r2 = cron.InBody f2 c2 →
       cron.job r1 = cron.job r2 → r1 = r2).
Proof.
  assert (skipIfRunning (sched oneJobInBody) = true) as Hskip by (vm_compute; reflexivity).
  exact (conj reachable_oneJobInBody (conj Hskip
           (proj1 (skip_if_running_never_overlaps oneJobInBody reachable_oneJobInBody Hskip)))).
Defined.

Lemma X10_witness :
  let es := [CallCron "job1" "@every 1s" 1%nat; CallStart; Advance Second; Wake; Begin 0;
             Finish 0 (Panics "test panic")] in
  let σ := after 0 [WithLogger (slogCustom 7)] es in
  steps (init 0 [WithLogger (slogCustom 7)]) es = Some σ
  ∧ logger (sched σ) = logger (New [WithLogger (slogCustom 7)])
  ∧ Forall (λ c, via c = logger (New [WithLogger (slogCustom 7)])) (output (rt σ)).
Proof.
  intros es σ.
  assert (possible 0 [WithLogger (slogCustom 7)] es = true) as Hp by (vm_compute; reflexivity).
  pose proof (steps_after 0 [WithLogger (slogCustom 7)] es Hp) as Hs.
  exact (conj Hs (all_logs_go_to_the_logger 0 [WithLogger (slogCustom 7)] es σ Hs)).
Defined.

Lemma X11_witness :
  reachable (init 0 [])
  ∧ List.length (gostrings.Fields "invalid expression") ≠ 5%nat
  ∧ Cron "invalid-job" "invalid expression" 0%nat (New []) (boot 0)
    = (Err (if String.eqb "invalid expression" "" then cron.EmptySpec
            else cron.FieldCount 5 5
                   (Z.of_nat (List.length (gostrings.Fields "invalid expression")))),
       New [], boot 0).
Proof.
  assert (List.length (gostrings.Fields "invalid expression") ≠ 5%nat) as Hn
    by (vm_compute; discriminate).
  exact (conj (reachable_init 0 []) (conj Hn
           (Cron_wants_five_fields (init 0 []) "invalid-job" "invalid expression" 0%nat
              (reachable_init 0 []) eq_refl eq_refl eq_refl Hn))).
Defined.

Lemma X12_witness :
  reachable oneJob
  ∧ isInt64 (90 * Second) ∧ (90 * Second) mod Second = 0
  ∧ ∃ s' rt', Every "job2" (90 * Second) 2%nat (sched oneJob) (rt oneJob) = (Nil, s', rt')
      ∧ jobs s' = <["job2" := {| Name := "job2";
                                 Schedule := "@every " +:+ Duration_String (90 * Second);
                                 EntryID := cron.nextID (cronOf (sched oneJob)) + 1 |}]>
                    (jobs (sched oneJob))
      ∧ entryIndex (cron.entries (cronOf s'))
        = entryIndex (cron.entries (cronOf (sched oneJob)))
          ++ [(cron.nextID (cronOf (sched oneJob)) + 1,
               cron.ConstantDelaySchedule (Z.max (90 * Second) Second))].
Proof.
  assert (isInt64 (90 * Second)) as Hi by (split; by vm_compute).
  exact (conj reachable_oneJob (conj Hi (conj eq_refl
           (Every_whole_seconds oneJob "job2" (90 * Second) 2%nat
              reachable_oneJob Hi eq_refl)))).
Defined.

Lemma X13_witness :
  reachable oneJob
  ∧ jobs (sched oneJob) !! "job1"
    = Some {| Name := "job1"; Schedule := "@every 1s"; EntryID := 1 |}
  ∧ step oneJob (CallRemove "job1") = Some jobRemoved
  ∧ cron.jobWaiter (cronOf (sched jobRemoved)) = cron.jobWaiter (cronOf (sched oneJob))
  ∧ cancelled (rt jobRemoved) = cancelled (rt oneJob)
  ∧ ∀ es σ2, steps jobRemoved es = Some σ2 →
      (1 ∉ entryIDs σ2)
      ∧ ∀ n j, jobs (sched σ2) !! n = Some j → EntryID j ≠ 1.
Proof.
  assert (possible 0 [] ([CallCron "job1" "@every 1s" 1%nat] ++ [CallRemove "job1"]) = true)
    as Hp by (vm_compute; reflexivity).
  pose proof (after_step 0 [] [CallCron "job1" "@every 1s" 1%nat] (CallRemove "job1") Hp) as Hs.
  assert (jobs (sched oneJob) !! "job1"
          = Some {| Name := "job1"; Schedule := "@every 1s"; EntryID := 1 |}) as Hold
    by (vm_compute; reflexivity).
  exact (conj reachable_oneJob (conj Hold (conj Hs
           (removed_entry_is_gone_for_good oneJob "job1"
              {| Name := "job1"; Schedule := "@every 1s"; EntryID := 1 |} jobRemoved
              reachable_oneJob Hold Hs)))).
Defined.

Lemma X14_witness :
  reachable baseExpired
  ∧ baseCtx (sched baseExpired) = Some (External 0)
  ∧ 0%nat ∈ expired (rt baseExpired)
  ∧ (∃ c, jobContext (sched baseExpired) = Some c ∧ Done (rt baseExpired) c = true)
  ∧ ∀ r f ctx, r ∈ cron.jobWaiter (cronOf (sched baseExpired)) →
      cron.phase r = cron.InBody f ctx → ∃ c, ctx = Some c ∧ Done (rt baseExpired) c = true.
Proof.
  assert (reachable baseExpired) as Hr by (apply reachable_after; vm_compute; reflexivity).
  assert (baseCtx (sched baseExpired) = Some (External 0)) as Hb by (vm_compute; reflexivity).
  assert (0%nat ∈ expired (rt baseExpired)) as He
    by (apply (bool_decide_eq_true_1 (0%nat ∈ expired (rt baseExpired))); vm_compute; reflexivity).
  exact (conj Hr (conj Hb (conj He (base_context_reaches_jobs baseExpired 0%nat Hr Hb He)))).
Defined.

Lemma X15_witness :
  reachable (init 0 [])
  ∧ gostrings.IndexByte "TZ=UTC" " " = -1
  ∧ Cron "job" "TZ=UTC" 0%nat (New []) (boot 0)
    = (Panic "slice bounds out of range", New [], boot 0).
Proof.
  exact (conj (reachable_init 0 []) (conj eq_refl
           (Cron_panics_on_zone_without_space (init 0 []) "job" "TZ=UTC" 0%nat
              (reachable_init 0 []) eq_refl eq_refl))).
Defined.

